(** * Static runtime: analysis passes, memory planner and executor

    A shallow embedding of [torch/csrc/jit/runtime/static/impl.cpp].

    - [size_t] values are integers in [Z] with the wrap-around modulo
      [2^64] written out;
    - [std::unordered_set] and [std::set] are [gset], [std::unordered_map]
      is [gmap], [std::vector] is [list];
    - a [TORCH_CHECK] that fails, or an [.at()] on a missing key, is a
      [Throw] in the [result] monad;
    - collaborators that live outside the file (the alias database, the
      kernel library, the tensor library) are parameters of the sections
      that use them. *)

From Stdlib Require Import ZArith Lia Bool.
From stdpp Require Import base option list gmap sets relations strings.

#[local] Set Warnings "-clear-no-such-hyp,-register-all".
#[local] Set Default Proof Using "Type".

(** ** Exceptions *)

(** What a call can end with besides a value: a failed [TORCH_CHECK], a
    failed debug assertion, [std::out_of_range] from [.at()], or a use of
    an object that is not there (undefined behaviour in the source). *)
Inductive error : Type :=
| GraphOutputMemoryNeedsOutVariantAndMemory
| MemoryNeedsOutVariant
| CheckFailed
| DcheckFailed
| OutOfRange
| UndefinedBehaviour.

Inductive result (A : Type) : Type :=
| Ok (a : A)
| Throw (e : error)
| OutOfFuel.

Arguments Ok {A} a.
Arguments Throw {A} e.
Arguments OutOfFuel {A}.

#[global] Instance result_ret : MRet result := fun A a => Ok a.
#[global] Instance result_bind : MBind result := fun A B f m =>
  match m with
  | Ok a => f a
  | Throw e => Throw e
  | OutOfFuel => OutOfFuel
  end.

(** [TORCH_CHECK(cond)] *)
Definition torch_check (cond : bool) (e : error) : result unit :=
  if cond then Ok tt else Throw e.

(** [m.at(k)] *)
Definition at_key `{Countable K} {V} (m : gmap K V) (k : K) : result V :=
  match m !! k with
  | Some v => Ok v
  | None => Throw OutOfRange
  end.

(** A loop over a vector whose body may throw. *)
Fixpoint for_each {A S} (body : S -> A -> result S) (xs : list A) (st : S) : result S :=
  match xs with
  | [] => Ok st
  | x :: rest => st' ← body st x; for_each body rest st'
  end.

Lemma bind_Ok {A B} (m : result A) (f : A -> result B) (b : B) :
  m ≫= f = Ok b -> exists a, m = Ok a /\ f a = Ok b.
Proof. destruct m as [a | e |]; simpl; intros H; [eauto | discriminate | discriminate]. Qed.

Lemma for_each_invariant {A S} (P : S -> Prop) (body : S -> A -> result S) xs st st' :
  (forall s x s', x ∈ xs -> P s -> body s x = Ok s' -> P s') ->
  P st -> for_each body xs st = Ok st' -> P st'.
Proof.
  revert st. induction xs as [| x xs IH]; intros st Hbody HP Hrun; simpl in Hrun.
  - congruence.
  - apply bind_Ok in Hrun as (s1 & H1 & H2).
    apply (IH s1); [| eapply Hbody; [left | exact HP | exact H1] | exact H2].
    intros s y s' Hy. apply Hbody. now right.
Qed.

Lemma at_key_Ok `{Countable K} {V} (m : gmap K V) k v :
  at_key m k = Ok v ↔ m !! k = Some v.
Proof. unfold at_key. destruct (m !! k); split; intros; simplify_eq; done. Qed.

(** Decides a closed goal by evaluation. *)
Ltac vm_compute_decide := apply (bool_decide_unpack _); vm_compute; exact I.

(** ** Unsigned 64-bit arithmetic *)

Module SizeT.

Local Open Scope Z_scope.

Definition bits : Z := 64.
Definition modulus : Z := 2 ^ bits.

(** Reduction of a mathematical integer to its [size_t] representative. *)
Definition wrap (z : Z) : Z := z mod modulus.

Definition add (a b : Z) : Z := wrap (a + b).
Definition sub (a b : Z) : Z := wrap (a - b).
Definition not (a : Z) : Z := wrap (Z.lnot a).
Definition and (a b : Z) : Z := Z.land a b.

Definition in_range (z : Z) : Prop := 0 <= z < modulus.

Lemma modulus_pos : 0 < modulus.
Proof. reflexivity. Qed.

Lemma wrap_range z : in_range (wrap z).
Proof. unfold in_range, wrap. apply Z.mod_pos_bound, modulus_pos. Qed.

Lemma wrap_id z : in_range z -> wrap z = z.
Proof. unfold in_range, wrap. intros H. now apply Z.mod_small. Qed.

Lemma wrap_testbit z i :
  0 <= i -> Z.testbit (wrap z) i = (i <? bits) && Z.testbit z i.
Proof.
  intros Hi. unfold wrap, modulus.
  destruct (Z.ltb_spec i bits) as [Hlt | Hge]; simpl.
  - apply Z.mod_pow2_bits_low. lia.
  - apply Z.mod_pow2_bits_high. unfold bits in *. lia.
Qed.

Lemma in_range_testbit_high z i :
  in_range z -> bits <= i -> Z.testbit z i = false.
Proof.
  intros Hz Hi. rewrite <- (wrap_id z Hz), wrap_testbit by (unfold bits in *; lia).
  destruct (Z.ltb_spec i bits); [lia | reflexivity].
Qed.

End SizeT.

(** ** [MemoryPlanner::compute_aligned_tensor_size] *)

Module Align.

Local Open Scope Z_scope.

Section WithAlignment.

  (** [c10::gAlignment], declared in [c10/core/alignment.h]. *)
Variable gAlignment : Z.

  (** [(nbytes + c10::gAlignment - 1) & (~(c10::gAlignment - 1))], every
      intermediate value a [size_t]. *)
Definition compute_aligned_tensor_size (nbytes : Z) : Z :=
    SizeT.and
      (SizeT.sub (SizeT.add nbytes gAlignment) 1)
      (SizeT.not (SizeT.sub gAlignment 1)).

  (** The alignment is a power of two that fits a [size_t]. *)
Definition alignment_ok : Prop :=
    exists k, 0 <= k < SizeT.bits /\ gAlignment = 2 ^ k.

Lemma sum_wrap nbytes :
    SizeT.sub (SizeT.add nbytes gAlignment) 1 = SizeT.wrap (nbytes + gAlignment - 1).
  Proof.
    unfold SizeT.sub, SizeT.add, SizeT.wrap.
    rewrite Zminus_mod_idemp_l. reflexivity.
  Qed.

Lemma mask_testbit k i :
    0 <= k < SizeT.bits -> gAlignment = 2 ^ k -> 0 <= i ->
    Z.testbit (SizeT.not (SizeT.sub gAlignment 1)) i = (i <? SizeT.bits) && (k <=? i).
  Proof.
    intros Hk HA Hi. unfold SizeT.not, SizeT.sub.
    rewrite SizeT.wrap_testbit by assumption.
    f_equal.
    rewrite SizeT.wrap_id.
    2:{ unfold SizeT.in_range, SizeT.modulus. subst gAlignment.
        assert (0 < 2 ^ k) by (apply Z.pow_pos_nonneg; lia).
        assert (2 ^ k < 2 ^ SizeT.bits) by (apply Z.pow_lt_mono_r; lia).
        lia. }
    rewrite Z.lnot_spec by assumption.
    subst gAlignment.
    replace (2 ^ k - 1) with (Z.ones k) by (rewrite Z.ones_equiv; lia).
    destruct (Z.leb_spec k i).
    - rewrite Z.ones_spec_high by lia. reflexivity.
    - rewrite Z.ones_spec_low by lia. reflexivity.
  Qed.

  (** With no overflow in the sum, masking rounds down to a multiple. *)
Lemma aligned_closed_form k nbytes :
    0 <= k < SizeT.bits -> gAlignment = 2 ^ k ->
    SizeT.in_range (nbytes + gAlignment - 1) ->
    compute_aligned_tensor_size nbytes
    = gAlignment * ((nbytes + gAlignment - 1) / gAlignment).
  Proof.
    intros Hk HA Hr. unfold compute_aligned_tensor_size.
    rewrite sum_wrap, (SizeT.wrap_id _ Hr).
    set (x := nbytes + gAlignment - 1) in *.
    replace (gAlignment * (x / gAlignment)) with (Z.shiftl (Z.shiftr x k) k).
    2:{ rewrite Z.shiftl_mul_pow2, Z.shiftr_div_pow2 by lia. subst gAlignment. ring. }
    apply Z.bits_inj'. intros i Hi. unfold SizeT.and.
    rewrite Z.land_spec, (mask_testbit k i Hk HA Hi).
    destruct (Z.leb_spec k i) as [Hki | Hki].
    - rewrite Z.shiftl_spec, Z.shiftr_spec by lia.
      replace (i - k + k) with i by ring.
      destruct (Z.ltb_spec i SizeT.bits) as [Hlt | Hge].
      + simpl. apply andb_true_r.
      + rewrite (SizeT.in_range_testbit_high x i Hr Hge). reflexivity.
    - rewrite Z.shiftl_spec_low by lia. rewrite !andb_false_r. reflexivity.
  Qed.

(** Masking a [size_t] rounds it down to a multiple of the alignment. *)
Lemma mask_rounds_down k x :
  0 <= k < SizeT.bits -> gAlignment = 2 ^ k -> SizeT.in_range x ->
  SizeT.and x (SizeT.not (SizeT.sub gAlignment 1)) = gAlignment * (x / gAlignment).
Proof.
  intros Hk HA Hr.
  replace (gAlignment * (x / gAlignment)) with (Z.shiftl (Z.shiftr x k) k).
  2:{ rewrite Z.shiftl_mul_pow2, Z.shiftr_div_pow2 by lia. subst gAlignment. ring. }
  apply Z.bits_inj'. intros i Hi. unfold SizeT.and.
  rewrite Z.land_spec, (mask_testbit k i Hk HA Hi).
  destruct (Z.leb_spec k i) as [Hki | Hki].
  - rewrite Z.shiftl_spec, Z.shiftr_spec by lia.
    replace (i - k + k) with i by ring.
    destruct (Z.ltb_spec i SizeT.bits) as [Hlt | Hge].
    + simpl. apply andb_true_r.
    + rewrite (SizeT.in_range_testbit_high x i Hr Hge). reflexivity.
  - rewrite Z.shiftl_spec_low by lia. rewrite !andb_false_r. reflexivity.
Qed.

(** Whatever the argument, the result is a [size_t] multiple of the
    alignment. *)
Lemma aligned_is_multiple nbytes :
  alignment_ok ->
  SizeT.in_range (compute_aligned_tensor_size nbytes)
  /\ (gAlignment | compute_aligned_tensor_size nbytes).
Proof.
  intros (k & Hk & HA). unfold compute_aligned_tensor_size. rewrite sum_wrap.
  pose proof (SizeT.wrap_range (nbytes + gAlignment - 1)) as Hr.
  rewrite (mask_rounds_down k _ Hk HA Hr).
  set (x := SizeT.wrap (nbytes + gAlignment - 1)) in *.
  assert (HApos : 0 < gAlignment) by (subst gAlignment; apply Z.pow_pos_nonneg; lia).
  pose proof (Z.mod_pos_bound x gAlignment HApos) as Hmod.
  pose proof (Z.div_mod x gAlignment ltac:(lia)) as Hdm.
  unfold SizeT.in_range in *.
  assert (0 <= x / gAlignment) by (apply Z.div_pos; lia).
  split; [nia | exists (x / gAlignment); ring].
Qed.

(** A [size_t] multiple of the alignment is left as it is. *)
Lemma aligned_fixed nbytes :
  alignment_ok -> SizeT.in_range nbytes -> (gAlignment | nbytes) ->
  compute_aligned_tensor_size nbytes = nbytes.
Proof.
  intros (k & Hk & HA) Hn [q Hq].
  assert (HApos : 0 < gAlignment) by (subst gAlignment; apply Z.pow_pos_nonneg; lia).
  assert (Hdiv : (gAlignment | SizeT.modulus)).
  { exists (2 ^ (SizeT.bits - k)). unfold SizeT.modulus. subst gAlignment.
    rewrite <- Z.pow_add_r by lia. f_equal. lia. }
  destruct Hdiv as [c Hc]. unfold SizeT.in_range in Hn.
  assert (Hq0 : 0 <= q) by nia.
  assert (Hqc : q < c) by nia.
  assert (Hr : SizeT.in_range (nbytes + gAlignment - 1)).
  { unfold SizeT.in_range. nia. }
  rewrite (aligned_closed_form k nbytes Hk HA Hr).
  replace (nbytes + gAlignment - 1) with (q * gAlignment + (gAlignment - 1)) by lia.
  rewrite Z.div_add_l by lia. rewrite Z.div_small by lia. lia.
Qed.

(** C7: [compute_aligned_tensor_size n] is [(n + A - 1) & ~(A - 1)] in
    [size_t] arithmetic.  For a power-of-two [A], when [n + A - 1] does not
    overflow the result is the least multiple of [A] that is at least [n],
    and every [size_t] multiple of [A] is a fixed point. *)
Theorem compute_aligned_tensor_size_spec :
  alignment_ok ->
  (forall n,
     compute_aligned_tensor_size n
     = Z.land ((n + gAlignment - 1) mod 2 ^ 64) (Z.lnot (gAlignment - 1) mod 2 ^ 64))
  /\ (forall n, 0 <= n -> n + gAlignment - 1 < 2 ^ 64 ->
        (gAlignment | compute_aligned_tensor_size n)
        /\ n <= compute_aligned_tensor_size n
        /\ forall m, (gAlignment | m) -> n <= m -> compute_aligned_tensor_size n <= m)
  /\ (forall n, 0 <= n < 2 ^ 64 -> (gAlignment | n) -> compute_aligned_tensor_size n = n).
Proof.
  intros (k & Hk & HA).
  assert (HApos : 0 < gAlignment) by (subst gAlignment; apply Z.pow_pos_nonneg; lia).
  assert (HAlt : gAlignment < 2 ^ 64).
  { subst gAlignment. apply Z.pow_lt_mono_r; unfold SizeT.bits in *; lia. }
  assert (Hdiv : (gAlignment | 2 ^ 64)).
  { exists (2 ^ (64 - k)). subst gAlignment. rewrite <- Z.pow_add_r by (unfold SizeT.bits in *; lia).
    f_equal. lia. }
  split; [| split].
  - intros n. unfold compute_aligned_tensor_size. rewrite sum_wrap.
    unfold SizeT.and, SizeT.not, SizeT.sub, SizeT.wrap, SizeT.modulus, SizeT.bits.
    rewrite (Z.mod_small (gAlignment - 1)) by lia. reflexivity.
  - intros n Hn Hov.
    assert (Hr : SizeT.in_range (n + gAlignment - 1)).
    { unfold SizeT.in_range, SizeT.modulus, SizeT.bits. lia. }
    rewrite (aligned_closed_form k n Hk HA Hr).
    remember (n + gAlignment - 1) as x eqn:Hx.
    pose proof (Z.mod_pos_bound x gAlignment HApos) as Hmod.
    pose proof (Z.div_mod x gAlignment ltac:(lia)) as Hdm.
    split; [| split].
    + exists (x / gAlignment). ring.
    + lia.
    + intros m [q Hq] Hle. subst m.
      assert (x / gAlignment <= q); [| nia].
      assert (x / gAlignment < q + 1); [| lia].
      apply Z.div_lt_upper_bound; [lia |]. nia.
  - intros n Hn [q Hq].
    assert (Hq0 : 0 <= q) by nia.
    destruct Hdiv as [c Hc].
    assert (Hqc : q < c) by nia.
    assert (Hr : SizeT.in_range (n + gAlignment - 1)).
    { unfold SizeT.in_range, SizeT.modulus, SizeT.bits. nia. }
    rewrite (aligned_closed_form k n Hk HA Hr).
    replace (n + gAlignment - 1) with (q * gAlignment + (gAlignment - 1)) by lia.
    rewrite Z.div_add_l by lia. rewrite Z.div_small by lia. lia.
Qed.

(** X6: whatever the argument, the result is a [size_t] multiple of the
    alignment; and a size within [A - 1] of the top of the range is
    rounded, by the wrap-around of the sum, to zero. *)
Theorem compute_aligned_tensor_size_wraps :
  alignment_ok ->
  (forall n,
     SizeT.in_range (compute_aligned_tensor_size n)
     /\ (gAlignment | compute_aligned_tensor_size n))
  /\ (forall n, 2 ^ 64 - gAlignment < n < 2 ^ 64 -> compute_aligned_tensor_size n = 0).
Proof.
  intros HA. split; [intros n; by apply aligned_is_multiple |].
  destruct HA as (k & Hk & HA). intros n Hn.
  assert (HApos : 0 < gAlignment) by (subst gAlignment; apply Z.pow_pos_nonneg; lia).
  assert (HAlt : gAlignment < 2 ^ 64).
  { subst gAlignment. apply Z.pow_lt_mono_r; unfold SizeT.bits in *; lia. }
  unfold compute_aligned_tensor_size. rewrite sum_wrap.
  pose proof (SizeT.wrap_range (n + gAlignment - 1)) as Hr.
  rewrite (mask_rounds_down k _ Hk HA Hr).
  assert (Hw : SizeT.wrap (n + gAlignment - 1) = n + gAlignment - 1 - 2 ^ 64).
  { unfold SizeT.wrap, SizeT.modulus, SizeT.bits.
    symmetry. apply Z.mod_unique_pos with (q := 1); lia. }
  rewrite Hw. rewrite Z.div_small by lia. lia.
Qed.

End WithAlignment.

Lemma compute_aligned_tensor_size_witness :
  alignment_ok 64
  /\ (64 | compute_aligned_tensor_size 64 100)
  /\ 100 <= compute_aligned_tensor_size 64 100
  /\ compute_aligned_tensor_size 64 128 = 128.
Proof.
  assert (H : alignment_ok 64).
  { exists 6. split; [unfold SizeT.bits; lia | reflexivity]. }
  split; [exact H |].
  destruct (compute_aligned_tensor_size_spec 64 H) as (_ & Hround & Hfix).
  destruct (Hround 100 ltac:(lia) ltac:(lia)) as (Hd & Hle & _).
  split; [exact Hd | split; [exact Hle |]].
  apply Hfix; [lia | exists 2; reflexivity].
Defined.

Lemma compute_aligned_tensor_size_wraps_witness :
  alignment_ok 64
  /\ compute_aligned_tensor_size 64 (2 ^ 64 - 1) = 0.
Proof.
  assert (H : alignment_ok 64).
  { exists 6. split; [unfold SizeT.bits; lia | reflexivity]. }
  split; [exact H |].
  apply (proj2 (compute_aligned_tensor_size_wraps 64 H)). lia.
Defined.

End Align.

(** ** The graph *)

Module IR.

(** A [const Value*] or a [const Node*] is known by its identity alone. *)
Abbreviation Value := nat (only parsing).
Abbreviation NodeId := nat (only parsing).

Inductive NodeKind : Type :=
| prim_Constant
| OtherKind (symbol : nat).

Inductive TypeKind : Type :=
| TensorType
| ModuleType
| FunctionType
| OtherType.

#[global] Instance NodeKind_eq_dec : EqDecision NodeKind.
Proof. solve_decision. Defined.

#[global] Instance TypeKind_eq_dec : EqDecision TypeKind.
Proof. solve_decision. Defined.

Abbreviation StorageId := nat (only parsing).

(** A boxed value, as far as the runtime looks into it.  A tensor is known
    by the [StorageImpl] it holds; [IVTensor None] is an undefined tensor. *)
Inductive IValue : Type :=
| IVNone
| IVTensor (storage : option StorageId)
| IVTuple (elements : list IValue)
| IVOther (payload : nat).

Definition isNone (v : IValue) : bool :=
  match v with
  | IVNone => true
  | _ => false
  end.

Definition isTensor (v : IValue) : bool :=
  match v with
  | IVTensor _ => true
  | _ => false
  end.

Record FunctionSchema : Type := {
  arguments : list string;
  is_mutable : bool;
}.

Record Node : Type := {
  kind : NodeKind;
  inputs : list Value;
  outputs : list Value;
  maybeSchema : option FunctionSchema;
  (** [node->blocks().size()] *)
  blocks : nat;
  (** [node->maybeOperator() != nullptr] *)
  has_operator : bool;
  (** [toIValue(v)] of the output of a constant node *)
  constant_ivalue : option IValue;
}.

Record Graph : Type := {
  graph_inputs : list Value;
  graph_outputs : list Value;
  nodes : list Node;
  value_type : Value -> TypeKind;
}.

(** The node reads or produces the value. *)
Definition touches (n : Node) (v : Value) : Prop := v ∈ inputs n ∨ v ∈ outputs n.

Definition is_constant (n : Node) : bool :=
  match kind n with
  | prim_Constant => true
  | OtherKind _ => false
  end.

(** The nodes of the block in order, each with its identity. *)
Definition numbered_nodes (g : Graph) : list (NodeId * Node) :=
  zip (seq 0 (length (nodes g))) (nodes g).

(** The block's return node reads the graph outputs; it is not one of
    [graph->nodes()]. *)
Definition return_node (g : Graph) : NodeId := length (nodes g).

Definition occurrences (v : Value) (vs : list Value) : list Value :=
  filter (fun w => w = v) vs.

(** [v->uses()]: one use per occurrence of [v] among the inputs of a node,
    the return node included; [u.user] is all that is read of a use. *)
Definition uses (g : Graph) (v : Value) : list NodeId :=
  concat (map (fun '(i, n) => map (fun _ => i) (occurrences v (inputs n))) (numbered_nodes g))
  ++ map (fun _ => return_node g) (occurrences v (graph_outputs g)).

(** The alias database of [torch/csrc/jit/ir/alias_analysis.h]. *)
Record AliasDb : Type := {
  mayAlias : Value -> Value -> bool;
  mayContainAlias : Value -> Value -> bool;
  mayContainAliasSets : list Value -> list Value -> bool;
}.

(** [for (v : vs) s.insert(v)] *)
Definition insert_all (vs : list Value) (s : gset Value) : gset Value :=
  foldl (fun acc v => {[v]} ∪ acc) s vs.

End IR.

(** ** Always-alive values, liveness, candidates and the same-storage map *)

Module Analysis.

Import IR.

Section WithGraph.

Variable graph : Graph.
Variable db : AliasDb.

(** *** [GetAlwaysAliveValues] *)

(** First three loops: inputs, outputs and the outputs of constants. *)
Definition mark_constant_outputs (s : gset Value) (n : Node) : gset Value :=
  if is_constant n then insert_all (outputs n) s else s.

Definition seeded_always_alive : gset Value :=
  foldl mark_constant_outputs
    (insert_all (graph_outputs graph) (insert_all (graph_inputs graph) ∅))
    (nodes graph).

(** [mayContainAlias(db, ValueSet{v}, always_alive)] copies both sets into
    vectors and asks the database. *)
Definition insert_if_alias (s : gset Value) (v : Value) : gset Value :=
  if mayContainAliasSets db [v] (elements s) then {[v]} ∪ s else s.

Definition insert_aliases_of_node (s : gset Value) (n : Node) : gset Value :=
  if is_constant n then s else foldl insert_if_alias s (outputs n).

Definition GetAlwaysAliveValues : gset Value :=
  foldl insert_aliases_of_node seeded_always_alive (nodes graph).

(** The database answers a query on sets at least as generously on a
    larger second set. *)
Definition sets_query_monotone : Prop :=
  ∀ (a l l' : list Value),
    (∀ x, x ∈ l → x ∈ l') →
    mayContainAliasSets db a l = true → mayContainAliasSets db a l' = true.

(** *** [GetMemoryPlanningCandidates] *)

(** The kernel library's [canReuseInputsOutputs]. *)
Variable canReuseInputsOutputs : Node -> bool.

Record Candidates : Type := {
  seen_values : gset Value;
  all_values : list Value;
  can_reuse : gset Value;
  cannot_reuse : gset Value;
}.

Definition classify (ok : bool) (v : Value) (c : Candidates) : Candidates :=
  if ok
  then {| seen_values := seen_values c; all_values := all_values c;
          can_reuse := {[v]} ∪ can_reuse c; cannot_reuse := cannot_reuse c |}
  else {| seen_values := seen_values c; all_values := all_values c;
          can_reuse := can_reuse c; cannot_reuse := {[v]} ∪ cannot_reuse c |}.

Definition record_value (v : Value) (c : Candidates) : Candidates :=
  {| seen_values := {[v]} ∪ seen_values c; all_values := all_values c ++ [v];
     can_reuse := can_reuse c; cannot_reuse := cannot_reuse c |}.

Definition visit_input (ok : bool) (c : Candidates) (v : Value) : Candidates :=
  classify ok v (if decide (v ∈ seen_values c) then c else record_value v c).

Definition visit_output (ok : bool) (c : Candidates) (v : Value) : Candidates :=
  classify ok v (record_value v c).

Definition visit_node (c : Candidates) (n : Node) : Candidates :=
  let ok := canReuseInputsOutputs n in
  foldl (visit_output ok) (foldl (visit_input ok) c (inputs n)) (outputs n).

Definition scan_nodes : Candidates :=
  foldl visit_node
    {| seen_values := ∅; all_values := []; can_reuse := ∅; cannot_reuse := ∅ |}
    (nodes graph).

(** [for (v : cannot_reuse) can_reuse.erase(v)] *)
Definition erase_all (vs : list Value) (s : gset Value) : gset Value :=
  foldl (fun acc v => acc ∖ {[v]}) s vs.

(** The last loop: keep the first occurrence of each reusable value. *)
Definition pick_optimizable (acc : list Value * gset Value) (v : Value)
  : list Value * gset Value :=
  if decide (v ∈ acc.2) then (acc.1 ++ [v], acc.2 ∖ {[v]}) else acc.

Definition GetMemoryPlanningCandidates : list Value * list Value :=
  let c := scan_nodes in
  let reusable := erase_all (elements (cannot_reuse c)) (can_reuse c) in
  ((foldl pick_optimizable ([], reusable) (all_values c)).1, all_values c).

(** *** [GetLivenessMap] *)

Record LiveState : Type := {
  liveness_map : gmap Value (gset Value);
  live_values_use_chain : gmap Value (gset NodeId);
  live_nodes_def_chain : gmap NodeId (gset Value);
}.

Definition set_liveness_map (lm : gmap Value (gset Value)) (st : LiveState) : LiveState :=
  {| liveness_map := lm;
     live_values_use_chain := live_values_use_chain st;
     live_nodes_def_chain := live_nodes_def_chain st |}.

Definition set_use_chain (uc : gmap Value (gset NodeId)) (st : LiveState) : LiveState :=
  {| liveness_map := liveness_map st;
     live_values_use_chain := uc;
     live_nodes_def_chain := live_nodes_def_chain st |}.

(** Every output of every node, in program order. *)
Definition values_in_creation_order : list Value :=
  concat (map outputs (nodes graph)).

(** [values_to_idx_in_creation_order[v] = values_in_creation_order.size()]
    before each [emplace_back]: a later occurrence overwrites an earlier. *)
Definition values_to_idx_in_creation_order : gmap Value nat :=
  (foldl (fun acc v => (<[v := length acc.2]> acc.1, acc.2 ++ [v]))
         (∅, []) values_in_creation_order).1.

(** [liveness_map.at(a).insert(b)] *)
Definition insert_live (a b : Value) (lm : gmap Value (gset Value))
  : result (gmap Value (gset Value)) :=
  s ← at_key lm a; Ok (<[a := {[b]} ∪ s]> lm).

(** Body of the loop over [live_values_use_chain] in [add_live_value_fn]. *)
Definition mark_overlap (v : Value) (st : LiveState) (live_v : Value) : result LiveState :=
  lm1 ← insert_live v live_v (liveness_map st);
  lm2 ← insert_live live_v v lm1;
  Ok (set_liveness_map lm2 st).

(** [live_values_use_chain.at(v).insert(node);
     live_nodes_def_chain[node].insert(v);] *)
Definition record_use (v : Value) (st : LiveState) (node : NodeId) : result LiveState :=
  users ← at_key (live_values_use_chain st) v;
  Ok {| liveness_map := liveness_map st;
        live_values_use_chain := <[v := {[node]} ∪ users]> (live_values_use_chain st);
        live_nodes_def_chain :=
          <[node := {[v]} ∪ default ∅ (live_nodes_def_chain st !! node)]>
            (live_nodes_def_chain st) |}.

(** Aliases of [v] among the values created at or after [v]. *)
Definition refined_aliases (v : Value) : list Value :=
  let idx := default 0 (values_to_idx_in_creation_order !! v) in
  filter (fun alias_v => mayContainAlias db v alias_v = true)
         (drop idx values_in_creation_order).

(** The recursive lambda [add_live_value_fn].  A call that does not return
    at once adds a new key to [liveness_map], which bounds the depth of
    the recursion; [fuel] counts the calls still allowed on the stack. *)
Fixpoint add_live_value_fn (fuel : nat) (v : Value) (st : LiveState) : result LiveState :=
  match fuel with
  | O => OutOfFuel
  | S fuel' =>
      if decide (v ∈ dom (liveness_map st)) then Ok st
      else
        let st := set_liveness_map (<[v := ∅]> (liveness_map st)) st in
        st ← for_each (mark_overlap v) (elements (dom (live_values_use_chain st))) st;
        let st :=
          match uses graph v with
          | [] => st
          | _ :: _ => set_use_chain (<[v := ∅]> (live_values_use_chain st)) st
          end in
        st ← for_each (record_use v) (uses graph v) st;
        for_each
          (fun st aliased_v =>
             st ← add_live_value_fn fuel' aliased_v st;
             for_each (record_use v) (uses graph aliased_v) st)
          (refined_aliases v) st
  end.

(** Body of the loop of [traverse_node_fn]. *)
Definition retire_use (node : NodeId) (acc : LiveState * list Value) (v : Value)
  : result (LiveState * list Value) :=
  users ← at_key (live_values_use_chain acc.1) v;
  let users' := users ∖ {[node]} in
  Ok (set_use_chain (<[v := users']> (live_values_use_chain acc.1)) acc.1,
      if decide (size users' = 0) then acc.2 ++ [v] else acc.2).

Definition traverse_node_fn (node : NodeId) (st : LiveState)
  : result (LiveState * list Value) :=
  match live_nodes_def_chain st !! node with
  | Some vs => for_each (retire_use node) (elements vs) (st, [])
  | None => Ok (st, [])
  end.

Definition erase_dead (dead : list Value) (st : LiveState) : LiveState :=
  set_use_chain (foldl (fun uc d => delete d uc) (live_values_use_chain st) dead) st.

Definition liveness_fuel : nat := S (length values_in_creation_order).

Section WithAlwaysAlive.

Variable always_alive : gset Value.

Definition activate_output (st : LiveState) (v : Value) : result LiveState :=
  if decide (v ∈ always_alive) then Ok st else add_live_value_fn liveness_fuel v st.

(** Body of the main loop over the nodes. *)
Definition scan_node (st : LiveState) (n : NodeId * Node) : result LiveState :=
  st ← for_each activate_output (outputs n.2) st;
  r ← traverse_node_fn n.1 st;
  Ok (erase_dead r.2 r.1).

(** [TORCH_CHECK(always_alive.count(v.first))] for what is still live. *)
Definition check_still_live (v : Value) : result unit :=
  torch_check (bool_decide (v ∈ always_alive)) CheckFailed.

(** The closing loops: an input and an output of one node overlap. *)
Definition link_in_out (lm : gmap Value (gset Value)) (io : Value * Value)
  : gmap Value (gset Value) :=
  let '(input, output) := io in
  if decide (input ∈ dom lm ∧ output ∈ dom lm)
  then alter (fun s => {[input]} ∪ s) output (alter (fun s => {[output]} ∪ s) input lm)
  else lm.

Definition in_out_pairs (n : Node) : list (Value * Value) :=
  input ← inputs n; output ← outputs n; [(input, output)].

Definition GetLivenessMap : result (gmap Value (gset Value)) :=
  st ← for_each scan_node (numbered_nodes graph)
       {| liveness_map := ∅; live_values_use_chain := ∅; live_nodes_def_chain := ∅ |};
  _ ← for_each (fun _ v => check_still_live v)
        (elements (dom (live_values_use_chain st))) tt;
  Ok (foldl link_in_out (liveness_map st) (concat (map in_out_pairs (nodes graph)))).

End WithAlwaysAlive.

End WithGraph.

(** *** [GenerateSameStorageValues] *)

Section SameStorage.

Variable alive_during : gmap Value (gset Value).
Variable always_alive : gset Value.
Variable db : AliasDb.

(** One of the two copying loops of [share_storage_fn]. *)
Definition append_unseen (acc : gset Value * list Value) (v : Value)
  : gset Value * list Value :=
  if decide (v ∈ acc.1) then acc else ({[v]} ∪ acc.1, acc.2 ++ [v]).

Definition merged_values (old_c new_c : list Value) : list Value :=
  (foldl append_unseen (foldl append_unseen (∅, []) old_c) new_c).2.

(** [for (v : values) same_storage_values[v] = values] *)
Definition assign_all (values : list Value) (ssv : gmap Value (list Value))
  : gmap Value (list Value) :=
  foldl (fun m v => <[v := values]> m) ssv values.

Definition share_storage_fn (ssv : gmap Value (list Value)) (new_v old_v : Value)
  : result (gmap Value (list Value)) :=
  if decide (new_v = old_v) then Ok ssv
  else
    old_c ← at_key ssv old_v;
    new_c ← at_key ssv new_v;
    Ok (assign_all (merged_values old_c new_c) ssv).

(** Body of the loop over the map in the initialisation. *)
Definition share_if_alias (v : Value) (ssv : gmap Value (list Value)) (p : Value)
  : result (gmap Value (list Value)) :=
  if mayAlias db p v then share_storage_fn ssv v p else Ok ssv.

(** Body of the initialisation loop over [all_values].  The inner loop
    visits the keys of the map; [share_storage_fn] assigns to keys that
    are already there, so the keys do not change under the iteration. *)
Definition init_value (ssv : gmap Value (list Value)) (v : Value)
  : result (gmap Value (list Value)) :=
  let ssv := if decide (v ∈ dom ssv) then ssv else <[v := [v]]> ssv in
  if decide (v ∈ always_alive) then Ok ssv
  else for_each (share_if_alias v) (elements (dom ssv)) ssv.

Definition live_of (sv : Value) : gset Value := default ∅ (alive_during !! sv).

Definition compute_liveset_fn (ssv : gmap Value (list Value)) (v : Value)
  : result (gset Value) :=
  c ← at_key ssv v;
  Ok (foldl (fun live sv => live_of sv ∪ live) ∅ c ∪ always_alive).

Definition intersect_fn (ssv : gmap Value (list Value)) (live : gset Value) (s : Value)
  : result bool :=
  c ← at_key ssv s;
  Ok (existsb (fun v => bool_decide (v ∈ live)) c).

(** The loop over [seen], left at the first value whose cluster is free. *)
Fixpoint share_with_first_free (ssv : gmap Value (list Value)) (live : gset Value)
  (v : Value) (seen : list Value) : result (gmap Value (list Value)) :=
  match seen with
  | [] => Ok ssv
  | s :: rest =>
      b ← intersect_fn ssv live s;
      if b : bool then share_with_first_free ssv live v rest
      else share_storage_fn ssv v s
  end.

(** Body of the loop over [optimizable_values]. *)
Definition reuse_value (acc : gmap Value (list Value) * list Value) (v : Value)
  : result (gmap Value (list Value) * list Value) :=
  if decide (v ∈ always_alive) then Ok acc
  else
    live ← compute_liveset_fn acc.1 v;
    ssv ← share_with_first_free acc.1 live v acc.2;
    Ok (ssv, acc.2 ++ [v]).

Definition initial_same_storage (all_values : list Value)
  : result (gmap Value (list Value)) :=
  for_each init_value all_values ∅.

Definition GenerateSameStorageValues (optimizable : list Value * list Value)
  : result (gmap Value (list Value)) :=
  ssv ← initial_same_storage optimizable.2;
  r ← for_each reuse_value optimizable.1 (ssv, []);
  Ok r.1.

End SameStorage.

(** *** Predicates the facts below are stated with *)

(** Every cluster holds its key and is the cluster of each of its members. *)
Definition cluster_ok (ssv : gmap nat (list nat)) : Prop :=
  ∀ k c, ssv !! k = Some c → k ∈ c ∧ ∀ x, x ∈ c → ssv !! x = Some c.

(** Every member of a cluster stands in [R] to the cluster's key. *)
Definition related (R : nat → nat → Prop) (ssv : gmap nat (list nat)) : Prop :=
  ∀ k c x, ssv !! k = Some c → x ∈ c → R k x.

(** [v] is recorded as live together with [u]. *)
Definition edge (lm : gmap nat (gset nat)) (u v : nat) : Prop :=
  ∃ s, lm !! u = Some s ∧ v ∈ s.

Definition lm_symmetric (lm : gmap nat (gset nat)) : Prop :=
  ∀ u v, edge lm u v → edge lm v u.

(** What the scan keeps true of its state: the map is symmetric and every
    value on a use chain has an entry in it. *)
Definition live_ok (st : LiveState) : Prop :=
  lm_symmetric (liveness_map st)
  ∧ dom (live_values_use_chain st) ⊆ dom (liveness_map st).

(** The invariant of the loops inside one call of [add_live_value_fn]. *)
Definition live_ok_above (d : gset nat) (st : LiveState) : Prop :=
  live_ok st ∧ d ⊆ dom (liveness_map st).

Section Relations.

Variable alive_during : gmap Value (gset Value).
Variable db : AliasDb.

(** Linked by a chain of values, each of which may alias the next in one
    direction or the other. *)
Definition alias_chain : relation nat := rtsc (fun a b => (mayAlias db a b = true)).

(** The liveness map has no edge between the two values. *)
Definition no_edge (x y : nat) : Prop :=
  (y ∉ live_of alive_during x) ∧ (x ∉ live_of alive_during y).

Definition free_or_chained (x y : nat) : Prop := no_edge x y ∨ alias_chain x y.

Definition live_symmetric : Prop :=
  ∀ x y, y ∈ live_of alive_during x → x ∈ live_of alive_during y.

End Relations.

(** *** Facts about [GetAlwaysAliveValues] *)

Lemma elem_of_insert_all (vs : list nat) (s : gset nat) x :
  x ∈ insert_all vs s ↔ x ∈ vs ∨ x ∈ s.
Proof.
  unfold insert_all. revert s. induction vs as [| v vs IH]; intros s; simpl.
  - set_solver.
  - rewrite IH. set_solver.
Qed.

Section AlwaysAliveFacts.

Variable graph : Graph.
Variable db : AliasDb.

Lemma mark_constant_outputs_fold (ns : list Node) (s : gset nat) x :
  x ∈ foldl mark_constant_outputs s ns
  ↔ x ∈ s ∨ ∃ n, n ∈ ns ∧ is_constant n = true ∧ x ∈ outputs n.
Proof.
  revert s. induction ns as [| n ns IH]; intros s; simpl.
  - set_solver.
  - rewrite IH. unfold mark_constant_outputs.
    destruct (is_constant n) eqn:Hc.
    + rewrite elem_of_insert_all. split.
      * intros [[H | H] | (m & Hm & Hk & Hx)]; [right; exists n | by left | right; exists m];
          set_solver.
      * intros [H | (m & Hm & Hk & Hx)]; [set_solver |].
        apply elem_of_cons in Hm as [-> | Hm]; [set_solver |].
        right. eauto.
    + split.
      * intros [H | (m & Hm & Hk & Hx)]; [by left | right; exists m; set_solver].
      * intros [H | (m & Hm & Hk & Hx)]; [by left |].
        apply elem_of_cons in Hm as [-> | Hm]; [congruence |].
        right. eauto.
Qed.

Lemma elem_of_seeded_always_alive x :
  x ∈ seeded_always_alive graph
  ↔ x ∈ graph_inputs graph ∨ x ∈ graph_outputs graph
    ∨ ∃ n, n ∈ nodes graph ∧ is_constant n = true ∧ x ∈ outputs n.
Proof.
  unfold seeded_always_alive.
  rewrite mark_constant_outputs_fold, !elem_of_insert_all. set_solver.
Qed.

Lemma insert_if_alias_subseteq (s : gset nat) v : s ⊆ insert_if_alias db s v.
Proof. unfold insert_if_alias. destruct (mayContainAliasSets _ _ _); set_solver. Qed.

Lemma insert_if_alias_fold_subseteq (vs : list nat) (s : gset nat) :
  s ⊆ foldl (insert_if_alias db) s vs.
Proof.
  revert s. induction vs as [| v vs IH]; intros s; simpl; [done |].
  etrans; [apply (insert_if_alias_subseteq s v) | apply IH].
Qed.

Lemma insert_aliases_of_node_subseteq (s : gset nat) n :
  s ⊆ insert_aliases_of_node db s n.
Proof.
  unfold insert_aliases_of_node. destruct (is_constant n); [done |].
  apply insert_if_alias_fold_subseteq.
Qed.

Lemma insert_aliases_fold_subseteq (ns : list Node) (s : gset nat) :
  s ⊆ foldl (insert_aliases_of_node db) s ns.
Proof.
  revert s. induction ns as [| n ns IH]; intros s; simpl; [done |].
  etrans; [apply (insert_aliases_of_node_subseteq s n) | apply IH].
Qed.

Lemma alias_output_inserted (s0 s : gset nat) (vs : list nat) v :
  sets_query_monotone db → s0 ⊆ s → v ∈ vs →
  mayContainAliasSets db [v] (elements s0) = true →
  v ∈ foldl (insert_if_alias db) s vs.
Proof.
  intros Hmono Hsub Hv Hq. revert s Hsub.
  induction vs as [| w vs IH]; intros s Hsub; [by apply elem_of_nil in Hv |].
  simpl. apply elem_of_cons in Hv as [<- | Hv].
  - apply insert_if_alias_fold_subseteq. unfold insert_if_alias.
    rewrite (Hmono [v] (elements s0) (elements s)); [set_solver | | exact Hq].
    intros x. rewrite !elem_of_elements. set_solver.
  - apply IH; [exact Hv |]. etrans; [exact Hsub | apply insert_if_alias_subseteq].
Qed.

Lemma alias_node_inserted (s0 s : gset nat) (ns : list Node) n v :
  sets_query_monotone db → s0 ⊆ s → n ∈ ns → is_constant n = false → v ∈ outputs n →
  mayContainAliasSets db [v] (elements s0) = true →
  v ∈ foldl (insert_aliases_of_node db) s ns.
Proof.
  intros Hmono Hsub Hn Hk Hv Hq. revert s Hsub.
  induction ns as [| m ns IH]; intros s Hsub; [by apply elem_of_nil in Hn |].
  simpl. apply elem_of_cons in Hn as [<- | Hn].
  - apply insert_aliases_fold_subseteq. unfold insert_aliases_of_node. rewrite Hk.
    by apply (alias_output_inserted s0).
  - apply IH; [exact Hn |]. etrans; [exact Hsub | apply insert_aliases_of_node_subseteq].
Qed.

(** C5: every graph input, graph output and output of a [prim::Constant]
    node is in the set returned by [GetAlwaysAliveValues]; and, for an alias
    database whose set query is monotone, so is every output of a
    non-constant node that may contain an alias of the seeded set. *)
Theorem GetAlwaysAliveValues_seeds_and_aliases :
  (∀ v,
     v ∈ graph_inputs graph ∨ v ∈ graph_outputs graph
     ∨ (∃ n, n ∈ nodes graph ∧ kind n = prim_Constant ∧ v ∈ outputs n) →
     v ∈ GetAlwaysAliveValues graph db)
  ∧ (sets_query_monotone db →
     ∀ n v,
       n ∈ nodes graph → kind n ≠ prim_Constant → v ∈ outputs n →
       mayContainAliasSets db [v] (elements (seeded_always_alive graph)) = true →
       v ∈ GetAlwaysAliveValues graph db).
Proof.
  split.
  - intros v Hv. unfold GetAlwaysAliveValues.
    apply insert_aliases_fold_subseteq, elem_of_seeded_always_alive.
    destruct Hv as [H | [H | (n & Hn & Hk & Hx)]]; [by left | by right; left |].
    right; right. exists n. unfold is_constant. by rewrite Hk.
  - intros Hmono n v Hn Hk Hv Hq. unfold GetAlwaysAliveValues.
    apply (alias_node_inserted (seeded_always_alive graph) _ _ n); try done.
    unfold is_constant. by destruct (kind n).
Qed.

End AlwaysAliveFacts.

(** *** The reuse loop passes over always-alive values *)

Section ReuseLoopFacts.

Variable alive_during : gmap nat (gset nat).
Variable always_alive : gset nat.

Lemma reuse_loop_skips_always_alive (vs : list nat) acc :
  for_each (reuse_value alive_during always_alive) vs acc
  = for_each (reuse_value alive_during always_alive)
      (filter (fun v => v ∉ always_alive) vs) acc.
Proof.
  revert acc. induction vs as [| v vs IH]; intros acc; [done |].
  rewrite filter_cons. destruct (decide (v ∉ always_alive)) as [Hv | Hv]; simpl.
  - destruct (reuse_value alive_during always_alive acc v); simpl; [apply IH | done | done].
  - assert (Hskip : reuse_value alive_during always_alive acc v = Ok acc).
    { unfold reuse_value. destruct (decide (v ∈ always_alive)); [done | tauto]. }
    rewrite Hskip. simpl. apply IH.
Qed.

End ReuseLoopFacts.

(** *** Facts about [GetMemoryPlanningCandidates] *)

Section CandidateFacts.

Variable graph : Graph.
Variable canReuseInputsOutputs : Node -> bool.

Definition seen_is_all (c : Candidates) : Prop :=
  ∀ x, x ∈ seen_values c ↔ x ∈ all_values c.

Lemma classify_fields ok v c :
  seen_values (classify ok v c) = seen_values c
  ∧ all_values (classify ok v c) = all_values c
  ∧ can_reuse (classify ok v c) = (if ok then {[v]} ∪ can_reuse c else can_reuse c)
  ∧ cannot_reuse (classify ok v c) = (if ok then cannot_reuse c else {[v]} ∪ cannot_reuse c).
Proof. by destruct ok. Qed.

(** One visit, of an input or of an output. *)
Definition visit (as_output ok : bool) (c : Candidates) (v : nat) : Candidates :=
  if as_output then visit_output ok c v else visit_input ok c v.

Lemma visit_effect as_output ok c v :
  seen_is_all c →
  let c' := visit as_output ok c v in
  seen_is_all c'
  ∧ (∀ x, x ∈ all_values c' ↔ x ∈ all_values c ∨ x = v)
  ∧ (∀ x, x ∈ can_reuse c' ↔ x ∈ can_reuse c ∨ (x = v ∧ ok = true))
  ∧ (∀ x, x ∈ cannot_reuse c' ↔ x ∈ cannot_reuse c ∨ (x = v ∧ ok = false)).
Proof.
  intros Hinv. simpl.
  assert (Hrec : ∀ d, d = record_value v c →
     seen_is_all d ∧ (∀ x, x ∈ all_values d ↔ x ∈ all_values c ∨ x = v)
     ∧ can_reuse d = can_reuse c ∧ cannot_reuse d = cannot_reuse c).
  { intros d ->. unfold seen_is_all, record_value. simpl. repeat split; try done.
    - rewrite elem_of_union, elem_of_singleton, elem_of_app, list_elem_of_singleton.
      intros [-> | H]; [by right | left; by apply Hinv].
    - rewrite elem_of_union, elem_of_singleton, elem_of_app, list_elem_of_singleton.
      intros [H | ->]; [right; by apply Hinv | by left].
    - rewrite elem_of_app, list_elem_of_singleton. tauto.
    - rewrite elem_of_app, list_elem_of_singleton. tauto. }
  assert (Hmid : ∃ d,
     visit as_output ok c v = classify ok v d
     ∧ seen_is_all d ∧ (∀ x, x ∈ all_values d ↔ x ∈ all_values c ∨ x = v)
     ∧ can_reuse d = can_reuse c ∧ cannot_reuse d = cannot_reuse c).
  { destruct as_output; simpl.
    - exists (record_value v c). split; [done |]. by apply Hrec.
    - unfold visit_input. destruct (decide (v ∈ seen_values c)) as [Hin | Hin].
      + exists c. split; [done |]. split; [done |]. split; [| done].
        intros x. split; [tauto |]. intros [H | ->]; [done | by apply Hinv].
      + exists (record_value v c). split; [done |]. by apply Hrec. }
  destruct Hmid as (d & -> & Hd & Hall & Hcan & Hcannot).
  destruct (classify_fields ok v d) as (Hs & Ha & Hc & Hn).
  unfold seen_is_all. rewrite Hs, Ha, Hc, Hn, Hcan, Hcannot.
  split; [exact Hd |]. split; [exact Hall |].
  destruct ok; split; intros x; rewrite ?elem_of_union, ?elem_of_singleton;
    intuition congruence.
Qed.

Lemma visits_effect as_output ok vs c :
  seen_is_all c →
  let c' := foldl (visit as_output ok) c vs in
  seen_is_all c'
  ∧ (∀ x, x ∈ all_values c' ↔ x ∈ all_values c ∨ x ∈ vs)
  ∧ (∀ x, x ∈ can_reuse c' ↔ x ∈ can_reuse c ∨ (x ∈ vs ∧ ok = true))
  ∧ (∀ x, x ∈ cannot_reuse c' ↔ x ∈ cannot_reuse c ∨ (x ∈ vs ∧ ok = false)).
Proof.
  revert c. induction vs as [| v vs IH]; intros c Hinv; simpl.
  - split; [done |]. repeat split; try tauto; intros [H | H]; try done;
      try (by apply elem_of_nil in H); destruct H as [H _]; by apply elem_of_nil in H.
  - destruct (visit_effect as_output ok c v Hinv) as (Hinv1 & Ha1 & Hc1 & Hn1).
    destruct (IH _ Hinv1) as (Hinv2 & Ha2 & Hc2 & Hn2).
    split; [exact Hinv2 |].
    split; [| split]; intros x;
      rewrite ?Ha2, ?Hc2, ?Hn2, ?Ha1, ?Hc1, ?Hn1, elem_of_cons; tauto.
Qed.

Lemma visit_node_effect c n :
  seen_is_all c →
  let c' := visit_node canReuseInputsOutputs c n in
  seen_is_all c'
  ∧ (∀ x, x ∈ all_values c' ↔ x ∈ all_values c ∨ touches n x)
  ∧ (∀ x, x ∈ can_reuse c'
          ↔ x ∈ can_reuse c ∨ (touches n x ∧ canReuseInputsOutputs n = true))
  ∧ (∀ x, x ∈ cannot_reuse c'
          ↔ x ∈ cannot_reuse c ∨ (touches n x ∧ canReuseInputsOutputs n = false)).
Proof.
  intros Hinv. simpl. unfold visit_node, touches.
  destruct (visits_effect false (canReuseInputsOutputs n) (inputs n) c Hinv)
    as (Hinv1 & Ha1 & Hc1 & Hn1).
  destruct (visits_effect true (canReuseInputsOutputs n) (outputs n) _ Hinv1)
    as (Hinv2 & Ha2 & Hc2 & Hn2).
  simpl in *. change (visit false (canReuseInputsOutputs n)) with
    (visit_input (canReuseInputsOutputs n)) in *.
  change (visit true (canReuseInputsOutputs n)) with
    (visit_output (canReuseInputsOutputs n)) in *.
  split; [exact Hinv2 |].
  split; [| split]; intros x; rewrite ?Ha2, ?Hc2, ?Hn2, ?Ha1, ?Hc1, ?Hn1; tauto.
Qed.

Lemma visit_nodes_effect ns c :
  seen_is_all c →
  let c' := foldl (visit_node canReuseInputsOutputs) c ns in
  seen_is_all c'
  ∧ (∀ x, x ∈ all_values c' ↔ x ∈ all_values c ∨ ∃ n, n ∈ ns ∧ touches n x)
  ∧ (∀ x, x ∈ can_reuse c'
          ↔ x ∈ can_reuse c
            ∨ ∃ n, n ∈ ns ∧ touches n x ∧ canReuseInputsOutputs n = true)
  ∧ (∀ x, x ∈ cannot_reuse c'
          ↔ x ∈ cannot_reuse c
            ∨ ∃ n, n ∈ ns ∧ touches n x ∧ canReuseInputsOutputs n = false).
Proof.
  revert c. induction ns as [| n ns IH]; intros c Hinv; simpl.
  - split; [done |]. repeat split; try tauto; intros [H | (n & Hn & _)]; try done;
      by apply elem_of_nil in Hn.
  - destruct (visit_node_effect c n Hinv) as (Hinv1 & Ha1 & Hc1 & Hn1).
    destruct (IH _ Hinv1) as (Hinv2 & Ha2 & Hc2 & Hn2).
    split; [exact Hinv2 |].
    split; [| split]; intros x; rewrite ?Ha2, ?Hc2, ?Hn2, ?Ha1, ?Hc1, ?Hn1; split.
    + intros [[H | H] | (m & Hm & Ht)]; [by left | right; exists n | right; exists m];
        (split; [| done]); [left | by right].
    + intros [H | (m & Hm & Ht)]; [by left; left |].
      apply elem_of_cons in Hm as [-> | Hm]; [by left; right | right; eauto].
    + intros [[H | H] | (m & Hm & Ht)]; [by left | right; exists n | right; exists m];
        (split; [| done]); [left | by right].
    + intros [H | (m & Hm & Ht)]; [by left; left |].
      apply elem_of_cons in Hm as [-> | Hm]; [by left; right | right; eauto].
    + intros [[H | H] | (m & Hm & Ht)]; [by left | right; exists n | right; exists m];
        (split; [| done]); [left | by right].
    + intros [H | (m & Hm & Ht)]; [by left; left |].
      apply elem_of_cons in Hm as [-> | Hm]; [by left; right | right; eauto].
Qed.
Lemma scan_nodes_effect :
  let c := scan_nodes graph canReuseInputsOutputs in
  (∀ x, x ∈ all_values c ↔ ∃ n, n ∈ nodes graph ∧ touches n x)
  ∧ (∀ x, x ∈ can_reuse c
          ↔ ∃ n, n ∈ nodes graph ∧ touches n x ∧ canReuseInputsOutputs n = true)
  ∧ (∀ x, x ∈ cannot_reuse c
          ↔ ∃ n, n ∈ nodes graph ∧ touches n x ∧ canReuseInputsOutputs n = false).
Proof.
  simpl. unfold scan_nodes.
  match goal with |- context [foldl _ ?c0 _] =>
    destruct (visit_nodes_effect (nodes graph) c0)
      as (_ & Ha & Hc & Hn)
  end.
  { intros x. simpl. rewrite elem_of_nil. set_solver. }
  simpl in *.
  split; [| split]; intros x; rewrite ?Ha, ?Hc, ?Hn; split;
    try (intros [H | H]; [| exact H]); try (intros H; by right).
  - by apply elem_of_nil in H.
  - by apply not_elem_of_empty in H.
  - by apply not_elem_of_empty in H.
Qed.

Lemma elem_of_erase_all (vs : list nat) (s : gset nat) x :
  x ∈ erase_all vs s ↔ x ∈ s ∧ x ∉ vs.
Proof.
  unfold erase_all. revert s. induction vs as [| v vs IH]; intros s; simpl.
  - rewrite elem_of_nil. tauto.
  - rewrite IH, elem_of_difference, elem_of_singleton, elem_of_cons. tauto.
Qed.

Lemma elem_of_pick_optimizable (vs acc : list nat) (r : gset nat) x :
  x ∈ (foldl pick_optimizable (acc, r) vs).1 ↔ x ∈ acc ∨ (x ∈ vs ∧ x ∈ r).
Proof.
  revert acc r. induction vs as [| v vs IH]; intros acc r; simpl.
  - rewrite elem_of_nil. tauto.
  - unfold pick_optimizable at 2. simpl.
    destruct (decide (v ∈ r)) as [Hv | Hv]; rewrite IH.
    + rewrite elem_of_app, list_elem_of_singleton, elem_of_cons,
        elem_of_difference, elem_of_singleton.
      destruct (decide (x = v)) as [-> | Hne]; tauto.
    + rewrite elem_of_cons. split; [tauto |].
      intros [H | [[-> | H] Hr]]; tauto.
Qed.

(** The candidates are listed once each. *)
Lemma pick_optimizable_NoDup (vs acc : list nat) (r : gset nat) :
  NoDup acc → (∀ x, x ∈ acc → x ∉ r) →
  NoDup (foldl pick_optimizable (acc, r) vs).1.
Proof.
  revert acc r. induction vs as [| v vs IH]; intros acc r Hnd Hdisj; simpl; [done |].
  unfold pick_optimizable at 2. simpl.
  destruct (decide (v ∈ r)) as [Hv | Hv]; apply IH; try done.
  - apply NoDup_app. split; [done |]. split; [| apply NoDup_singleton].
    intros x Hx ->%list_elem_of_singleton. by apply (Hdisj v).
  - intros x. rewrite elem_of_app, list_elem_of_singleton, elem_of_difference,
      elem_of_singleton. intros [Hx | ->]; [| tauto]. intros [Hr _]. by apply (Hdisj x).
Qed.

Lemma reuse_candidate_iff v :
  v ∈ (GetMemoryPlanningCandidates graph canReuseInputsOutputs).1
  ↔ (∃ n, n ∈ nodes graph ∧ touches n v)
    ∧ (∀ n, n ∈ nodes graph → touches n v → canReuseInputsOutputs n = true).
Proof.
  destruct scan_nodes_effect as (Ha & Hc & Hn).
  unfold GetMemoryPlanningCandidates. simpl.
  rewrite elem_of_pick_optimizable, elem_of_erase_all, elem_of_elements, Ha, Hc, Hn.
  split.
  - intros [H | (Hall & _ & Hnot)]; [by apply elem_of_nil in H |].
    split; [exact Hall |]. intros n Hin Ht.
    destruct (canReuseInputsOutputs n) eqn:Hok; [done |].
    exfalso. apply Hnot. eauto.
  - intros [(n & Hin & Ht) Hall]. right. split; [eauto |]. split.
    + exists n. eauto.
    + intros (m & Hm & Htm & Hok). rewrite (Hall m Hm Htm) in Hok. discriminate.
Qed.

(** C2, as the code has it: a value is a reuse candidate exactly when some
    node reads or produces it and every such node can reuse its inputs and
    outputs.  The scan does not look at the always-alive set; it is the
    reuse loop of [GenerateSameStorageValues] that passes over every
    always-alive candidate. *)
Theorem reuse_candidates_characterised :
  (∀ v,
     v ∈ (GetMemoryPlanningCandidates graph canReuseInputsOutputs).1
     ↔ (∃ n, n ∈ nodes graph ∧ touches n v)
       ∧ (∀ n, n ∈ nodes graph → touches n v → canReuseInputsOutputs n = true))
  ∧ (∀ (alive_during : gmap Value (gset Value)) (always_alive : gset Value) acc,
       for_each (reuse_value alive_during always_alive)
         (GetMemoryPlanningCandidates graph canReuseInputsOutputs).1 acc
       = for_each (reuse_value alive_during always_alive)
           (filter (fun v => v ∉ always_alive)
              (GetMemoryPlanningCandidates graph canReuseInputsOutputs).1) acc).
Proof.
  split.
  - apply reuse_candidate_iff.
  - intros alive_during always_alive acc. apply reuse_loop_skips_always_alive.
Qed.

End CandidateFacts.

(** *** Facts about [share_storage_fn] *)

Lemma elem_of_append_unseen (vs : list nat) (acc : gset nat * list nat) x :
  (∀ y, y ∈ acc.1 ↔ y ∈ acc.2) →
  let r := foldl append_unseen acc vs in
  (∀ y, y ∈ r.1 ↔ y ∈ r.2) ∧ (x ∈ r.2 ↔ x ∈ acc.2 ∨ x ∈ vs).
Proof.
  revert acc. induction vs as [| v vs IH]; intros acc Hacc; simpl.
  - split; [done |]. rewrite elem_of_nil. tauto.
  - destruct (IH (append_unseen acc v)) as [Hr Hx].
    + unfold append_unseen. destruct (decide (v ∈ acc.1)); [done |]. simpl.
      intros y. rewrite elem_of_union, elem_of_singleton, elem_of_app,
        list_elem_of_singleton, Hacc. tauto.
    + split; [exact Hr |]. rewrite Hx, elem_of_cons. unfold append_unseen.
      destruct (decide (v ∈ acc.1)) as [Hin | Hin]; simpl.
      * apply Hacc in Hin. split; [tauto |]. intros [H | [-> | H]]; tauto.
      * rewrite elem_of_app, list_elem_of_singleton. tauto.
Qed.

Lemma elem_of_merged_values (old_c new_c : list nat) x :
  x ∈ merged_values old_c new_c ↔ x ∈ old_c ∨ x ∈ new_c.
Proof.
  unfold merged_values.
  destruct (elem_of_append_unseen old_c (∅, []) x) as [H1 H1x].
  { intros y. simpl. rewrite elem_of_nil. set_solver. }
  destruct (elem_of_append_unseen new_c (foldl append_unseen (∅, []) old_c) x H1)
    as [_ H2x].
  simpl in *. rewrite H2x, H1x, elem_of_nil. tauto.
Qed.

Lemma lookup_assign_all_gen (vs values : list nat) (ssv : gmap nat (list nat)) x :
  foldl (fun m v => <[v := values]> m) ssv vs !! x
  = if decide (x ∈ vs) then Some values else ssv !! x.
Proof.
  revert ssv. induction vs as [| v vs IH]; intros ssv; simpl.
  - destruct (decide (x ∈ [])) as [H | H]; [by apply elem_of_nil in H | done].
  - rewrite IH. destruct (decide (x ∈ vs)) as [Hin | Hin].
    + rewrite decide_True; [done | by right].
    + destruct (decide (x = v)) as [-> | Hne].
      * rewrite lookup_insert_eq, decide_True; [done | by left].
      * rewrite lookup_insert_ne by done. rewrite decide_False; [done |].
        rewrite elem_of_cons. tauto.
Qed.

Lemma lookup_assign_all (values : list nat) (ssv : gmap nat (list nat)) x :
  assign_all values ssv !! x = if decide (x ∈ values) then Some values else ssv !! x.
Proof. apply lookup_assign_all_gen. Qed.

Lemma share_storage_fn_Ok ssv new_v old_v ssv' :
  share_storage_fn ssv new_v old_v = Ok ssv' →
  (new_v = old_v ∧ ssv' = ssv)
  ∨ (new_v ≠ old_v ∧ ∃ old_c new_c,
       ssv !! old_v = Some old_c ∧ ssv !! new_v = Some new_c
       ∧ ssv' = assign_all (merged_values old_c new_c) ssv).
Proof.
  unfold share_storage_fn. destruct (decide (new_v = old_v)) as [-> | Hne].
  - intros [= <-]. by left.
  - intros H. right. split; [done |].
    apply bind_Ok in H as (old_c & Ho & H). apply bind_Ok in H as (new_c & Hn & H).
    apply at_key_Ok in Ho, Hn. injection H as <-. eauto 6.
Qed.

Lemma share_storage_fn_dom ssv new_v old_v ssv' :
  cluster_ok ssv → share_storage_fn ssv new_v old_v = Ok ssv' → dom ssv' = dom ssv.
Proof.
  intros Hok H. apply share_storage_fn_Ok in H
    as [[_ ->] | (_ & old_c & new_c & Ho & Hn & ->)]; [done |].
  apply set_eq. intros x. rewrite !elem_of_dom, lookup_assign_all.
  destruct (decide (x ∈ merged_values old_c new_c)) as [Hin | Hin]; [| done].
  split; [| by eauto]. intros _.
  apply elem_of_merged_values in Hin as [Hin | Hin];
    [apply (Hok old_v) in Ho as [_ Ho] | apply (Hok new_v) in Hn as [_ Hn]]; eauto.
Qed.

Lemma share_storage_fn_cluster_ok ssv new_v old_v ssv' :
  cluster_ok ssv → share_storage_fn ssv new_v old_v = Ok ssv' → cluster_ok ssv'.
Proof.
  intros Hok H. apply share_storage_fn_Ok in H
    as [[_ ->] | (_ & old_c & new_c & Ho & Hn & ->)]; [done |].
  intros k c. rewrite lookup_assign_all.
  destruct (decide (k ∈ merged_values old_c new_c)) as [Hk | Hk].
  - intros [= <-]. split; [done |]. intros x Hx. rewrite lookup_assign_all.
    by rewrite decide_True.
  - intros Hc. destruct (Hok k c Hc) as [Hkc Hmem]. split; [done |].
    intros x Hx. rewrite lookup_assign_all.
    destruct (decide (x ∈ merged_values old_c new_c)) as [Hin | Hin]; [| by apply Hmem].
    exfalso. apply Hk. apply elem_of_merged_values.
    apply elem_of_merged_values in Hin as [Hin | Hin].
    + left. destruct (Hok old_v old_c Ho) as [_ Hm]. specialize (Hm x Hin).
      rewrite (Hmem x Hx) in Hm. by injection Hm as <-.
    + right. destruct (Hok new_v new_c Hn) as [_ Hm]. specialize (Hm x Hin).
      rewrite (Hmem x Hx) in Hm. by injection Hm as <-.
Qed.

Lemma share_storage_fn_related R ssv new_v old_v ssv' :
  cluster_ok ssv → related R ssv →
  (∀ old_c new_c x y,
     ssv !! old_v = Some old_c → ssv !! new_v = Some new_c →
     x ∈ old_c → y ∈ new_c → R x y ∧ R y x) →
  share_storage_fn ssv new_v old_v = Ok ssv' → related R ssv'.
Proof.
  intros Hok Hrel Hcross H. apply share_storage_fn_Ok in H
    as [[_ ->] | (_ & old_c & new_c & Ho & Hn & ->)]; [done |].
  intros k c x. rewrite lookup_assign_all.
  destruct (decide (k ∈ merged_values old_c new_c)) as [Hk | Hk]; [| by apply Hrel].
  intros [= <-] Hx.
  destruct (Hok old_v old_c Ho) as [_ Hmo]. destruct (Hok new_v new_c Hn) as [_ Hmn].
  apply elem_of_merged_values in Hk as [Hk | Hk];
    apply elem_of_merged_values in Hx as [Hx | Hx].
  - by apply (Hrel k old_c x (Hmo k Hk)).
  - by apply (Hcross old_c new_c k x).
  - by apply (Hcross old_c new_c x k).
  - by apply (Hrel k new_c x (Hmn k Hk)).
Qed.

(** *** The liveness map is symmetric *)

Lemma edge_dom lm u v : edge lm u v → u ∈ dom lm.
Proof. intros (s & Hs & _). apply elem_of_dom. eauto. Qed.

Lemma elem_of_live_of lm x y : y ∈ live_of lm x ↔ edge lm x y.
Proof.
  unfold live_of, edge. destruct (lm !! x) as [s |]; simpl.
  - split; [eauto |]. by intros (s' & [= <-] & H).
  - split; [by intros H%not_elem_of_empty | by intros (s' & [=] & _)].
Qed.

Lemma insert_live_Ok a b lm lm' :
  insert_live a b lm = Ok lm' →
  ∃ s, lm !! a = Some s ∧ lm' = <[a := {[b]} ∪ s]> lm.
Proof.
  unfold insert_live. intros H. apply bind_Ok in H as (s & Hs & H).
  apply at_key_Ok in Hs. injection H as <-. eauto.
Qed.

Lemma edge_add a b s lm x y :
  lm !! a = Some s →
  edge (<[a := {[b]} ∪ s]> lm) x y ↔ edge lm x y ∨ (x = a ∧ y = b).
Proof.
  intros Ha. unfold edge. destruct (decide (x = a)) as [-> | Hne].
  - rewrite lookup_insert_eq. split.
    + intros (s' & [= <-] & [->%elem_of_singleton | H]%elem_of_union); [by right | left; eauto].
    + intros [(s' & Hs' & H) | [_ ->]]; eexists; (split; [done |]).
      * rewrite Ha in Hs'. injection Hs' as <-. set_solver.
      * set_solver.
  - rewrite lookup_insert_ne by done. split; [by left | intros [H | [H _]]; done].
Qed.

Lemma dom_add a b s (lm : gmap nat (gset nat)) :
  lm !! a = Some s → dom (<[a := {[b]} ∪ s]> lm) = dom lm.
Proof.
  intros Ha. rewrite dom_insert_L. apply elem_of_dom_2 in Ha. set_solver.
Qed.

Lemma mark_overlap_Ok v st live_v st' :
  mark_overlap v st live_v = Ok st' →
  (∀ x y, edge (liveness_map st') x y
          ↔ edge (liveness_map st) x y ∨ (x = v ∧ y = live_v) ∨ (x = live_v ∧ y = v))
  ∧ dom (liveness_map st') = dom (liveness_map st)
  ∧ live_values_use_chain st' = live_values_use_chain st.
Proof.
  unfold mark_overlap. intros H.
  apply bind_Ok in H as (lm1 & H1 & H). apply bind_Ok in H as (lm2 & H2 & H).
  injection H as <-. simpl.
  apply insert_live_Ok in H1 as (s1 & Hs1 & ->).
  apply insert_live_Ok in H2 as (s2 & Hs2 & ->).
  split; [| split; [| done]].
  - intros x y. rewrite (edge_add _ _ _ _ _ _ Hs2), (edge_add _ _ _ _ _ _ Hs1). tauto.
  - by rewrite (dom_add _ _ _ _ Hs2), (dom_add _ _ _ _ Hs1).
Qed.

Lemma mark_overlap_live_ok v st live_v st' :
  live_ok st → mark_overlap v st live_v = Ok st' →
  live_ok st' ∧ dom (liveness_map st') = dom (liveness_map st).
Proof.
  intros [Hsym Hdom] H. apply mark_overlap_Ok in H as (Hedge & Hd & Hc).
  split; [| done]. split; [| by rewrite Hd, Hc].
  intros x y. rewrite !Hedge. intros [H | [H | H]]; [left; by apply Hsym | tauto | tauto].
Qed.

Lemma record_use_Ok v st node st' :
  record_use v st node = Ok st' →
  liveness_map st' = liveness_map st
  ∧ dom (live_values_use_chain st') = dom (live_values_use_chain st).
Proof.
  unfold record_use. intros H. apply bind_Ok in H as (users & Hu & H).
  apply at_key_Ok in Hu. injection H as <-. simpl. split; [done |].
  rewrite dom_insert_L. apply elem_of_dom_2 in Hu. set_solver.
Qed.

Lemma record_use_live_ok v st node st' :
  live_ok st → record_use v st node = Ok st' →
  live_ok st' ∧ dom (liveness_map st') = dom (liveness_map st).
Proof.
  intros [Hsym Hdom] H. apply record_use_Ok in H as [Hlm Hc].
  unfold live_ok. by rewrite Hlm, Hc.
Qed.

Lemma record_uses_live_ok d v nodes st st' :
  live_ok_above d st → for_each (record_use v) nodes st = Ok st' → live_ok_above d st'.
Proof.
  apply for_each_invariant. intros s n s' _ [Hs Hd] H.
  apply (record_use_live_ok _ _ _ _ Hs) in H as [H1 H2]. split; [done | by rewrite H2].
Qed.

Section LivenessFacts.

Variable graph : Graph.
Variable db : AliasDb.

Lemma add_live_value_fn_live_ok fuel v st st' :
  live_ok st → add_live_value_fn graph db fuel v st = Ok st' →
  live_ok st' ∧ {[v]} ∪ dom (liveness_map st) ⊆ dom (liveness_map st').
Proof.
  revert v st st'. induction fuel as [| fuel IH]; intros v st st' Hst; simpl; [done |].
  destruct (decide (v ∈ dom (liveness_map st))) as [Hin | Hin];
    [intros [= <-]; split; [done | set_solver] |].
  intros H. apply bind_Ok in H as (st1 & H1 & H). apply bind_Ok in H as (st2 & H2 & H).
  set (d := {[v]} ∪ dom (liveness_map st)) in *.
  assert (H0 : live_ok_above d (set_liveness_map (<[v:=∅]> (liveness_map st)) st)).
  { destruct Hst as [Hsym Hdom]. split; [split |]; simpl.
    - intros x y (s & Hs & Hy). destruct (decide (x = v)) as [-> | Hne].
      { rewrite lookup_insert_eq in Hs. injection Hs as <-. by apply not_elem_of_empty in Hy. }
      rewrite lookup_insert_ne in Hs by done.
      destruct (Hsym x y) as (s' & Hs' & Hx); [by exists s |].
      exists s'. split; [| done]. rewrite lookup_insert_ne; [done |].
      intros <-. apply Hin. apply elem_of_dom. eauto.
    - rewrite dom_insert_L. set_solver.
    - rewrite dom_insert_L. done. }
  assert (Hst1 : live_ok_above d st1).
  { revert H1. apply for_each_invariant; [| exact H0].
    intros s n s' _ [Hs Hd] Hm. apply (mark_overlap_live_ok _ _ _ _ Hs) in Hm as [Hm1 Hm2].
    split; [done | by rewrite Hm2]. }
  assert (Hst1' : live_ok_above d
            match uses graph v with
            | [] => st1
            | _ :: _ => set_use_chain (<[v:=∅]> (live_values_use_chain st1)) st1
            end).
  { destruct (uses graph v); [done |]. destruct Hst1 as [[Hsym Hdom] Hd].
    split; [split |]; simpl; [done | | done].
    rewrite dom_insert_L. subst d. set_solver. }
  apply (record_uses_live_ok d) in H2; [| exact Hst1'].
  assert (Hfin : live_ok_above d st').
  { revert H. apply for_each_invariant; [| exact H2].
    intros s a s' _ [Hs Hd] Hb. apply bind_Ok in Hb as (s1 & Ha & Hb).
    apply (IH _ _ _ Hs) in Ha as [Hs1 Hsub].
    apply (record_uses_live_ok d) in Hb; [done |]. split; [done | set_solver]. }
  destruct Hfin as [Hok Hd]. split; [done |]. subst d. done.
Qed.

Lemma retire_use_live_ok node acc v acc' :
  live_ok acc.1 → retire_use node acc v = Ok acc' → live_ok acc'.1.
Proof.
  intros [Hsym Hdom]. unfold retire_use. intros H.
  apply bind_Ok in H as (users & Hu & H). apply at_key_Ok in Hu.
  injection H as <-. split; simpl; [done |].
  rewrite dom_insert_L. apply elem_of_dom_2 in Hu. set_solver.
Qed.

Lemma traverse_node_fn_live_ok node st r :
  live_ok st → traverse_node_fn node st = Ok r → live_ok r.1.
Proof.
  intros Hst. unfold traverse_node_fn.
  destruct (live_nodes_def_chain st !! node) as [vs |]; [| by intros [= <-]].
  apply (for_each_invariant (fun a : LiveState * list nat => live_ok a.1)); [| done].
  intros s x s' _. apply retire_use_live_ok.
Qed.

Lemma erase_dead_live_ok dead st : live_ok st → live_ok (erase_dead dead st).
Proof.
  intros [Hsym Hdom]. split; simpl; [done |].
  etrans; [| exact Hdom]. generalize (live_values_use_chain st).
  induction dead as [| d dead IH]; intros uc; simpl; [done |].
  etrans; [apply IH |]. rewrite dom_delete_L. set_solver.
Qed.

Section LivenessFactsAlwaysAlive.

Variable always_alive : gset nat.

Lemma scan_node_live_ok st n st' :
  live_ok st → scan_node graph db always_alive st n = Ok st' → live_ok st'.
Proof.
  intros Hst. unfold scan_node. intros H.
  apply bind_Ok in H as (st1 & H1 & H). apply bind_Ok in H as (r & Hr & H).
  injection H as <-. apply erase_dead_live_ok.
  apply (traverse_node_fn_live_ok _ _ _) in Hr; [done |].
  revert H1. apply for_each_invariant; [| exact Hst].
  intros s v s' _ Hs. unfold activate_output.
  destruct (decide (v ∈ always_alive)); [by intros [= <-] |].
  intros Ha. by apply add_live_value_fn_live_ok in Ha as [Ha _].
Qed.

Lemma link_in_out_symmetric lm io :
  lm_symmetric lm → lm_symmetric (link_in_out lm io).
Proof.
  intros Hsym. destruct io as [input output]. unfold link_in_out.
  destruct (decide (input ∈ dom lm ∧ output ∈ dom lm)) as [[Hi Ho] | _]; [| done].
  apply elem_of_dom in Hi as [si Hi].
  set (lm1 := alter (fun s => {[output]} ∪ s) input lm).
  assert (Hlm1 : lm1 = <[input := {[output]} ∪ si]> lm).
  { subst lm1. apply map_eq. intros k.
    destruct (decide (input = k)) as [<- | Hne].
    - by rewrite lookup_alter_eq, lookup_insert_eq, Hi.
    - by rewrite lookup_alter_ne, lookup_insert_ne. }
  assert (Ho1 : is_Some (lm1 !! output)).
  { apply elem_of_dom. rewrite Hlm1, (dom_add _ _ _ _ Hi). done. }
  destruct Ho1 as [so Ho1].
  assert (Hlm2 : alter (fun s => {[input]} ∪ s) output lm1
                 = <[output := {[input]} ∪ so]> lm1).
  { apply map_eq. intros k.
    destruct (decide (output = k)) as [<- | Hne].
    - by rewrite lookup_alter_eq, lookup_insert_eq, Ho1.
    - by rewrite lookup_alter_ne, lookup_insert_ne. }
  rewrite Hlm2. intros x y.
  rewrite !(edge_add _ _ _ _ _ _ Ho1). rewrite Hlm1, !(edge_add _ _ _ _ _ _ Hi).
  intros [[H | H] | H]; [left; left; by apply Hsym | tauto | tauto].
Qed.

Lemma GetLivenessMap_symmetric lm :
  GetLivenessMap graph db always_alive = Ok lm → lm_symmetric lm.
Proof.
  unfold GetLivenessMap. intros H.
  apply bind_Ok in H as (st & Hst & H). apply bind_Ok in H as (u & _ & H).
  injection H as <-.
  assert (Hok : live_ok st).
  { revert Hst. apply for_each_invariant.
    - intros s n s' _. apply scan_node_live_ok.
    - split; simpl; [| done]. intros x y (s & Hs & _). by rewrite lookup_empty in Hs. }
  destruct Hok as [Hsym _]. revert Hsym. generalize (liveness_map st).
  induction (concat (map in_out_pairs (nodes graph))) as [| io ios IH]; intros m Hm;
    simpl; [done |].
  apply IH. by apply link_in_out_symmetric.
Qed.

End LivenessFactsAlwaysAlive.

End LivenessFacts.

(** *** Invariants of [GenerateSameStorageValues] *)

Section Phases.

Variable alive_during : gmap nat (gset nat).
Variable always_alive : gset nat.
Variable db : AliasDb.

#[local] Instance alias_chain_equivalence : Equivalence (alias_chain db).
Proof. unfold alias_chain. apply _. Qed.

Lemma share_if_alias_inv v ssv p ssv' :
  cluster_ok ssv → related (alias_chain db) ssv →
  share_if_alias db v ssv p = Ok ssv' →
  cluster_ok ssv' ∧ related (alias_chain db) ssv'.
Proof.
  intros Hok Hrel. unfold share_if_alias.
  destruct (mayAlias db p v) eqn:Halias; [| by intros [= <-]].
  intros H. split; [by eapply share_storage_fn_cluster_ok |].
  eapply share_storage_fn_related; [exact Hok | exact Hrel | | exact H].
  intros old_c new_c x y Ho Hn Hx Hy.
  assert (Hxy : alias_chain db x y).
  { transitivity p; [symmetry; by apply (Hrel p old_c) |].
    transitivity v; [| by apply (Hrel v new_c)].
    apply rtsc_lr. exact Halias. }
  split; [exact Hxy | by symmetry].
Qed.

Lemma init_value_inv ssv v ssv' :
  cluster_ok ssv → related (alias_chain db) ssv →
  init_value always_alive db ssv v = Ok ssv' →
  cluster_ok ssv' ∧ related (alias_chain db) ssv'.
Proof.
  intros Hok Hrel. unfold init_value.
  set (ssv0 := if decide (v ∈ dom ssv) then ssv else <[v := [v]]> ssv).
  assert (H0 : cluster_ok ssv0 ∧ related (alias_chain db) ssv0).
  { subst ssv0. destruct (decide (v ∈ dom ssv)) as [Hin | Hin]; [done |].
    apply not_elem_of_dom in Hin. split.
    - intros k c. destruct (decide (k = v)) as [-> | Hne].
      + rewrite lookup_insert_eq. intros [= <-]. split; [by left |].
        intros x ->%list_elem_of_singleton. apply lookup_insert_eq.
      + rewrite lookup_insert_ne by done. intros Hc.
        destruct (Hok k c Hc) as [Hk Hm]. split; [done |]. intros x Hx.
        rewrite lookup_insert_ne; [by apply Hm |].
        intros <-. specialize (Hm v Hx). congruence.
    - intros k c x. destruct (decide (k = v)) as [-> | Hne].
      + rewrite lookup_insert_eq. intros [= <-] ->%list_elem_of_singleton. reflexivity.
      + rewrite lookup_insert_ne by done. apply Hrel. }
  clearbody ssv0. destruct (decide (v ∈ always_alive)); [by intros [= <-] |].
  apply (for_each_invariant (fun s => cluster_ok s ∧ related (alias_chain db) s));
    [| exact H0].
  intros s p s' _ [Hs1 Hs2]. by apply share_if_alias_inv.
Qed.

Lemma initial_same_storage_inv all_values ssv :
  initial_same_storage always_alive db all_values = Ok ssv →
  cluster_ok ssv ∧ related (alias_chain db) ssv.
Proof.
  unfold initial_same_storage.
  apply (for_each_invariant (fun s => cluster_ok s ∧ related (alias_chain db) s)).
  - intros s v s' _ [Hs1 Hs2]. by apply init_value_inv.
  - split; intros k c; by rewrite lookup_empty.
Qed.

Lemma elem_of_liveset_fold (c : list nat) (acc : gset nat) y :
  y ∈ foldl (fun live sv => live_of alive_during sv ∪ live) acc c
  ↔ y ∈ acc ∨ ∃ sv, sv ∈ c ∧ y ∈ live_of alive_during sv.
Proof.
  revert acc. induction c as [| a c IH]; intros acc; simpl.
  - split; [tauto |]. intros [H | (sv & Hsv & _)]; [done | by apply elem_of_nil in Hsv].
  - rewrite IH, elem_of_union. split.
    + intros [[H | H] | (sv & Hsv & H)]; [right; exists a | by left | right; exists sv];
        (split; [| done]); [by left | by right].
    + intros [H | (sv & Hsv & H)]; [by left; right |].
      apply elem_of_cons in Hsv as [-> | Hsv]; [by left; left | right; eauto].
Qed.

Lemma compute_liveset_fn_Ok ssv v live :
  compute_liveset_fn alive_during always_alive ssv v = Ok live →
  ∃ c, ssv !! v = Some c
       ∧ ∀ y, y ∈ live ↔ (∃ sv, sv ∈ c ∧ y ∈ live_of alive_during sv) ∨ y ∈ always_alive.
Proof.
  unfold compute_liveset_fn. intros H. apply bind_Ok in H as (c & Hc & H).
  apply at_key_Ok in Hc. injection H as <-. exists c. split; [done |].
  intros y. rewrite elem_of_union, elem_of_liveset_fold.
  split; [intros [[H | H] | H] | intros [H | H]]; try tauto.
  by apply not_elem_of_empty in H.
Qed.

Lemma intersect_fn_free ssv live s :
  intersect_fn ssv live s = Ok false →
  ∃ c, ssv !! s = Some c ∧ ∀ x, x ∈ c → x ∉ live.
Proof.
  unfold intersect_fn. intros H. apply bind_Ok in H as (c & Hc & H).
  apply at_key_Ok in Hc. injection H as H. exists c. split; [done |].
  intros x Hx Hlive.
  assert (Ht : existsb (fun v => bool_decide (v ∈ live)) c = true); [| congruence].
  apply existsb_exists. exists x. split; [by apply list_elem_of_In |].
  by apply bool_decide_eq_true.
Qed.

Lemma share_with_first_free_Ok ssv live v seen ssv' :
  share_with_first_free ssv live v seen = Ok ssv' →
  ssv' = ssv
  ∨ ∃ s, s ∈ seen ∧ intersect_fn ssv live s = Ok false
         ∧ share_storage_fn ssv v s = Ok ssv'.
Proof.
  induction seen as [| s seen IH]; simpl.
  - intros [= <-]. by left.
  - intros H. apply bind_Ok in H as (b & Hb & H). destruct b.
    + destruct (IH H) as [-> | (s' & Hs' & Hint & Hshare)]; [by left |].
      right. exists s'. split; [by right | done].
    + right. exists s. split; [by left | done].
Qed.

Lemma reuse_value_inv acc v acc' :
  live_symmetric alive_during →
  cluster_ok acc.1 → related (free_or_chained alive_during db) acc.1 →
  reuse_value alive_during always_alive acc v = Ok acc' →
  cluster_ok acc'.1 ∧ related (free_or_chained alive_during db) acc'.1.
Proof.
  intros Hsym Hok Hrel. unfold reuse_value.
  destruct (decide (v ∈ always_alive)); [by intros [= <-] |].
  intros H. apply bind_Ok in H as (live & Hlive & H).
  apply bind_Ok in H as (ssv' & Hshare & H). injection H as <-. simpl.
  apply compute_liveset_fn_Ok in Hlive as (cv & Hcv & Hlive).
  apply share_with_first_free_Ok in Hshare as [-> | (s & _ & Hfree & Hshare)]; [done |].
  apply intersect_fn_free in Hfree as (cs & Hcs & Hfree).
  split; [by eapply share_storage_fn_cluster_ok |].
  eapply share_storage_fn_related; [exact Hok | exact Hrel | | exact Hshare].
  intros old_c new_c x y Ho Hn Hx Hy.
  rewrite Hcs in Ho. injection Ho as <-. rewrite Hcv in Hn. injection Hn as <-.
  assert (Hxy : x ∉ live_of alive_during y).
  { intros Hin. apply (Hfree x Hx). apply Hlive. left. eauto. }
  assert (Hyx : y ∉ live_of alive_during x).
  { intros Hin. apply Hxy. by apply Hsym. }
  split; left; split; done.
Qed.

Lemma related_weaken (R R' : nat → nat → Prop) ssv :
  (∀ x y, R x y → R' x y) → related R ssv → related R' ssv.
Proof. intros HR Hrel k c x Hc Hx. by eapply HR, Hrel. Qed.

Lemma GenerateSameStorageValues_inv optimizable ssv :
  live_symmetric alive_during →
  GenerateSameStorageValues alive_during always_alive db optimizable = Ok ssv →
  cluster_ok ssv ∧ related (free_or_chained alive_during db) ssv.
Proof.
  intros Hsym. unfold GenerateSameStorageValues. intros H.
  apply bind_Ok in H as (ssv0 & H0 & H). apply bind_Ok in H as (r & Hr & H).
  injection H as <-. apply initial_same_storage_inv in H0 as [Hok0 Hrel0].
  revert Hr.
  apply (for_each_invariant
           (fun a : gmap nat (list nat) * list nat =>
              cluster_ok a.1 ∧ related (free_or_chained alive_during db) a.1)).
  - intros a v a' _ [Ha1 Ha2]. by apply reuse_value_inv.
  - simpl. split; [done |]. eapply related_weaken; [| exact Hrel0]. intros x y. by right.
Qed.

End Phases.

(** *** The clusters of a graph analysed with [optimize_memory] *)

Section SameStorageClaim.

Variable graph : Graph.
Variable db : AliasDb.
Variable canReuseInputsOutputs : Node -> bool.

(** The statement that any two distinct values of one cluster either have
    no edge in the liveness map or are said by the database to alias. *)
Definition clusters_free_or_aliased : Prop :=
  ∀ lm ssv,
    GetLivenessMap graph db (GetAlwaysAliveValues graph db) = Ok lm →
    GenerateSameStorageValues lm (GetAlwaysAliveValues graph db) db
      (GetMemoryPlanningCandidates graph canReuseInputsOutputs) = Ok ssv →
    ∀ u c v, ssv !! u = Some c → v ∈ c → u ≠ v →
      no_edge lm u v ∨ mayAlias db u v = true ∨ mayAlias db v u = true.

Lemma symmetric_live_of lm : lm_symmetric lm → live_symmetric lm.
Proof. intros Hsym x y. rewrite !elem_of_live_of. apply Hsym. Qed.

(** C1, as the code has it: two distinct values of one same-storage cluster
    either have no edge between them in the liveness map, or are linked by
    a chain of values in which each may alias the next (the initial merge
    unions whole clusters, so the two ends of a chain need not alias). *)
Theorem same_storage_clusters_free_or_chained lm ssv :
  GetLivenessMap graph db (GetAlwaysAliveValues graph db) = Ok lm →
  GenerateSameStorageValues lm (GetAlwaysAliveValues graph db) db
    (GetMemoryPlanningCandidates graph canReuseInputsOutputs) = Ok ssv →
  ∀ u c v, ssv !! u = Some c → v ∈ c → u ≠ v →
    no_edge lm u v ∨ alias_chain db u v.
Proof.
  intros Hlm Hssv u c v Hc Hv _.
  apply GetLivenessMap_symmetric, symmetric_live_of in Hlm.
  apply (GenerateSameStorageValues_inv _ _ _ _ _ Hlm) in Hssv as [_ Hrel].
  exact (Hrel u c v Hc Hv).
Qed.

End SameStorageClaim.

(** *** Further facts about [GetLivenessMap] *)

Section LivenessMapFacts.

Variable graph : Graph.
Variable db : AliasDb.
Variable always_alive : gset Value.

Lemma retire_uses_liveness_map node l acc acc' :
  for_each (retire_use node) l acc = Ok acc' →
  liveness_map acc'.1 = liveness_map acc.1.
Proof.
  revert acc. induction l as [| x l IH]; intros acc; simpl.
  - by intros [= <-].
  - intros H. apply bind_Ok in H as (a1 & H1 & H). rewrite (IH _ H).
    unfold retire_use in H1. apply bind_Ok in H1 as (u & _ & H1). by simplify_eq.
Qed.

Lemma scan_node_keys st n st' :
  live_ok st → scan_node graph db always_alive st n = Ok st' →
  dom (liveness_map st) ⊆ dom (liveness_map st')
  ∧ ∀ o, o ∈ outputs n.2 → o ∉ always_alive → o ∈ dom (liveness_map st').
Proof.
  intros Hst. unfold scan_node. intros H.
  apply bind_Ok in H as (st1 & H1 & H). apply bind_Ok in H as (r & Hr & H).
  injection H as <-.
  assert (Hr' : liveness_map r.1 = liveness_map st1).
  { unfold traverse_node_fn in Hr.
    destruct (live_nodes_def_chain st1 !! n.1) as [vs |]; [| by simplify_eq].
    by apply retire_uses_liveness_map in Hr. }
  simpl. rewrite Hr'. clear Hr Hr' r.
  revert st Hst H1. induction (outputs n.2) as [| o os IH]; intros st Hst; simpl.
  - intros [= <-]. split; [done |]. by intros o Ho%elem_of_nil.
  - intros H. apply bind_Ok in H as (st2 & H2 & H).
    assert (Hst2 : live_ok st2 ∧ dom (liveness_map st) ⊆ dom (liveness_map st2)
                   ∧ (o ∉ always_alive → o ∈ dom (liveness_map st2))).
    { unfold activate_output in H2. destruct (decide (o ∈ always_alive)).
      - simplify_eq. split; [done |]. split; [done | tauto].
      - apply (add_live_value_fn_live_ok _ _ _ _ _ _ Hst) in H2 as [? ?].
        split; [done |]. split; set_solver. }
    destruct Hst2 as (Hok2 & Hsub2 & Ho2).
    destruct (IH _ Hok2 H) as [Hsub Hall]. split; [set_solver |].
    intros o' [-> | Ho']%elem_of_cons Hna; [| by apply Hall].
    apply Hsub. by apply Ho2.
Qed.

Lemma scan_nodes_keys ns st st' :
  live_ok st → for_each (scan_node graph db always_alive) ns st = Ok st' →
  live_ok st'
  ∧ dom (liveness_map st) ⊆ dom (liveness_map st')
  ∧ ∀ n o, n ∈ ns → o ∈ outputs n.2 → o ∉ always_alive → o ∈ dom (liveness_map st').
Proof.
  revert st. induction ns as [| n ns IH]; intros st Hst; simpl.
  - intros [= <-]. split; [done |]. split; [done |]. by intros n o Hn%elem_of_nil.
  - intros H. apply bind_Ok in H as (st1 & H1 & H).
    pose proof (scan_node_live_ok _ _ _ _ _ _ Hst H1) as Hst1.
    destruct (scan_node_keys _ _ _ Hst H1) as [Hsub1 Hout1].
    destruct (IH _ Hst1 H) as (Hok & Hsub & Hall).
    split; [done |]. split; [set_solver |].
    intros m o [-> | Hm]%elem_of_cons Ho Hna; [| by eapply Hall].
    apply Hsub. by apply Hout1.
Qed.

Lemma link_in_out_grows lm io :
  dom (link_in_out lm io) = dom lm
  ∧ (∀ x y, edge lm x y → edge (link_in_out lm io) x y)
  ∧ (io.1 ∈ dom lm → io.2 ∈ dom lm →
     edge (link_in_out lm io) io.1 io.2 ∧ edge (link_in_out lm io) io.2 io.1).
Proof.
  destruct io as [input output]. unfold link_in_out. simpl.
  destruct (decide (input ∈ dom lm ∧ output ∈ dom lm)) as [[Hi Ho] | Hn].
  2:{ split; [done |]. split; [done |]. tauto. }
  apply elem_of_dom in Hi as [si Hi].
  set (lm1 := alter (fun s => {[output]} ∪ s) input lm).
  assert (Hlm1 : lm1 = <[input := {[output]} ∪ si]> lm).
  { subst lm1. apply map_eq. intros k.
    destruct (decide (input = k)) as [<- | Hne].
    - by rewrite lookup_alter_eq, lookup_insert_eq, Hi.
    - by rewrite lookup_alter_ne, lookup_insert_ne. }
  assert (Ho1 : is_Some (lm1 !! output)).
  { apply elem_of_dom. rewrite Hlm1, (dom_add _ _ _ _ Hi). done. }
  destruct Ho1 as [so Ho1].
  assert (Hlm2 : alter (fun s => {[input]} ∪ s) output lm1
                 = <[output := {[input]} ∪ so]> lm1).
  { apply map_eq. intros k.
    destruct (decide (output = k)) as [<- | Hne].
    - by rewrite lookup_alter_eq, lookup_insert_eq, Ho1.
    - by rewrite lookup_alter_ne, lookup_insert_ne. }
  rewrite Hlm2. split; [| split].
  - rewrite (dom_add _ _ _ _ Ho1), Hlm1, (dom_add _ _ _ _ Hi). done.
  - intros x y Hxy. rewrite (edge_add _ _ _ _ _ _ Ho1), Hlm1, (edge_add _ _ _ _ _ _ Hi). tauto.
  - intros _ _. rewrite !(edge_add _ _ _ _ _ _ Ho1), Hlm1, !(edge_add _ _ _ _ _ _ Hi). tauto.
Qed.

Lemma link_all_grows ios lm :
  dom (foldl link_in_out lm ios) = dom lm
  ∧ (∀ x y, edge lm x y → edge (foldl link_in_out lm ios) x y)
  ∧ (∀ io, io ∈ ios → io.1 ∈ dom lm → io.2 ∈ dom lm →
     edge (foldl link_in_out lm ios) io.1 io.2 ∧ edge (foldl link_in_out lm ios) io.2 io.1).
Proof.
  revert lm. induction ios as [| io ios IH]; intros lm; simpl.
  - split; [done |]. split; [done |]. by intros io Hio%elem_of_nil.
  - destruct (link_in_out_grows lm io) as (Hd1 & He1 & Hl1).
    destruct (IH (link_in_out lm io)) as (Hd & He & Hl).
    split; [by rewrite Hd |]. split; [intros x y Hxy; by apply He, He1 |].
    intros io' [-> | Hio']%elem_of_cons Hi Ho.
    + destruct (Hl1 Hi Ho). split; by apply He.
    + apply Hl; [done | by rewrite Hd1 | by rewrite Hd1].
Qed.

Lemma elem_of_in_out_pairs_node (n : Node) input output :
  (input, output) ∈ in_out_pairs n ↔ input ∈ inputs n ∧ output ∈ outputs n.
Proof.
  unfold in_out_pairs. rewrite list_elem_of_bind. split.
  - intros (i & Hin & Hi). apply list_elem_of_bind in Hin as (o & Hin & Ho).
    apply list_elem_of_singleton in Hin. by simplify_eq.
  - intros [Hi Ho]. exists input. split; [| done].
    apply list_elem_of_bind. exists output. split; [by left | done].
Qed.

Lemma elem_of_in_out_pairs (ns : list Node) input output :
  (input, output) ∈ concat (map in_out_pairs ns)
  ↔ ∃ n, n ∈ ns ∧ input ∈ inputs n ∧ output ∈ outputs n.
Proof.
  induction ns as [| n ns IH]; simpl.
  - split; [by intros H%elem_of_nil | by intros (n & Hn%elem_of_nil & _)].
  - rewrite elem_of_app, IH, elem_of_in_out_pairs_node. split.
    + intros [[Hi Ho] | (m & Hm & Hi & Ho)]; [exists n | exists m];
        (split; [| done]); [by left | by right].
    + intros (m & [-> | Hm]%elem_of_cons & Hi & Ho); [by left | right; eauto].
Qed.

(** X1: when the scan succeeds, the liveness map is symmetric, every node
    output that is not always alive has an entry in it, and an input and
    an output of one node that both have entries are live together. *)
Theorem GetLivenessMap_shape lm :
  GetLivenessMap graph db always_alive = Ok lm →
  (∀ u v, v ∈ live_of lm u ↔ u ∈ live_of lm v)
  ∧ (∀ n o, n ∈ nodes graph → o ∈ outputs n → o ∉ always_alive → o ∈ dom lm)
  ∧ (∀ n i o,
       n ∈ nodes graph → i ∈ inputs n → o ∈ outputs n → i ∈ dom lm → o ∈ dom lm →
       o ∈ live_of lm i ∧ i ∈ live_of lm o).
Proof.
  intros H. pose proof (GetLivenessMap_symmetric _ _ _ _ H) as Hsym.
  unfold GetLivenessMap in H.
  apply bind_Ok in H as (st & Hst & H). apply bind_Ok in H as (u & _ & H).
  injection H as <-.
  assert (H0 : live_ok {| liveness_map := ∅; live_values_use_chain := ∅;
                          live_nodes_def_chain := ∅ |}).
  { split; simpl; [| done]. intros x y (s & Hs & _). by rewrite lookup_empty in Hs. }
  destruct (scan_nodes_keys _ _ _ H0 Hst) as (_ & _ & Hkeys).
  destruct (link_all_grows (concat (map in_out_pairs (nodes graph))) (liveness_map st))
    as (Hdom & _ & Hlink).
  split; [| split].
  - intros a b. rewrite !elem_of_live_of. split; apply Hsym.
  - intros n o Hn Ho Hna. rewrite Hdom.
    unfold numbered_nodes in Hkeys.
    apply list_elem_of_lookup in Hn as [k Hk].
    apply (Hkeys (k, n) o); [| done | done].
    apply list_elem_of_lookup. exists k. apply lookup_zip_with_Some.
    exists k, n. split; [done |]. split; [| done].
    apply lookup_seq. split; [done |]. by eapply lookup_lt_Some.
  - intros n i o Hn Hi Ho Hdi Hdo. rewrite !elem_of_live_of.
    rewrite Hdom in Hdi, Hdo.
    apply (Hlink (i, o)); [| done | done].
    apply elem_of_in_out_pairs. eauto.
Qed.

End LivenessMapFacts.

(** *** Further facts about the always-alive set and the candidates *)

Section AlwaysAliveOrigin.

Variable graph : Graph.
Variable db : AliasDb.

(** How a value gets into the always-alive set after the seeding: by a
    query of the database answered yes against a set between the seeds and
    the result. *)
Definition admitted_by_query (v : Value) : Prop :=
  ∃ n s,
    n ∈ nodes graph ∧ is_constant n = false ∧ v ∈ outputs n
    ∧ seeded_always_alive graph ⊆ s ∧ s ⊆ GetAlwaysAliveValues graph db
    ∧ mayContainAliasSets db [v] (elements s) = true.

Lemma insert_if_alias_origin (vs : list Value) (s : gset Value) x :
  x ∈ foldl (insert_if_alias db) s vs →
  x ∈ s
  ∨ ∃ s', s ⊆ s' ∧ s' ⊆ foldl (insert_if_alias db) s vs ∧ x ∈ vs
          ∧ mayContainAliasSets db [x] (elements s') = true.
Proof.
  revert s. induction vs as [| v vs IH]; intros s; simpl; [by left |].
  intros Hx. destruct (IH _ Hx) as [Hin | (s' & Hs1 & Hs2 & Hv & Hq)].
  - unfold insert_if_alias in Hin.
    destruct (mayContainAliasSets db [v] (elements s)) eqn:Hq; [| by left].
    apply elem_of_union in Hin as [->%elem_of_singleton | Hin]; [| by left].
    right. exists s. split; [done |]. split.
    + etrans; [apply (insert_if_alias_subseteq db s v) |].
      apply insert_if_alias_fold_subseteq.
    + split; [by left | done].
  - right. exists s'. split.
    + etrans; [apply (insert_if_alias_subseteq db s v) | done].
    + split; [done |]. split; [by right | done].
Qed.

Lemma insert_aliases_origin (ns : list Node) (s : gset Value) x :
  x ∈ foldl (insert_aliases_of_node db) s ns →
  x ∈ s
  ∨ ∃ n s', n ∈ ns ∧ is_constant n = false ∧ x ∈ outputs n
            ∧ s ⊆ s' ∧ s' ⊆ foldl (insert_aliases_of_node db) s ns
            ∧ mayContainAliasSets db [x] (elements s') = true.
Proof.
  revert s. induction ns as [| n ns IH]; intros s; simpl; [by left |].
  intros Hx. destruct (IH _ Hx) as [Hin | (m & s' & Hm & Hk & Ho & Hs1 & Hs2 & Hq)].
  - unfold insert_aliases_of_node in Hin. destruct (is_constant n) eqn:Hk; [by left |].
    apply insert_if_alias_origin in Hin as [Hin | (s' & Hs1 & Hs2 & Hv & Hq)]; [by left |].
    right. exists n, s'. split; [by left |]. split; [done |]. split; [done |].
    split; [done |]. split; [| done].
    etrans; [exact Hs2 |].
    assert (Heq : foldl (insert_if_alias db) s (outputs n) = insert_aliases_of_node db s n).
    { unfold insert_aliases_of_node. by rewrite Hk. }
    rewrite Heq. apply insert_aliases_fold_subseteq.
  - right. exists m, s'. split; [by right |]. split; [done |]. split; [done |].
    split; [| done]. etrans; [apply (insert_aliases_of_node_subseteq db s n) | done].
Qed.

(** X2: nothing is always alive but the seeds (graph inputs, graph outputs,
    outputs of constants) and the outputs of other nodes for which the
    database answered yes when asked. *)
Theorem GetAlwaysAliveValues_origin v :
  v ∈ GetAlwaysAliveValues graph db →
  v ∈ graph_inputs graph ∨ v ∈ graph_outputs graph
  ∨ (∃ n, n ∈ nodes graph ∧ kind n = prim_Constant ∧ v ∈ outputs n)
  ∨ admitted_by_query v.
Proof.
  unfold GetAlwaysAliveValues. intros Hv.
  apply insert_aliases_origin in Hv as [Hv | (n & s & Hn & Hk & Ho & Hs1 & Hs2 & Hq)].
  - apply elem_of_seeded_always_alive in Hv as [H | [H | (n & Hn & Hk & Ho)]];
      [by left | by right; left |].
    right; right; left. exists n. split; [done |]. split; [| done].
    unfold is_constant in Hk. by destruct (kind n).
  - right; right; right. exists n, s. by repeat split.
Qed.

End AlwaysAliveOrigin.

Section CandidateOrder.

Variable graph : Graph.
Variable canReuseInputsOutputs : Node -> bool.

Lemma pick_optimizable_sublist (vs acc : list Value) (r : gset Value) :
  ∃ l, (foldl pick_optimizable (acc, r) vs).1 = acc ++ l ∧ sublist l vs.
Proof.
  revert acc r. induction vs as [| v vs IH]; intros acc r; simpl.
  - exists []. by rewrite app_nil_r.
  - unfold pick_optimizable at 2. simpl. destruct (decide (v ∈ r)).
    + destruct (IH (acc ++ [v]) (r ∖ {[v]})) as (l & -> & Hl).
      exists (v :: l). rewrite <- app_assoc. split; [done |]. by constructor.
    + destruct (IH acc r) as (l & -> & Hl). exists l. split; [done |]. by constructor.
Qed.

(** X3: the reuse candidates are listed once each, in the order in which
    the values first appear in the scan of the nodes. *)
Theorem GetMemoryPlanningCandidates_order :
  NoDup (GetMemoryPlanningCandidates graph canReuseInputsOutputs).1
  ∧ sublist (GetMemoryPlanningCandidates graph canReuseInputsOutputs).1
            (GetMemoryPlanningCandidates graph canReuseInputsOutputs).2.
Proof.
  unfold GetMemoryPlanningCandidates. simpl. split.
  - apply pick_optimizable_NoDup; [constructor | by intros x Hx%elem_of_nil].
  - match goal with |- context [foldl pick_optimizable ([], ?r) ?vs] =>
      destruct (pick_optimizable_sublist vs [] r) as (l & -> & Hl)
    end.
    done.
Qed.

End CandidateOrder.

(** *** The same-storage map is a partition, and is always produced *)

(** A loop whose body succeeds wherever the invariant holds, succeeds. *)
Lemma for_each_progress {A S} (P : S → Prop) (body : S → A → result S) xs st :
  (∀ s x, x ∈ xs → P s → ∃ s', body s x = Ok s' ∧ P s') →
  P st → ∃ st', for_each body xs st = Ok st' ∧ P st'.
Proof.
  revert st. induction xs as [| x xs IH]; intros st Hbody HP; simpl; [eauto |].
  destruct (Hbody st x) as (s1 & H1 & HP1); [by left | done |].
  rewrite H1. simpl. apply IH; [| done]. intros s y Hy. apply Hbody. by right.
Qed.

Section PartitionFacts.

Variable alive_during : gmap Value (gset Value).
Variable always_alive : gset Value.
Variable db : AliasDb.

(** The map is a partition of the set [d]. *)
Definition partition_of (d : gset Value) (ssv : gmap Value (list Value)) : Prop :=
  cluster_ok ssv ∧ dom ssv = d.

Lemma share_storage_fn_progress d ssv new_v old_v :
  partition_of d ssv → new_v ∈ d → old_v ∈ d →
  ∃ ssv', share_storage_fn ssv new_v old_v = Ok ssv' ∧ partition_of d ssv'.
Proof.
  intros [Hok Hdom] Hn Ho. rewrite <- Hdom in Hn, Ho.
  apply elem_of_dom in Hn as [cn Hn], Ho as [co Ho].
  destruct (share_storage_fn ssv new_v old_v) as [ssv' | e |] eqn:H.
  - exists ssv'. split; [done |]. split; [by eapply share_storage_fn_cluster_ok |].
    by rewrite (share_storage_fn_dom _ _ _ _ Hok H).
  - unfold share_storage_fn, at_key in H. rewrite Hn, Ho in H.
    by destruct (decide (new_v = old_v)).
  - unfold share_storage_fn, at_key in H. rewrite Hn, Ho in H.
    by destruct (decide (new_v = old_v)).
Qed.

Lemma init_value_progress d ssv v :
  partition_of d ssv →
  ∃ ssv', init_value always_alive db ssv v = Ok ssv' ∧ partition_of ({[v]} ∪ d) ssv'.
Proof.
  intros [Hok Hdom]. unfold init_value.
  set (ssv0 := if decide (v ∈ dom ssv) then ssv else <[v := [v]]> ssv).
  assert (H0 : partition_of ({[v]} ∪ d) ssv0).
  { subst ssv0. destruct (decide (v ∈ dom ssv)) as [Hin | Hin].
    - split; [done |]. set_solver.
    - split; [| rewrite dom_insert_L; by rewrite Hdom].
      apply not_elem_of_dom in Hin.
      intros k c. destruct (decide (k = v)) as [-> | Hne].
      + rewrite lookup_insert_eq. intros [= <-]. split; [by left |].
        intros x ->%list_elem_of_singleton. apply lookup_insert_eq.
      + rewrite lookup_insert_ne by done. intros Hc.
        destruct (Hok k c Hc) as [Hk Hm]. split; [done |]. intros x Hx.
        rewrite lookup_insert_ne; [by apply Hm |].
        intros <-. specialize (Hm v Hx). congruence. }
  clearbody ssv0. destruct (decide (v ∈ always_alive)); [eauto |].
  assert (Hkeys : ∀ p, p ∈ elements (dom ssv0) → p ∈ {[v]} ∪ d).
  { intros p Hp. apply elem_of_elements in Hp. destruct H0 as [_ <-]. done. }
  revert Hkeys. generalize (elements (dom ssv0)). intros keys Hkeys.
  apply (for_each_progress (partition_of ({[v]} ∪ d))); [| done].
  intros s p Hp Hs. unfold share_if_alias. destruct (mayAlias db p v); [| eauto].
  apply share_storage_fn_progress; [done | set_solver | by apply Hkeys].
Qed.

Lemma initial_same_storage_progress all_values :
  ∃ ssv, initial_same_storage always_alive db all_values = Ok ssv
         ∧ partition_of (list_to_set all_values) ssv.
Proof.
  unfold initial_same_storage.
  assert (Hgen : ∀ vs d ssv0, partition_of d ssv0 →
            ∃ ssv, for_each (init_value always_alive db) vs ssv0 = Ok ssv
                   ∧ partition_of (list_to_set vs ∪ d) ssv).
  { induction vs as [| v vs IH]; intros d ssv0 H0; simpl.
    - exists ssv0. split; [done |]. destruct H0 as [? <-]. split; [done | set_solver].
    - destruct (init_value_progress d ssv0 v H0) as (ssv1 & H1 & HP1). rewrite H1. simpl.
      destruct (IH _ _ HP1) as (ssv & H & [Hok Hd]). exists ssv. split; [done |].
      split; [done |]. rewrite Hd. set_solver. }
  destruct (Hgen all_values ∅ ∅) as (ssv & H & [Hok Hd]).
  { split; [| by rewrite dom_empty_L]. intros k c. by rewrite lookup_empty. }
  exists ssv. split; [done |]. split; [done |]. rewrite Hd. set_solver.
Qed.

Lemma share_with_first_free_progress d ssv live v seen :
  partition_of d ssv → v ∈ d → (∀ s, s ∈ seen → s ∈ d) →
  ∃ ssv', share_with_first_free ssv live v seen = Ok ssv' ∧ partition_of d ssv'.
Proof.
  intros HP Hv. induction seen as [| s seen IH]; intros Hseen; simpl; [eauto |].
  assert (Hs : s ∈ d) by (apply Hseen; by left).
  destruct HP as [Hok Hdom]. pose proof Hs as Hs'. rewrite <- Hdom in Hs'.
  apply elem_of_dom in Hs' as [c Hc]. unfold intersect_fn, at_key. rewrite Hc. simpl.
  destruct (existsb _ c).
  - apply IH. intros s' Hs'. apply Hseen. by right.
  - by apply share_storage_fn_progress.
Qed.

Lemma reuse_value_progress d acc v :
  partition_of d acc.1 → (∀ s, s ∈ acc.2 → s ∈ d) → v ∈ d →
  ∃ acc', reuse_value alive_during always_alive acc v = Ok acc'
          ∧ partition_of d acc'.1 ∧ (∀ s, s ∈ acc'.2 → s ∈ d).
Proof.
  intros HP Hseen Hv. unfold reuse_value.
  destruct (decide (v ∈ always_alive)); [eauto |].
  assert (Hc : is_Some (acc.1 !! v)).
  { apply elem_of_dom. destruct HP as [_ ->]. done. }
  destruct Hc as [c Hc]. unfold compute_liveset_fn, at_key. rewrite Hc. simpl.
  destruct (share_with_first_free_progress d acc.1
              (foldl (fun live sv => live_of alive_during sv ∪ live) ∅ c ∪ always_alive)
              v acc.2 HP Hv Hseen) as (ssv' & H & HP').
  rewrite H. simpl. eexists. split; [done |]. split; [done |].
  intros s [Hs | ->%list_elem_of_singleton]%elem_of_app; [by apply Hseen | done].
Qed.

(** X4: [GenerateSameStorageValues] does not throw when every candidate is
    among the values it is given, and its result is a partition of those
    values: every value has a cluster, a cluster holds its key, the members
    of a cluster all have that cluster, and two clusters with a member in
    common are the same. *)
Theorem GenerateSameStorageValues_partition (optimizable : list Value * list Value) :
  (∀ v, v ∈ optimizable.1 → v ∈ optimizable.2) →
  ∃ ssv,
    GenerateSameStorageValues alive_during always_alive db optimizable = Ok ssv
    ∧ (∀ v, v ∈ dom ssv ↔ v ∈ optimizable.2)
    ∧ (∀ k c, ssv !! k = Some c → k ∈ c ∧ ∀ x, x ∈ c → ssv !! x = Some c)
    ∧ (∀ k1 k2 c1 c2 x,
         ssv !! k1 = Some c1 → ssv !! k2 = Some c2 → x ∈ c1 → x ∈ c2 → c1 = c2).
Proof.
  intros Hsub. unfold GenerateSameStorageValues.
  destruct (initial_same_storage_progress optimizable.2) as (ssv0 & H0 & HP0).
  rewrite H0. simpl.
  destruct (for_each_progress
              (fun acc : gmap Value (list Value) * list Value =>
                 partition_of (list_to_set optimizable.2) acc.1
                 ∧ ∀ s, s ∈ acc.2 → s ∈ (list_to_set optimizable.2 : gset Value))
              (reuse_value alive_during always_alive) optimizable.1 (ssv0, []))
    as (r & Hr & [[Hok Hdom] _]).
  - intros acc v Hv [HP Hseen].
    destruct (reuse_value_progress _ acc v HP Hseen) as (acc' & H & HP' & Hseen').
    { apply elem_of_list_to_set. by apply Hsub. }
    eauto.
  - split; [done |]. by intros s Hs%elem_of_nil.
  - rewrite Hr. simpl. exists r.1. split; [done |]. split; [| split].
    + intros v. rewrite Hdom. apply elem_of_list_to_set.
    + exact Hok.
    + intros k1 k2 c1 c2 x H1 H2 Hx1 Hx2.
      destruct (Hok k1 c1 H1) as [_ Hm1]. destruct (Hok k2 c2 H2) as [_ Hm2].
      specialize (Hm1 x Hx1). specialize (Hm2 x Hx2). congruence.
Qed.

End PartitionFacts.

(** *** The recursion of [add_live_value_fn] is bounded *)

Lemma bind_fueled {A B} (m : result A) (f : A → result B) :
  m ≠ OutOfFuel → (∀ a, m = Ok a → f a ≠ OutOfFuel) → m ≫= f ≠ OutOfFuel.
Proof. destruct m; simpl; intros Hm Hf; [by apply Hf | done | done]. Qed.

Lemma for_each_fueled {A S} (P : S → Prop) (body : S → A → result S) xs st :
  (∀ s x, x ∈ xs → P s → body s x ≠ OutOfFuel ∧ ∀ s', body s x = Ok s' → P s') →
  P st → for_each body xs st ≠ OutOfFuel.
Proof.
  revert st. induction xs as [| x xs IH]; intros st Hbody HP; simpl; [done |].
  destruct (Hbody st x) as [Hne Hnext]; [by left | done |].
  apply bind_fueled; [done |]. intros s1 H1. apply IH; [| by apply Hnext].
  intros s y Hy. apply Hbody. by right.
Qed.

Lemma at_key_fueled `{Countable K} {V} (m : gmap K V) k : at_key m k ≠ OutOfFuel.
Proof. unfold at_key. by destruct (m !! k). Qed.

(** The values of [vs] with no entry yet. *)
Definition unseen (d : gset Value) (vs : list Value) : nat :=
  length (filter (fun x => x ∉ d) vs).

Lemma unseen_mono (d d' : gset Value) vs : d ⊆ d' → unseen d' vs ≤ unseen d vs.
Proof.
  intros Hsub. unfold unseen. induction vs as [| x vs IH]; [done |].
  rewrite !filter_cons. destruct (decide (x ∉ d')), (decide (x ∉ d)); simpl; try lia.
  set_solver.
Qed.

Lemma unseen_insert (d : gset Value) v vs :
  v ∈ vs → v ∉ d → unseen ({[v]} ∪ d) vs < unseen d vs.
Proof.
  intros Hv Hd. unfold unseen. induction vs as [| x vs IH]; [by apply elem_of_nil in Hv |].
  rewrite !filter_cons. apply elem_of_cons in Hv as [<- | Hv].
  - rewrite decide_False by set_solver. rewrite decide_True by done. simpl.
    pose proof (unseen_mono d ({[v]} ∪ d) vs ltac:(set_solver)) as Hm. unfold unseen in Hm. lia.
  - specialize (IH Hv).
    destruct (decide (x ∉ {[v]} ∪ d)), (decide (x ∉ d)); simpl; try lia. set_solver.
Qed.

Section FuelFacts.

Variable graph : Graph.
Variable db : AliasDb.

Lemma insert_live_fueled a b lm : insert_live a b lm ≠ OutOfFuel.
Proof. unfold insert_live. apply bind_fueled; [apply at_key_fueled | done]. Qed.

Lemma mark_overlap_fueled v st live_v : mark_overlap v st live_v ≠ OutOfFuel.
Proof.
  unfold mark_overlap. apply bind_fueled; [apply insert_live_fueled |]. intros lm1 _.
  apply bind_fueled; [apply insert_live_fueled | done].
Qed.

Lemma record_use_fueled v st node : record_use v st node ≠ OutOfFuel.
Proof.
  unfold record_use. apply bind_fueled; [apply at_key_fueled | done].
Qed.

Lemma record_uses_fueled v nodes st : for_each (record_use v) nodes st ≠ OutOfFuel.
Proof.
  apply (for_each_fueled (fun _ => True)); [| done].
  intros s x _ _. split; [apply record_use_fueled | done].
Qed.

Lemma refined_aliases_created v a :
  a ∈ refined_aliases graph db v → a ∈ values_in_creation_order graph.
Proof.
  unfold refined_aliases. intros [_ Ha]%list_elem_of_filter.
  apply list_elem_of_lookup in Ha as [i Hi]. rewrite lookup_drop in Hi.
  by eapply list_elem_of_lookup_2.
Qed.

Lemma add_live_value_fn_step fuel v st :
  add_live_value_fn graph db (S fuel) v st
  = if decide (v ∈ dom (liveness_map st)) then Ok st
    else
      let st := set_liveness_map (<[v := ∅]> (liveness_map st)) st in
      st ← for_each (mark_overlap v) (elements (dom (live_values_use_chain st))) st;
      let st :=
        match uses graph v with
        | [] => st
        | _ :: _ => set_use_chain (<[v := ∅]> (live_values_use_chain st)) st
        end in
      st ← for_each (record_use v) (uses graph v) st;
      for_each
        (fun st aliased_v =>
           st ← add_live_value_fn graph db fuel aliased_v st;
           for_each (record_use v) (uses graph aliased_v) st)
        (refined_aliases graph db v) st.
Proof. reflexivity. Qed.

Lemma add_live_value_fn_fueled fuel v st :
  live_ok st → v ∈ values_in_creation_order graph →
  unseen (dom (liveness_map st)) (values_in_creation_order graph) ≤ fuel →
  add_live_value_fn graph db (S fuel) v st ≠ OutOfFuel.
Proof.
  revert v st. induction fuel as [| fuel IH]; intros v st Hst Hv Hfuel;
    rewrite add_live_value_fn_step;
    (destruct (decide (v ∈ dom (liveness_map st))) as [Hin | Hin]; [done |]);
    cbv zeta.
  { pose proof (unseen_insert _ _ _ Hv Hin). lia. }
  set (d := {[v]} ∪ dom (liveness_map st)).
  assert (Hd : unseen d (values_in_creation_order graph) ≤ fuel).
  { pose proof (unseen_insert _ _ _ Hv Hin). subst d. lia. }
  assert (H0 : live_ok_above d (set_liveness_map (<[v:=∅]> (liveness_map st)) st)).
  { destruct Hst as [Hsym Hdom]. split; [split |]; simpl.
    - intros x y (s & Hs & Hy). destruct (decide (x = v)) as [-> | Hne].
      { rewrite lookup_insert_eq in Hs. injection Hs as <-. by apply not_elem_of_empty in Hy. }
      rewrite lookup_insert_ne in Hs by done.
      destruct (Hsym x y) as (s' & Hs' & Hx); [by exists s |].
      exists s'. split; [| done]. rewrite lookup_insert_ne; [done |].
      intros <-. apply Hin. apply elem_of_dom. eauto.
    - rewrite dom_insert_L. set_solver.
    - rewrite dom_insert_L. done. }
  apply bind_fueled.
  { apply (for_each_fueled (fun _ => True)); [| done].
    intros s x _ _. split; [apply mark_overlap_fueled | done]. }
  intros st1 H1.
  assert (Hst1 : live_ok_above d st1).
  { revert H1. apply for_each_invariant; [| exact H0].
    intros s n s' _ [Hs Hd'] Hm. apply (mark_overlap_live_ok _ _ _ _ Hs) in Hm as [Hm1 Hm2].
    split; [done | by rewrite Hm2]. }
  apply bind_fueled; [apply record_uses_fueled |]. intros st2 H2.
  assert (Hst2 : live_ok_above d st2).
  { apply (record_uses_live_ok d) in H2; [done |].
    destruct (uses graph v); [done |]. destruct Hst1 as [[Hsym Hdom] Hd1].
    split; [split |]; simpl; [done | | done].
    rewrite dom_insert_L. subst d. set_solver. }
  apply (for_each_fueled (live_ok_above d)); [| done].
  intros s a Ha [Hs Hds]. split.
  - apply bind_fueled; [| intros; apply record_uses_fueled].
    apply IH; [done | by eapply refined_aliases_created |].
    etrans; [apply (unseen_mono d) |]; done.
  - intros s' Hb. apply bind_Ok in Hb as (s1 & Ha1 & Hb).
    apply (add_live_value_fn_live_ok _ _ _ _ _ _ Hs) in Ha1 as [Hs1 Hsub].
    apply (record_uses_live_ok d) in Hb; [done |]. split; [done | set_solver].
Qed.

Lemma retire_use_fueled node acc v : retire_use node acc v ≠ OutOfFuel.
Proof. unfold retire_use. apply bind_fueled; [apply at_key_fueled | done]. Qed.

Lemma traverse_node_fn_fueled node st : traverse_node_fn node st ≠ OutOfFuel.
Proof.
  unfold traverse_node_fn. destruct (live_nodes_def_chain st !! node); [| done].
  apply (for_each_fueled (fun _ => True)); [| done].
  intros s x _ _. split; [apply retire_use_fueled | done].
Qed.

Lemma elem_of_values_in_creation_order n o :
  n ∈ nodes graph → o ∈ outputs n → o ∈ values_in_creation_order graph.
Proof.
  unfold values_in_creation_order. generalize (nodes graph).
  intros ns. induction ns as [| m ns IH]; simpl; [by intros Hn%elem_of_nil |].
  intros [-> | Hn]%elem_of_cons Ho; apply elem_of_app; [by left | right; by apply IH].
Qed.

(** X5: the recursion of [add_live_value_fn] ends within the stack the
    scan allows it, one frame for each value created in the graph and one
    more: [GetLivenessMap] returns or throws. *)
Theorem GetLivenessMap_fueled (always_alive : gset Value) :
  GetLivenessMap graph db always_alive ≠ OutOfFuel.
Proof.
  unfold GetLivenessMap. apply bind_fueled.
  2:{ intros st _. apply bind_fueled; [| done].
      apply (for_each_fueled (fun _ => True)); [| done].
      intros s x _ _. split; [| done]. unfold check_still_live, torch_check.
      by destruct (bool_decide _). }
  assert (H0 : live_ok {| liveness_map := ∅; live_values_use_chain := ∅;
                          live_nodes_def_chain := ∅ |}).
  { split; simpl; [| done]. intros x y (s & Hs & _). by rewrite lookup_empty in Hs. }
  apply (for_each_fueled live_ok); [| exact H0].
  intros st n Hn Hst. split; [| intros st'; by apply scan_node_live_ok].
  assert (Hnode : n.2 ∈ nodes graph).
  { unfold numbered_nodes in Hn. apply list_elem_of_lookup in Hn as [k Hk].
    apply lookup_zip_with_Some in Hk as (a & b & -> & _ & Hb). simpl.
    by eapply list_elem_of_lookup_2. }
  unfold scan_node. apply bind_fueled.
  2:{ intros st1 _. apply bind_fueled; [apply traverse_node_fn_fueled | done]. }
  apply (for_each_fueled live_ok); [| done].
  intros s o Ho Hs. unfold activate_output.
  destruct (decide (o ∈ always_alive)); [split; [done | by intros s' [= <-]] |].
  split.
  - apply add_live_value_fn_fueled; [done | by eapply elem_of_values_in_creation_order |].
    unfold unseen. etrans; [apply length_filter |]. done.
  - intros s' Ha. by apply add_live_value_fn_live_ok in Ha as [? _].
Qed.

End FuelFacts.

End Analysis.

(** ** The module, the runtime and the memory planner *)

Module Runtime.

Import IR Analysis.

Record StaticModuleOptions : Type := {
  cleanup_activations : bool;
  enable_out_variant : bool;
  optimize_memory : bool;
  optimize_graph_output_memory : bool;
}.

(** A [c10::StorageImpl]: its data pointer ([None] is [nullptr]) and its
    size in bytes. *)
Record StorageImpl : Type := {
  data : option Z;
  nbytes : Z;
}.

(** [StorageImpl::reset()] of [c10/core/StorageImpl.h]: the data pointer is
    cleared and the size becomes zero. *)
Definition reset (s : StorageImpl) : StorageImpl :=
  {| data := None; nbytes := 0 |}.

(** An out-variant or native handler: from the values of the inputs, the
    output slots and the storages to the new output slots and storages. *)
Definition Kernel : Type :=
  list IValue -> list IValue -> gmap StorageId StorageImpl ->
  result (list IValue * gmap StorageId StorageImpl).

(** A boxed operator works on a stack. *)
Definition Operation : Type :=
  list IValue -> gmap StorageId StorageImpl ->
  result (list IValue * gmap StorageId StorageImpl).

(** The kernel library of [runtime/static/ops.h] and the operator registry. *)
Record KernelLibrary : Type := {
  canReuseInputsOutputs : Node -> bool;
  isOptimizableContainerType : Node -> bool;
  getOutOfPlaceOperation : Node -> option Kernel;
  getNativeOperation : Node -> option Kernel;
  nativeOpIsRegistered : NodeKind -> bool;
  hasVarArgs : Node -> bool;
  getOperation : Node -> Operation;
}.

(** Where an [IValue*] of the runtime points. *)
Inductive IValuePtr : Type :=
| InputSlot (i : nat)
| ConstantSlot (i : nat)
| OutputSlot (node i : nat).

#[global] Instance IValuePtr_eq_dec : EqDecision IValuePtr.
Proof. solve_decision. Defined.

(** The origin of a [DefInfo]: one of the two sentinels, or the index of
    the node that defines the value. *)
Inductive Origin : Type :=
| INPUT_VALUE
| CONSTANT_VALUE
| NodeIndex (node_idx : nat).

Definition DefInfo : Type := Origin * nat.

Record ProcessedNode : Type := {
  node_ : Node;
  p_inputs_ : list (option IValuePtr);
  p_outputs_ : list IValue;
  fn_ : option Kernel;
  native_fn_ : option Kernel;
  op_ : option Operation;
}.

Definition has_out_variant (pn : ProcessedNode) : bool :=
  match fn_ pn with
  | Some _ => true
  | None => false
  end.

Definition set_outputs (outs : list IValue) (pn : ProcessedNode) : ProcessedNode :=
  {| node_ := node_ pn; p_inputs_ := p_inputs_ pn; p_outputs_ := outs;
     fn_ := fn_ pn; native_fn_ := native_fn_ pn; op_ := op_ pn |}.

Definition set_inputs_of (ins : list (option IValuePtr)) (pn : ProcessedNode)
  : ProcessedNode :=
  {| node_ := node_ pn; p_inputs_ := ins; p_outputs_ := p_outputs_ pn;
     fn_ := fn_ pn; native_fn_ := native_fn_ pn; op_ := op_ pn |}.

Inductive MemOverlapStatus : Type :=
| FULL
| PARTIAL
| NO
| TOO_HARD.

Record Module : Type := {
  forward_schema : FunctionSchema;
  module_ivalue : IValue;
}.

Record StaticModule : Type := {
  opts_ : StaticModuleOptions;
  graph_ : Graph;
  module_ : option Module;
  schema_ : option FunctionSchema;
  first_input_is_self_ : bool;
  constants_ : list IValue;
  node_inputs_ssa_def_map_ : gmap nat (list DefInfo);
  output_ssa_defs_ : list DefInfo;
  sm_nodes_ : list ProcessedNode;
  external_values_ : gset Value;
  value_to_same_storage_values_ : gmap Value (list Value);
}.

Record MemoryPlanner : Type := {
  managed_tensors_ : list (Z * list (nat * nat));
  unmanaged_ivalues_ : list (nat * nat);
  managed_bytes_ : Z;
  reused_tensors_ : Z;
  buffer_ : option Z;
}.

(** What an observer of a run can see happen. *)
Inductive Event : Type :=
| AllocateBuffer (size : Z)
| RunNode (idx : nat)
| CheckForMemoryLeak.

#[global] Instance Event_eq_dec : EqDecision Event.
Proof. solve_decision. Defined.

Record StaticRuntime : Type := {
  static_module_ : StaticModule;
  (** the constants pool of the module, which the runtime points into *)
  constants : list IValue;
  inputs_ : list IValue;
  nodes_ : list ProcessedNode;
  outputs_ : list IValuePtr;
  planner_ : option MemoryPlanner;
  (** the storages the tensors of the slots refer to *)
  storages : gmap StorageId StorageImpl;
  trace : list Event;
}.

Section WithCollaborators.

Variable lib : KernelLibrary.

(** [AliasDb alias_db(graph_)] *)
Variable alias_analysis : Graph -> AliasDb.

(** The passes of [OptimizeGraph], all defined elsewhere. *)
Variable OptimizeGraph : Graph -> StaticModuleOptions -> Graph.

(** [at::get_overlap_status] on the tensors of two slots. *)
Variable get_overlap_status : option StorageId -> option StorageId -> MemOverlapStatus.

(** [schema->checkAndNormalizeInputs(stack, kwargs)] *)
Variable checkAndNormalizeInputs :
  FunctionSchema -> list IValue -> list (string * IValue) -> result (list IValue).

(** [c10::GetCPUCachingAllocator()->allocate(size)]: the address handed out. *)
Variable cpu_caching_allocate : Z -> Z.

(** [c10::gAlignment] *)
Variable gAlignment : Z.

(** Whether the build keeps its debug assertions ([NDEBUG] not defined). *)
Variable debug : bool.

(** [DCHECK(cond)] *)
Definition dcheck (cond : bool) : result unit :=
  if debug && negb cond then Throw DcheckFailed else Ok tt.

(** *** [canEnableStaticRuntime] and the preparation of the graph *)

Definition check_node (acc : bool * bool) (n : Node) : bool * bool :=
  let has_blocks := if decide (0 < blocks n)%nat then true else acc.2 in
  if is_constant n then (acc.1, has_blocks)
  else if negb (has_operator n) && negb (nativeOpIsRegistered lib (kind n))
       then (false, has_blocks)
       else (acc.1, has_blocks).

Definition canEnableStaticRuntime (g : Graph) : bool :=
  let r := foldl check_node (true, false) (nodes g) in
  if r.2 then false else r.1.

Definition PrepareGraphForStaticModule (g : Graph) (opts : StaticModuleOptions)
  : result Graph :=
  _ ← torch_check (canEnableStaticRuntime g) CheckFailed;
  Ok (OptimizeGraph g opts).

Definition hasUses (g : Graph) (v : Value) : bool :=
  match uses g v with
  | [] => false
  | _ :: _ => true
  end.

(** [graph->eraseInput(0)] *)
Definition eraseInput0 (g : Graph) : Graph :=
  {| graph_inputs := drop 1 (graph_inputs g); graph_outputs := graph_outputs g;
     nodes := nodes g; value_type := value_type g |}.

Definition RemoveSelfFromGraphInput (g : Graph) : result (bool * Graph) :=
  match graph_inputs g with
  | [] => Throw OutOfRange
  | v :: _ =>
      match value_type g v with
      | ModuleType => if hasUses g v then Ok (false, g) else Ok (true, eraseInput0 g)
      | _ => Ok (true, g)
      end
  end.

Definition RemoveSelfFromSchema (s : FunctionSchema) : result FunctionSchema :=
  match arguments s with
  | a :: rest =>
      _ ← torch_check (bool_decide (a = "self"%string)) CheckFailed;
      Ok {| arguments := rest; is_mutable := is_mutable s |}
  | [] => Throw CheckFailed
  end.

(** *** [ProcessedNode::ProcessedNode] *)

Definition ProcessedNode_new (node : Node) (ins : list (option IValuePtr))
  (enable_out_variant : bool) : result ProcessedNode :=
  let outs := replicate (length (outputs node)) IVNone in
  let fn := if enable_out_variant then getOutOfPlaceOperation lib node else None in
  match fn with
  | Some _ =>
      Ok {| node_ := node; p_inputs_ := ins; p_outputs_ := outs;
            fn_ := fn; native_fn_ := None; op_ := None |}
  | None =>
      match getNativeOperation lib node with
      | Some native =>
          Ok {| node_ := node; p_inputs_ := ins; p_outputs_ := outs;
                fn_ := None; native_fn_ := Some native; op_ := None |}
      | None =>
          (* [node->getOperator()] throws when the node has no operator *)
          _ ← torch_check (has_operator node) CheckFailed;
          Ok {| node_ := node; p_inputs_ := ins; p_outputs_ := outs;
                fn_ := None; native_fn_ := None; op_ := Some (getOperation lib node) |}
      end
  end.

(** *** [StaticModule::StaticModule] *)

(** The two checks on the flags that open the constructor. *)
Definition check_opt_flags (opts : StaticModuleOptions) : result unit :=
  _ ← (if optimize_graph_output_memory opts
       then torch_check (enable_out_variant opts && optimize_memory opts)
              GraphOutputMemoryNeedsOutVariantAndMemory
       else Ok tt);
  if optimize_memory opts
  then torch_check (enable_out_variant opts) MemoryNeedsOutVariant
  else Ok tt.

(** The block that handles the schema when there is a module. *)
Definition handle_schema (g : Graph) (m : option Module)
  : result (Graph * option FunctionSchema * bool) :=
  match m with
  | None => Ok (g, None, false)
  | Some md =>
      r ← RemoveSelfFromGraphInput g;
      if r.1 : bool
      then s ← RemoveSelfFromSchema (forward_schema md); Ok (r.2, Some s, false)
      else Ok (r.2, Some (forward_schema md), true)
  end.

(** [value_to_ivalue] and [value_to_ssa_def] *)
Record Wiring : Type := {
  value_to_ivalue : gmap Value (option IValuePtr);
  value_to_ssa_def : gmap Value DefInfo;
}.

Definition wire (v : Value) (p : option IValuePtr) (d : DefInfo) (w : Wiring) : Wiring :=
  {| value_to_ivalue := <[v := p]> (value_to_ivalue w);
     value_to_ssa_def := <[v := d]> (value_to_ssa_def w) |}.

Definition wire_inputs (g : Graph) : Wiring :=
  foldl (fun w iv => wire iv.2 None (INPUT_VALUE, iv.1) w)
        {| value_to_ivalue := ∅; value_to_ssa_def := ∅ |}
        (zip (seq 0 (length (graph_inputs g))) (graph_inputs g)).

(** [node->output()] asserts that the node has one output. *)
Definition single_output (n : Node) : result Value :=
  match outputs n with
  | [v] => Ok v
  | _ => Throw CheckFailed
  end.

(** Body of the loop that fills [constants_]. *)
Definition fill_constant (g : Graph) (cs : list IValue) (n : Node) : result (list IValue) :=
  if is_constant n
  then
    v ← single_output n;
    _ ← torch_check (bool_decide (value_type g v ≠ FunctionType)) CheckFailed;
    match constant_ivalue n with
    | Some c => Ok (cs ++ [c])
    | None => Throw CheckFailed
    end
  else Ok cs.

(** Body of the loop that gives the constants their definitions. *)
Definition wire_constant (acc : nat * Wiring) (n : Node) : result (nat * Wiring) :=
  if is_constant n
  then
    v ← single_output n;
    Ok (S acc.1, wire v (Some (ConstantSlot acc.1)) (CONSTANT_VALUE, acc.1) acc.2)
  else Ok acc.

Record Build : Type := {
  node_idx : nat;
  wiring : Wiring;
  index_map : gmap nat (list DefInfo);
  built : list ProcessedNode;
}.

Definition wire_outputs (idx : nat) (outs : list Value) (w : Wiring) : Wiring :=
  foldl (fun w iv => wire iv.2 None (NodeIndex idx, iv.1) w) w
        (zip (seq 0 (length outs)) outs).

(** Body of the loop over the nodes that are not constants. *)
Definition build_node (enable_out_variant : bool) (b : Build) (n : Node) : result Build :=
  if is_constant n then Ok b
  else
    io ← for_each
           (fun (acc : list (option IValuePtr) * list DefInfo) input =>
              p ← at_key (value_to_ivalue (wiring b)) input;
              d ← at_key (value_to_ssa_def (wiring b)) input;
              Ok (acc.1 ++ [p], acc.2 ++ [d]))
           (inputs n) ([], []);
    pn ← ProcessedNode_new n io.1 enable_out_variant;
    Ok {| node_idx := S (node_idx b);
          wiring := wire_outputs (node_idx b) (outputs n) (wiring b);
          index_map := <[node_idx b := io.2]> (index_map b);
          built := built b ++ [pn] |}.

(** [value_to_ssa_def[output]]: a missing key reads as a fresh pair of zeros. *)
Definition output_def (w : Wiring) (output : Value) : DefInfo :=
  default (NodeIndex 0, 0%nat) (value_to_ssa_def w !! output).

(** The constructor after the checks on the flags. *)
Definition StaticModule_build (graph_and_module : Graph * option Module)
  (opts : StaticModuleOptions) : result StaticModule :=
  h ← handle_schema graph_and_module.1 graph_and_module.2;
  let g := h.1.1 in
  cs ← for_each (fill_constant g) (nodes g) [];
  cw ← for_each wire_constant (nodes g) (0%nat, wire_inputs g);
  b ← for_each (build_node (enable_out_variant opts)) (nodes g)
        {| node_idx := 0; wiring := cw.2; index_map := ∅; built := [] |};
  let alias_db := alias_analysis g in
  let external := GetAlwaysAliveValues g alias_db in
  ssv ← (if optimize_memory opts
         then
           lm ← GetLivenessMap g alias_db external;
           GenerateSameStorageValues lm external alias_db
             (GetMemoryPlanningCandidates g (canReuseInputsOutputs lib))
         else Ok ∅);
  Ok {| opts_ := opts; graph_ := g; module_ := graph_and_module.2;
        schema_ := h.1.2; first_input_is_self_ := h.2;
        constants_ := cs;
        node_inputs_ssa_def_map_ := index_map b;
        output_ssa_defs_ := map (output_def (wiring b)) (graph_outputs g);
        sm_nodes_ := built b;
        external_values_ := external;
        value_to_same_storage_values_ := ssv |}.

Definition StaticModule_new (graph_and_module : Graph * option Module)
  (opts : StaticModuleOptions) : result StaticModule :=
  _ ← check_opt_flags opts;
  StaticModule_build graph_and_module opts.

(** The constructor from a graph. *)
Definition StaticModule_of_graph (g : Graph) (opts : StaticModuleOptions)
  : result StaticModule :=
  g' ← PrepareGraphForStaticModule g opts;
  StaticModule_new (g', None) opts.

Definition num_outputs (sm : StaticModule) : nat := length (graph_outputs (graph_ sm)).
Definition num_inputs (sm : StaticModule) : nat := length (graph_inputs (graph_ sm)).

(** *** [StaticRuntime::StaticRuntime] *)

Definition resolve (d : DefInfo) : IValuePtr :=
  match d.1 with
  | INPUT_VALUE => InputSlot d.2
  | CONSTANT_VALUE => ConstantSlot d.2
  | NodeIndex n => OutputSlot n d.2
  end.

(** Body of the loop that hooks up the inputs of the node [idx]. *)
Definition hook_input (sm : StaticModule) (idx : nat)
  (acc : list (option IValuePtr)) (ip : nat * option IValuePtr)
  : result (list (option IValuePtr)) :=
  match ip.2 with
  | Some p => Ok (acc ++ [Some p])
  | None =>
      defs ← at_key (node_inputs_ssa_def_map_ sm) idx;
      match defs !! ip.1 with
      | Some d => Ok (acc ++ [Some (resolve d)])
      | None => Throw UndefinedBehaviour
      end
  end.

Definition hook_node (sm : StaticModule) (acc : list ProcessedNode)
  (ipn : nat * ProcessedNode) : result (list ProcessedNode) :=
  ins ← for_each (hook_input sm ipn.1)
          (zip (seq 0 (length (p_inputs_ ipn.2))) (p_inputs_ ipn.2)) [];
  Ok (acc ++ [set_inputs_of ins ipn.2]).

Definition StaticRuntime_new (sm : StaticModule) : result StaticRuntime :=
  ns ← for_each (hook_node sm) (zip (seq 0 (length (sm_nodes_ sm))) (sm_nodes_ sm)) [];
  Ok {| static_module_ := sm;
        constants := constants_ sm;
        inputs_ := replicate (num_inputs sm) IVNone;
        nodes_ := ns;
        outputs_ := map resolve (output_ssa_defs_ sm);
        planner_ := None;
        storages := ∅;
        trace := [] |}.

(** *** Slots and storages *)

Definition set_memory (ns : list ProcessedNode) (h : gmap StorageId StorageImpl)
  (rt : StaticRuntime) : StaticRuntime :=
  {| static_module_ := static_module_ rt; constants := constants rt;
     inputs_ := inputs_ rt; nodes_ := ns; outputs_ := outputs_ rt;
     planner_ := planner_ rt; storages := h; trace := trace rt |}.

Definition set_inputs_ (ins : list IValue) (rt : StaticRuntime) : StaticRuntime :=
  {| static_module_ := static_module_ rt; constants := constants rt;
     inputs_ := ins; nodes_ := nodes_ rt; outputs_ := outputs_ rt;
     planner_ := planner_ rt; storages := storages rt; trace := trace rt |}.

Definition set_constants (cs : list IValue) (rt : StaticRuntime) : StaticRuntime :=
  {| static_module_ := static_module_ rt; constants := cs;
     inputs_ := inputs_ rt; nodes_ := nodes_ rt; outputs_ := outputs_ rt;
     planner_ := planner_ rt; storages := storages rt; trace := trace rt |}.

Definition set_planner (pl : option MemoryPlanner) (rt : StaticRuntime) : StaticRuntime :=
  {| static_module_ := static_module_ rt; constants := constants rt;
     inputs_ := inputs_ rt; nodes_ := nodes_ rt; outputs_ := outputs_ rt;
     planner_ := pl; storages := storages rt; trace := trace rt |}.

Definition log (es : list Event) (rt : StaticRuntime) : StaticRuntime :=
  {| static_module_ := static_module_ rt; constants := constants rt;
     inputs_ := inputs_ rt; nodes_ := nodes_ rt; outputs_ := outputs_ rt;
     planner_ := planner_ rt; storages := storages rt; trace := trace rt ++ es |}.

(** Reading through a pointer that points at nothing is undefined. *)
Definition defined {A} (o : option A) : result A :=
  match o with
  | Some a => Ok a
  | None => Throw UndefinedBehaviour
  end.

(** [pnode.Output(i)] of the node [n] *)
Definition output_slot (ns : list ProcessedNode) (n i : nat) : option IValue :=
  pn ← ns !! n; p_outputs_ pn !! i.

Definition write_output_slot (ns : list ProcessedNode) (n i : nat) (v : IValue)
  : result (list ProcessedNode) :=
  pn ← defined (ns !! n);
  _ ← defined (p_outputs_ pn !! i);
  Ok (<[n := set_outputs (<[i := v]> (p_outputs_ pn)) pn]> ns).

Definition deref (rt : StaticRuntime) (p : IValuePtr) : option IValue :=
  match p with
  | InputSlot i => inputs_ rt !! i
  | ConstantSlot i => constants rt !! i
  | OutputSlot n i => output_slot (nodes_ rt) n i
  end.

Definition assign (rt : StaticRuntime) (p : IValuePtr) (v : IValue) : result StaticRuntime :=
  match p with
  | InputSlot i =>
      _ ← defined (inputs_ rt !! i); Ok (set_inputs_ (<[i := v]> (inputs_ rt)) rt)
  | ConstantSlot i =>
      _ ← defined (constants rt !! i); Ok (set_constants (<[i := v]> (constants rt)) rt)
  | OutputSlot n i =>
      ns ← write_output_slot (nodes_ rt) n i v; Ok (set_memory ns (storages rt) rt)
  end.

(** [tensor->storage()] for an [at::Tensor*] that points into the output
    slot [(n, i)]. *)
Definition tensor_storage (ns : list ProcessedNode) (t : nat * nat) : result StorageId :=
  match output_slot ns t.1 t.2 with
  | Some (IVTensor (Some s)) => Ok s
  | _ => Throw UndefinedBehaviour
  end.

(** *** [MemoryPlanner] *)

(** The outputs of a node as the loops index them: slot [i] with
    [pnode.node()->outputs()[i]]. *)
Definition slot_values (pn : ProcessedNode) : result (list (nat * Value)) :=
  for_each
    (fun acc i => v ← defined (outputs (node_ pn) !! i); Ok (acc ++ [(i, v)]))
    (seq 0 (length (p_outputs_ pn))) [].

Definition classify_output (g : Graph) (external : gset Value) (pn : ProcessedNode)
  (acc : gset Value * gset Value) (iv : nat * Value) : gset Value * gset Value :=
  if decide (iv.2 ∈ external) then acc
  else
    match value_type g iv.2 with
    | TensorType => ({[iv.2]} ∪ acc.1, acc.2)
    | _ =>
        if isOptimizableContainerType lib (node_ pn)
        then (acc.1, {[iv.2]} ∪ acc.2)
        else acc
    end.

Definition collect_managed (g : Graph) (external : gset Value)
  (acc : gset Value * gset Value) (pn : ProcessedNode) : result (gset Value * gset Value) :=
  if has_out_variant pn
  then svs ← slot_values pn; Ok (foldl (classify_output g external pn) acc svs)
  else Ok acc.

Definition collect_unmanaged (managed leaked : gset Value)
  (acc : gset (nat * nat)) (npn : nat * ProcessedNode) : result (gset (nat * nat)) :=
  svs ← slot_values npn.2;
  Ok (foldl
        (fun acc iv =>
           if decide (iv.2 ∈ managed ∨ iv.2 ∈ leaked) then acc
           else {[(npn.1, iv.1)]} ∪ acc)
        acc svs).

Definition erase_output (acc : gset (nat * nat)) (p : IValuePtr) : gset (nat * nat) :=
  match p with
  | OutputSlot n i => acc ∖ {[(n, i)]}
  | _ => acc
  end.

Record Assignment : Type := {
  value_to_storage_idx : gmap Value nat;
  managed_tensors : list (Z * list (nat * nat));
}.

Definition assign_slot (managed : gset Value) (ssv : gmap Value (list Value))
  (n : nat) (pn : ProcessedNode) (a : Assignment) (iv : nat * Value) : result Assignment :=
  if decide (iv.2 ∈ managed)
  then
    ival ← defined (p_outputs_ pn !! iv.1);
    _ ← torch_check (isTensor ival) CheckFailed;
    match value_to_storage_idx a !! iv.2 with
    | Some k =>
        Ok {| value_to_storage_idx := value_to_storage_idx a;
              managed_tensors :=
                alter (fun ms => (ms.1, ms.2 ++ [(n, iv.1)])) k (managed_tensors a) |}
    | None =>
        let mts := managed_tensors a ++ [(0%Z, [(n, iv.1)])] in
        let storage_idx := (length mts - 1)%nat in
        Ok {| value_to_storage_idx :=
                match ssv !! iv.2 with
                | Some cluster =>
                    foldl (fun m v => <[v := storage_idx]> m) (value_to_storage_idx a) cluster
                | None => value_to_storage_idx a
                end;
              managed_tensors := mts |}
    end
  else Ok a.

Definition assign_storage_to_managed_tensors (ns : list ProcessedNode)
  (managed : gset Value) (ssv : gmap Value (list Value))
  : result (list (Z * list (nat * nat))) :=
  a ← for_each
        (fun a (npn : nat * ProcessedNode) =>
           svs ← slot_values npn.2;
           for_each (assign_slot managed ssv npn.1 npn.2) svs a)
        (zip (seq 0 (length ns)) ns)
        {| value_to_storage_idx := ∅; managed_tensors := [] |};
  Ok (managed_tensors a).

Definition MemoryPlanner_new (rt : StaticRuntime) (ssv : gmap Value (list Value))
  (external : gset Value) (enable_out_variant manage_graph_output_memory : bool)
  : result MemoryPlanner :=
  let g := graph_ (static_module_ rt) in
  ml ← (if enable_out_variant
        then for_each (collect_managed g external) (nodes_ rt) (∅, ∅)
        else Ok (∅, ∅));
  um ← for_each (collect_unmanaged ml.1 ml.2)
         (zip (seq 0 (length (nodes_ rt))) (nodes_ rt)) ∅;
  let managed := erase_all (graph_outputs g) ml.1 in
  let unmanaged := foldl erase_output um (outputs_ rt) in
  mts ← (if enable_out_variant
         then assign_storage_to_managed_tensors (nodes_ rt) managed ssv
         else Ok []);
  Ok {| managed_tensors_ := mts;
        unmanaged_ivalues_ := elements unmanaged;
        managed_bytes_ := 0;
        reused_tensors_ := 0;
        buffer_ := None |}.

Abbreviation compute_aligned_tensor_size := (Align.compute_aligned_tensor_size gAlignment).

Record Placement : Type := {
  offset : Z;
  reused : Z;
  placed : gmap StorageId StorageImpl;
}.

(** Body of the loop over the tensors of a cluster in [allocate]. *)
Definition place_tensor (ns : list ProcessedNode) (src tensor_size : Z)
  (acc : Z * gmap StorageId StorageImpl) (t : nat * nat)
  : result (Z * gmap StorageId StorageImpl) :=
  s ← tensor_storage ns t;
  _ ← defined (acc.2 !! s);
  Ok (SizeT.add acc.1 1, <[s := {| data := Some src; nbytes := tensor_size |}]> acc.2).

(** Body of the loop over [managed_tensors_] in [allocate]. *)
Definition place_cluster (ns : list ProcessedNode) (start managed_bytes : Z)
  (st : Placement) (ms : Z * list (nat * nat)) : result Placement :=
  if decide (ms.1 = 0%Z) then Ok st
  else
    _ ← dcheck (bool_decide (SizeT.add (offset st) ms.1 ≤ managed_bytes)%Z);
    r ← for_each (place_tensor ns (start + offset st)%Z ms.1) ms.2 (reused st, placed st);
    Ok {| offset := SizeT.add (offset st) ms.1;
          reused := SizeT.sub r.1 1;
          placed := r.2 |}.

Definition allocate (ns : list ProcessedNode) (h : gmap StorageId StorageImpl)
  (pl : MemoryPlanner)
  : result (MemoryPlanner * gmap StorageId StorageImpl * list Event) :=
  if decide (managed_bytes_ pl = 0%Z) then Ok (pl, h, [])
  else
    let start := cpu_caching_allocate (managed_bytes_ pl) in
    st ← for_each (place_cluster ns start (managed_bytes_ pl)) (managed_tensors_ pl)
           {| offset := 0; reused := 0; placed := h |};
    _ ← dcheck (bool_decide (offset st = managed_bytes_ pl));
    Ok ({| managed_tensors_ := managed_tensors_ pl;
           unmanaged_ivalues_ := unmanaged_ivalues_ pl;
           managed_bytes_ := managed_bytes_ pl;
           reused_tensors_ := reused st;
           buffer_ := Some start |},
        placed st, [AllocateBuffer (managed_bytes_ pl)]).

(** Body of the loop over the tensors of a cluster in [deallocate]. *)
Definition measure_and_reset (ns : list ProcessedNode)
  (acc : Z * gmap StorageId StorageImpl) (t : nat * nat)
  : result (Z * gmap StorageId StorageImpl) :=
  s ← tensor_storage ns t;
  impl ← defined (acc.2 !! s);
  let current_size := compute_aligned_tensor_size (nbytes impl) in
  Ok (Z.max acc.1 current_size, <[s := reset impl]> acc.2).

Record Learned : Type := {
  learned : list (Z * list (nat * nat));
  total : Z;
  freed : gmap StorageId StorageImpl;
}.

(** Body of the loop over [managed_tensors_] in [deallocate]. *)
Definition learn_cluster (ns : list ProcessedNode) (st : Learned)
  (ms : Z * list (nat * nat)) : result Learned :=
  r ← for_each (measure_and_reset ns) ms.2 (ms.1, freed st);
  Ok {| learned := learned st ++ [(r.1, ms.2)];
        total := SizeT.add (total st) r.1;
        freed := r.2 |}.

Definition deallocate (ns : list ProcessedNode) (h : gmap StorageId StorageImpl)
  (pl : MemoryPlanner)
  : result (MemoryPlanner * list ProcessedNode * gmap StorageId StorageImpl) :=
  st ← for_each (learn_cluster ns) (managed_tensors_ pl)
         {| learned := []; total := 0; freed := h |};
  ns' ← for_each (fun ns iv => write_output_slot ns iv.1 iv.2 IVNone)
          (unmanaged_ivalues_ pl) ns;
  Ok ({| managed_tensors_ := learned st;
         unmanaged_ivalues_ := unmanaged_ivalues_ pl;
         managed_bytes_ := total st;
         reused_tensors_ := reused_tensors_ pl;
         buffer_ := None |},
      ns', freed st).

(** *** [ProcessedNode] *)

Definition overlaps (status : MemOverlapStatus) : bool :=
  match status with
  | NO => false
  | _ => true
  end.

(** The inner loop of the check: no tensor among the outputs overlaps [in_t]. *)
Definition clear_of_outputs (in_t : option StorageId) (outs : list IValue) : bool :=
  forallb
    (fun out =>
       match out with
       | IVTensor out_t => negb (overlaps (get_overlap_status in_t out_t))
       | _ => true
       end)
    outs.

(** [ins] are the values the input pointers point at. *)
Definition verify_outputs_not_overlapping_with_immutable_inputs
  (pn : ProcessedNode) (ins : list IValue) : bool :=
  match maybeSchema (node_ pn) with
  | None => true
  | Some schema =>
      if is_mutable schema then true
      else
        forallb
          (fun input =>
             match input with
             | IVTensor in_t => clear_of_outputs in_t (p_outputs_ pn)
             | _ => true
             end)
          ins
  end.

Definition read_inputs (rt : StaticRuntime) (pn : ProcessedNode) : result (list IValue) :=
  for_each
    (fun acc (p : option IValuePtr) =>
       ptr ← defined p; v ← defined (deref rt ptr); Ok (acc ++ [v]))
    (p_inputs_ pn) [].

(** A handler writes into the output slots there are; it cannot add any. *)
Definition write_back (old new : list IValue) : list IValue :=
  take (length old) (new ++ drop (length new) old).

(** The fallback through the boxed operator. *)
Definition run_boxed (pn : ProcessedNode) (ins : list IValue)
  (h : gmap StorageId StorageImpl) : result (list IValue * gmap StorageId StorageImpl) :=
  let size := length (inputs (node_ pn)) in
  _ ← (if decide (size ≤ length ins)%nat then Ok tt else Throw UndefinedBehaviour);
  let stack := take size ins
               ++ (if hasVarArgs lib (node_ pn) then [IVOther size] else []) in
  _ ← dcheck (bool_decide (is_Some (op_ pn)));
  op ← defined (op_ pn);
  r ← op stack h;
  let n := length (outputs (node_ pn)) in
  _ ← dcheck (bool_decide (length r.1 = n));
  _ ← (if decide (n ≤ length r.1)%nat then Ok tt else Throw UndefinedBehaviour);
  Ok (take n r.1, r.2).

(** [ProcessedNode::run] on the node [idx] of the runtime. *)
Definition ProcessedNode_run (rt : StaticRuntime) (idx : nat) : result StaticRuntime :=
  pn ← defined (nodes_ rt !! idx);
  ins ← read_inputs rt pn;
  _ ← dcheck (verify_outputs_not_overlapping_with_immutable_inputs pn ins);
  r ← match fn_ pn, native_fn_ pn with
      | Some fn, _ => fn ins (p_outputs_ pn) (storages rt)
      | None, Some native_fn => native_fn ins (p_outputs_ pn) (storages rt)
      | None, None => run_boxed pn ins (storages rt)
      end;
  Ok (log [RunNode idx]
        (set_memory
           (<[idx := set_outputs (write_back (p_outputs_ pn) r.1) pn]> (nodes_ rt))
           r.2 rt)).

(** *** [StaticRuntime] *)

(** [Input(i) = vals[i]] for every [i]: a write past the end is undefined. *)
Definition assign_inputs (first : nat) (vals : list IValue) (rt : StaticRuntime)
  : result StaticRuntime :=
  if decide (first + length vals ≤ length (inputs_ rt))%nat
  then Ok (set_inputs_
             (take first (inputs_ rt) ++ vals
              ++ drop (first + length vals) (inputs_ rt)) rt)
  else Throw UndefinedBehaviour.

Definition set_inputs (rt : StaticRuntime) (args : list IValue)
  (kwargs : list (string * IValue)) : result StaticRuntime :=
  let sm := static_module_ rt in
  match kwargs with
  | _ :: _ =>
      schema ← match schema_ sm with
               | Some s => Ok s
               | None => Throw CheckFailed
               end;
      self ← (if first_input_is_self_ sm
              then m ← defined (module_ sm); Ok [module_ivalue m]
              else Ok []);
      stack ← checkAndNormalizeInputs schema (self ++ args) kwargs;
      _ ← dcheck (bool_decide (length (inputs_ rt) = length stack));
      assign_inputs 0 stack rt
  | [] =>
      if first_input_is_self_ sm
      then
        m ← defined (module_ sm);
        rt ← assign_inputs 0 [module_ivalue m] rt;
        _ ← dcheck (bool_decide (length (inputs_ rt) = length args + 1)%nat);
        assign_inputs 1 args rt
      else
        _ ← dcheck (bool_decide (length (inputs_ rt) = length args));
        assign_inputs 0 args rt
  end.

(** [clean_up_input_ivalues], declared in [impl.h]: every input slot is
    set to a fresh [IValue()]. *)
Definition clean_up_input_ivalues (rt : StaticRuntime) : StaticRuntime :=
  set_inputs_ (map (fun _ => IVNone) (inputs_ rt)) rt.

(** Body of the loops of [check_for_memory_leak] over the output slots. *)
Definition check_slot (rt : StaticRuntime) (output_returned : bool)
  (n : nat) (pn : ProcessedNode) (_ : unit) (i : nat) : result unit :=
  ival ← defined (p_outputs_ pn !! i);
  _ ← (if decide (i < length (outputs (node_ pn)))%nat then Ok tt else Throw OutOfRange);
  if decide (OutputSlot n i ∈ outputs_ rt)
  then
    if output_returned then torch_check (isNone ival) CheckFailed else Ok tt
  else
    if isNone ival then Ok tt
    else
      _ ← torch_check (isTensor ival || isOptimizableContainerType lib (node_ pn))
            CheckFailed;
      match ival with
      | IVTensor (Some s) =>
          impl ← defined (storages rt !! s);
          torch_check (bool_decide (data impl = None)) CheckFailed
      | _ => Ok tt
      end.

Definition check_for_memory_leak (rt : StaticRuntime) (output_returned : bool)
  : result unit :=
  if negb (cleanup_activations (opts_ (static_module_ rt))) then Ok tt
  else
    _ ← for_each (fun _ (v : IValue) => torch_check (isNone v) CheckFailed) (inputs_ rt) tt;
    for_each
      (fun _ (npn : nat * ProcessedNode) =>
         for_each (check_slot rt output_returned npn.1 npn.2)
           (seq 0 (length (p_outputs_ npn.2))) tt)
      (zip (seq 0 (length (nodes_ rt))) (nodes_ rt)) tt.

(** [std::move] out of a slot: the value leaves, the slot is left holding none. *)
Definition move_out (rt : StaticRuntime) (p : IValuePtr) : result (IValue * StaticRuntime) :=
  v ← defined (deref rt p);
  rt ← assign rt p IVNone;
  Ok (v, rt).

(** The block of [operator()] guarded by [cleanup_activations]. *)
Definition clean_up (rt : StaticRuntime) : result StaticRuntime :=
  let sm := static_module_ rt in
  pl ← match planner_ rt with
       | Some pl => Ok pl
       | None =>
           MemoryPlanner_new rt (value_to_same_storage_values_ sm) (external_values_ sm)
             (enable_out_variant (opts_ sm)) (optimize_graph_output_memory (opts_ sm))
       end;
  r ← deallocate (nodes_ rt) (storages rt) pl;
  Ok (clean_up_input_ivalues (set_planner (Some r.1.1) (set_memory r.1.2 r.2 rt))).

(** [StaticRuntime::operator()] on boxed arguments. *)
Definition invoke (rt : StaticRuntime) (args : list IValue)
  (kwargs : list (string * IValue)) : result (IValue * StaticRuntime) :=
  let sm := static_module_ rt in
  rt ← match planner_ rt with
       | Some pl =>
           r ← allocate (nodes_ rt) (storages rt) pl;
           Ok (log r.2 (set_planner (Some r.1.1) (set_memory (nodes_ rt) r.1.2 rt)))
       | None => Ok rt
       end;
  rt ← set_inputs rt args kwargs;
  rt ← for_each ProcessedNode_run (seq 0 (length (nodes_ rt))) rt;
  rt ← (if cleanup_activations (opts_ sm) then clean_up rt else Ok rt);
  if decide (1 < num_outputs sm)%nat
  then
    r ← for_each
          (fun (acc : list IValue * StaticRuntime) i =>
             p ← defined (outputs_ acc.2 !! i);
             m ← move_out acc.2 p;
             Ok (acc.1 ++ [m.1], m.2))
          (seq 0 (num_outputs sm)) ([], rt);
    Ok (IVTuple r.1, r.2)
  else
    rt ← (if debug
          then _ ← check_for_memory_leak rt false; Ok (log [CheckForMemoryLeak] rt)
          else Ok rt);
    p ← defined (outputs_ rt !! 0%nat);
    move_out rt p.

(** *** The checks on the flags *)

(** The flags contradict one another. *)
Definition conflicting (opts : StaticModuleOptions) : Prop :=
  (optimize_graph_output_memory opts = true
   ∧ ¬ (enable_out_variant opts = true ∧ optimize_memory opts = true))
  ∨ (optimize_memory opts = true ∧ enable_out_variant opts = false).

Lemma check_opt_flags_Ok opts :
  check_opt_flags opts = Ok tt ↔ ¬ conflicting opts.
Proof.
  unfold check_opt_flags, conflicting, torch_check.
  destruct opts as [c e m g]; simpl. destruct e, m, g; simpl; split; intros H;
    try done; try (intros [[? Hn] | [? ?]]; try done; by apply Hn).
  all: exfalso; apply H; first [by right | left; split; [done |]; by intros [? ?]].
Qed.

(** C8: the constructor throws one of its two flag errors when
    [optimize_graph_output_memory] is set without both [enable_out_variant]
    and [optimize_memory], or [optimize_memory] without
    [enable_out_variant]; when both implications hold the two checks pass
    and construction goes on. *)
Theorem StaticModule_new_checks_flags gm opts :
  (conflicting opts →
   StaticModule_new gm opts = Throw GraphOutputMemoryNeedsOutVariantAndMemory
   ∨ StaticModule_new gm opts = Throw MemoryNeedsOutVariant)
  ∧ ((optimize_graph_output_memory opts = true →
      enable_out_variant opts = true ∧ optimize_memory opts = true) →
     (optimize_memory opts = true → enable_out_variant opts = true) →
     check_opt_flags opts = Ok tt
     ∧ StaticModule_new gm opts = StaticModule_build gm opts).
Proof.
  split.
  - intros Hc. unfold StaticModule_new.
    destruct (check_opt_flags opts) as [[] | e |] eqn:Hchk.
    + exfalso. by apply check_opt_flags_Ok in Hchk.
    + unfold check_opt_flags, torch_check in Hchk. simpl.
      destruct (optimize_graph_output_memory opts), (optimize_memory opts),
        (enable_out_variant opts); simpl in Hchk; simplify_eq; auto.
    + unfold check_opt_flags, torch_check in Hchk.
      destruct (optimize_graph_output_memory opts), (optimize_memory opts),
        (enable_out_variant opts); simpl in Hchk; simplify_eq.
  - intros H1 H2.
    assert (Hchk : check_opt_flags opts = Ok tt).
    { apply check_opt_flags_Ok. intros [[Hg Hn] | [Hm He]].
      - apply Hn, H1, Hg.
      - rewrite (H2 Hm) in He. discriminate. }
    split; [exact Hchk |]. unfold StaticModule_new. by rewrite Hchk.
Qed.

(** *** The overlap check of a node *)

Lemma forallb_false {A} (f : A → bool) (l : list A) :
  forallb f l = false ↔ ∃ x, x ∈ l ∧ f x = false.
Proof.
  induction l as [| a l IH]; simpl.
  - split; [done | by intros (x & Hx%elem_of_nil & _)].
  - rewrite andb_false_iff, IH. split.
    + intros [H | (x & Hx & H)]; [exists a | exists x]; split; try done; by constructor.
    + intros (x & Hx & H). apply elem_of_cons in Hx as [-> | Hx]; [by left | right; eauto].
Qed.

(** The claim's words, "the storage overlaps in memory with the storage":
    the region of memory a storage occupies, if it has one, *)
Definition region (h : gmap StorageId StorageImpl) (t : option StorageId)
  : option (Z * Z) :=
  s ← t; impl ← h !! s; d ← data impl; Some (d, nbytes impl).

(** and two regions that have a byte in common. *)
Definition storages_overlap (h : gmap StorageId StorageImpl)
  (a b : option StorageId) : Prop :=
  ∃ ra rb, region h a = Some ra ∧ region h b = Some rb
           ∧ (ra.1 < rb.1 + rb.2)%Z ∧ (rb.1 < ra.1 + ra.2)%Z.

(** C9, as the code has it: the check answers true for a node without
    schema or with a mutable schema; for an immutable schema it answers
    false exactly when the overlap probe answers something other than
    [NO], be it [FULL], [PARTIAL] or [TOO_HARD], for a tensor among the
    inputs and a tensor among the outputs.  So, when the probe answers
    [NO] only for tensors whose storages do not overlap in memory, the
    check answers false whenever the storages of a tensor input and of a
    tensor output overlap; an answer of false does not say that they do.
    In a build with assertions a false answer stops [run] before any
    handler is called. *)
Theorem verify_outputs_not_overlapping_spec pn ins :
  (maybeSchema (node_ pn) = None
   ∨ (∃ schema, maybeSchema (node_ pn) = Some schema ∧ is_mutable schema = true) →
   verify_outputs_not_overlapping_with_immutable_inputs pn ins = true)
  ∧ (∀ schema,
       maybeSchema (node_ pn) = Some schema → is_mutable schema = false →
       (verify_outputs_not_overlapping_with_immutable_inputs pn ins = false
        ↔ ∃ in_t out_t,
            IVTensor in_t ∈ ins ∧ IVTensor out_t ∈ p_outputs_ pn
            ∧ get_overlap_status in_t out_t ≠ NO))
  ∧ (∀ rt idx,
       debug = true → nodes_ rt !! idx = Some pn → read_inputs rt pn = Ok ins →
       verify_outputs_not_overlapping_with_immutable_inputs pn ins = false →
       ProcessedNode_run rt idx = Throw DcheckFailed)
  ∧ (∀ h schema,
       maybeSchema (node_ pn) = Some schema → is_mutable schema = false →
       (∀ in_t out_t,
          IVTensor in_t ∈ ins → IVTensor out_t ∈ p_outputs_ pn →
          get_overlap_status in_t out_t = NO → ¬ storages_overlap h in_t out_t) →
       (∃ in_t out_t,
          IVTensor in_t ∈ ins ∧ IVTensor out_t ∈ p_outputs_ pn
          ∧ storages_overlap h in_t out_t) →
       verify_outputs_not_overlapping_with_immutable_inputs pn ins = false).
Proof.
  assert (Hiff : ∀ schema,
            maybeSchema (node_ pn) = Some schema → is_mutable schema = false →
            (verify_outputs_not_overlapping_with_immutable_inputs pn ins = false
             ↔ ∃ in_t out_t,
                 IVTensor in_t ∈ ins ∧ IVTensor out_t ∈ p_outputs_ pn
                 ∧ get_overlap_status in_t out_t ≠ NO)).
  { intros schema Hs Hm.
    unfold verify_outputs_not_overlapping_with_immutable_inputs. rewrite Hs, Hm.
    rewrite forallb_false. split.
    + intros (input & Hin & Hf). destruct input as [| in_t | |]; try discriminate.
      unfold clear_of_outputs in Hf. apply forallb_false in Hf as (out & Hout & Hf).
      destruct out as [| out_t | |]; try discriminate.
      exists in_t, out_t. split; [done |]. split; [done |].
      intros Hno. rewrite Hno in Hf. discriminate.
    + intros (in_t & out_t & Hin & Hout & Hst). exists (IVTensor in_t).
      split; [done |].
      unfold clear_of_outputs. apply forallb_false. exists (IVTensor out_t).
      split; [done |].
      by destruct (get_overlap_status in_t out_t). }
  split; [| split; [exact Hiff |]; split].
  - unfold verify_outputs_not_overlapping_with_immutable_inputs.
    intros [-> | (schema & -> & ->)]; done.
  - intros rt idx Hd Hpn Hins Hv. unfold ProcessedNode_run.
    rewrite Hpn. simpl. rewrite Hins. simpl. unfold dcheck. rewrite Hd, Hv. done.
  - intros h schema Hs Hm Hsound (in_t & out_t & Hin & Hout & Hov).
    apply (Hiff schema Hs Hm). exists in_t, out_t. split; [done |]. split; [done |].
    intros Hno. by apply (Hsound in_t out_t Hin Hout Hno).
Qed.

(** *** What the steps of a run leave alone *)

(** The fields no step of [operator()] writes. *)
Definition same_wiring (rt rt' : StaticRuntime) : Prop :=
  static_module_ rt' = static_module_ rt ∧ outputs_ rt' = outputs_ rt.

(** A step that, besides, keeps the planner and logs nothing. *)
Definition silent_step (rt rt' : StaticRuntime) : Prop :=
  same_wiring rt rt' ∧ planner_ rt' = planner_ rt ∧ trace rt' = trace rt.

Lemma defined_Ok {A} (o : option A) (a : A) : defined o = Ok a ↔ o = Some a.
Proof. destruct o; simpl; split; intros; simplify_eq; done. Qed.

Lemma torch_check_Ok c e : torch_check c e = Ok tt ↔ c = true.
Proof. destruct c; simpl; split; intros; simplify_eq; done. Qed.

Lemma silent_step_refl rt : silent_step rt rt.
Proof. by repeat split. Qed.

Lemma silent_step_trans rt1 rt2 rt3 :
  silent_step rt1 rt2 → silent_step rt2 rt3 → silent_step rt1 rt3.
Proof.
  intros ([? ?] & ? & ?) ([? ?] & ? & ?). repeat split; congruence.
Qed.

Lemma assign_silent rt p v rt' : assign rt p v = Ok rt' → silent_step rt rt'.
Proof.
  unfold assign, write_output_slot. destruct p; intros H;
    repeat (apply bind_Ok in H as (? & _ & H)); simplify_eq; by repeat split.
Qed.

Lemma assign_inputs_silent first vals rt rt' :
  assign_inputs first vals rt = Ok rt' → silent_step rt rt' ∧ nodes_ rt' = nodes_ rt.
Proof.
  unfold assign_inputs. destruct (decide _); intros Heq; simplify_eq. by repeat split.
Qed.

Lemma set_inputs_silent rt args kwargs rt' :
  set_inputs rt args kwargs = Ok rt' → silent_step rt rt' ∧ nodes_ rt' = nodes_ rt.
Proof.
  unfold set_inputs. destruct kwargs as [| kw kwargs].
  - destruct (first_input_is_self_ (static_module_ rt)); intros H.
    + apply bind_Ok in H as (m & _ & H). apply bind_Ok in H as (rt1 & H1 & H).
      apply bind_Ok in H as (u & _ & H).
      apply assign_inputs_silent in H1 as [H1 Hn1], H as [H Hn].
      split; [by eapply silent_step_trans | congruence].
    + apply bind_Ok in H as (u & _ & H). by apply assign_inputs_silent in H.
  - intros H. apply bind_Ok in H as (schema & _ & H). apply bind_Ok in H as (self & _ & H).
    apply bind_Ok in H as (stack & _ & H). apply bind_Ok in H as (u & _ & H).
    by apply assign_inputs_silent in H.
Qed.

Lemma ProcessedNode_run_logs rt idx rt' :
  ProcessedNode_run rt idx = Ok rt' →
  same_wiring rt rt' ∧ planner_ rt' = planner_ rt
  ∧ trace rt' = trace rt ++ [RunNode idx]
  ∧ length (nodes_ rt') = length (nodes_ rt).
Proof.
  unfold ProcessedNode_run. intros H.
  apply bind_Ok in H as (pn & _ & H). apply bind_Ok in H as (ins & _ & H).
  apply bind_Ok in H as (u & _ & H). apply bind_Ok in H as (r & _ & H).
  simplify_eq. simpl. repeat split; try done. by rewrite length_insert.
Qed.

Lemma run_nodes_logs idxs rt rt' :
  for_each ProcessedNode_run idxs rt = Ok rt' →
  same_wiring rt rt' ∧ planner_ rt' = planner_ rt
  ∧ trace rt' = trace rt ++ map RunNode idxs
  ∧ length (nodes_ rt') = length (nodes_ rt).
Proof.
  revert rt. induction idxs as [| i idxs IH]; intros rt; simpl.
  - intros [= <-]. rewrite app_nil_r. by repeat split.
  - intros H. apply bind_Ok in H as (rt1 & H1 & H).
    apply ProcessedNode_run_logs in H1 as ([Hm1 Ho1] & Hp1 & Ht1 & Hn1).
    apply IH in H as ([Hm Ho] & Hp & Ht & Hn).
    repeat split; try congruence. by rewrite Ht, Ht1, <- app_assoc.
Qed.

Lemma clean_up_quiet rt rt' :
  clean_up rt = Ok rt' →
  same_wiring rt rt' ∧ trace rt' = trace rt ∧ is_Some (planner_ rt').
Proof.
  unfold clean_up. intros H. apply bind_Ok in H as (pl & _ & H).
  apply bind_Ok in H as (r & _ & H). simplify_eq. simpl. by repeat split.
Qed.

Lemma move_out_silent rt p v rt' :
  move_out rt p = Ok (v, rt') → silent_step rt rt'.
Proof.
  unfold move_out. intros H. apply bind_Ok in H as (w & _ & H).
  apply bind_Ok in H as (rt1 & H1 & H). simplify_eq. by apply assign_silent in H1.
Qed.

Lemma move_outputs_silent idxs acc r :
  for_each
    (fun (acc : list IValue * StaticRuntime) i =>
       p ← defined (outputs_ acc.2 !! i);
       m ← move_out acc.2 p;
       Ok (acc.1 ++ [m.1], m.2))
    idxs acc = Ok r →
  silent_step acc.2 r.2.
Proof.
  revert acc. induction idxs as [| i idxs IH]; intros acc; simpl.
  - intros [= <-]. apply silent_step_refl.
  - intros H. apply bind_Ok in H as (acc1 & H1 & H).
    apply bind_Ok in H1 as (p & _ & H1). apply bind_Ok in H1 as ([v rt1] & Hm & H1).
    simplify_eq. apply move_out_silent in Hm. apply IH in H.
    by eapply silent_step_trans.
Qed.

(** The event a call of [allocate] contributes. *)
Definition allocation_events (pl : option MemoryPlanner) : list Event :=
  match pl with
  | Some pl =>
      if decide (managed_bytes_ pl = 0%Z) then [] else [AllocateBuffer (managed_bytes_ pl)]
  | None => []
  end.

Lemma allocate_events ns h pl pl' h' es :
  allocate ns h pl = Ok (pl', h', es) → es = allocation_events (Some pl).
Proof.
  unfold allocate, allocation_events. destruct (decide _); intros H; [by simplify_eq |].
  apply bind_Ok in H as (st & _ & H). apply bind_Ok in H as (u & _ & H). by simplify_eq.
Qed.

(** The event the leak check contributes, when it is reached. *)
Definition leak_check_events (sm : StaticModule) : list Event :=
  if decide (1 < num_outputs sm)%nat then []
  else if debug then [CheckForMemoryLeak] else [].

(** The events of one call of [operator()], in order. *)
Lemma invoke_trace rt args kwargs v rt' :
  invoke rt args kwargs = Ok (v, rt') →
  same_wiring rt rt'
  ∧ trace rt' = trace rt ++ allocation_events (planner_ rt)
                ++ map RunNode (seq 0 (length (nodes_ rt)))
                ++ leak_check_events (static_module_ rt)
  ∧ (¬ (1 < num_outputs (static_module_ rt))%nat → is_Some (outputs_ rt !! 0%nat)).
Proof.
  unfold invoke. intros H.
  apply bind_Ok in H as (rt1 & H1 & H). apply bind_Ok in H as (rt2 & H2 & H).
  apply bind_Ok in H as (rt3 & H3 & H). apply bind_Ok in H as (rt4 & H4 & H).
  assert (Hrt1 : same_wiring rt rt1 ∧ nodes_ rt1 = nodes_ rt
                 ∧ trace rt1 = trace rt ++ allocation_events (planner_ rt)).
  { destruct (planner_ rt) as [pl |] eqn:Hpl.
    - apply bind_Ok in H1 as ([[pl' h'] es] & Ha & H1). simplify_eq. simpl.
      apply allocate_events in Ha as ->. by repeat split.
    - simplify_eq. simpl. rewrite app_nil_r. by repeat split. }
  destruct Hrt1 as ([Hm1 Ho1] & Hn1 & Ht1).
  apply set_inputs_silent in H2 as [([Hm2 Ho2] & Hp2 & Ht2) Hn2].
  apply run_nodes_logs in H3 as ([Hm3 Ho3] & Hp3 & Ht3 & Hn3).
  assert (Hrt4 : same_wiring rt3 rt4 ∧ trace rt4 = trace rt3).
  { destruct (cleanup_activations (opts_ (static_module_ rt))).
    - by apply clean_up_quiet in H4 as (? & ? & _).
    - by simplify_eq. }
  destruct Hrt4 as ([Hm4 Ho4] & Ht4).
  assert (Ht : trace rt4 = trace rt ++ allocation_events (planner_ rt)
                           ++ map RunNode (seq 0 (length (nodes_ rt)))).
  { rewrite Ht4, Ht3, Ht2, Ht1, Hn2, Hn1, <- app_assoc. done. }
  unfold leak_check_events. destruct (decide (1 < num_outputs (static_module_ rt))%nat).
  - apply bind_Ok in H as (r & Hr & H). simplify_eq.
    apply move_outputs_silent in Hr as ([Hm5 Ho5] & _ & Ht5). simpl in *.
    split; [split; congruence |]. split; [| done]. rewrite Ht5, Ht, app_nil_r. done.
  - apply bind_Ok in H as (rt5 & H5 & H). apply bind_Ok in H as (p & Hp & H).
    apply defined_Ok in Hp.
    apply move_out_silent in H as ([Hm6 Ho6] & _ & Ht6).
    destruct debug.
    + apply bind_Ok in H5 as (u & _ & H5). simplify_eq. simpl in *.
      split; [split; congruence |]. split.
      * rewrite Ht6, Ht, <- !app_assoc. done.
      * intros _. exists p. congruence.
    + simplify_eq. split; [split; congruence |]. split.
      * rewrite Ht6, Ht, app_nil_r. done.
      * intros _. exists p. congruence.
Qed.


(** C4: a runtime fresh from its constructor has no planner, so its first
    call of [operator()] asks for no arena buffer; and [allocate] returns at
    once, acquiring nothing, when [managed_bytes_] is zero. *)
Theorem first_invoke_never_allocates sm rt :
  StaticRuntime_new sm = Ok rt →
  planner_ rt = None
  ∧ (∀ args kwargs v rt',
       invoke rt args kwargs = Ok (v, rt') → ∀ size, AllocateBuffer size ∉ trace rt')
  ∧ (∀ ns h pl, managed_bytes_ pl = 0%Z → allocate ns h pl = Ok (pl, h, [])).
Proof.
  intros Hnew. unfold StaticRuntime_new in Hnew.
  apply bind_Ok in Hnew as (ns0 & _ & Hnew). simplify_eq. simpl.
  split; [done |]. split.
  - intros args kwargs v rt' H. apply invoke_trace in H as (_ & Ht & _).
    simpl in Ht. intros size. rewrite Ht, elem_of_app, list_elem_of_fmap.
    intros [(i & Hi & _) | Hl]; [discriminate |].
    unfold leak_check_events in Hl. destruct (decide _); [by apply elem_of_nil in Hl |].
    destruct debug; [| by apply elem_of_nil in Hl].
    by apply list_elem_of_singleton in Hl.
  - intros ns h pl Hz. unfold allocate. by rewrite decide_True.
Qed.

(** C10: in [operator()] the leak check is not reached when the module has
    more than one output, so a call that returns has reached it only for a
    module with exactly one output; and with [cleanup_activations] off
    [check_for_memory_leak] returns without looking at anything. *)
Theorem leak_check_vacuous_cases :
  (∀ rt args kwargs v rt',
     invoke rt args kwargs = Ok (v, rt') →
     (1 < num_outputs (static_module_ rt))%nat →
     ∃ es, trace rt' = trace rt ++ es ∧ CheckForMemoryLeak ∉ es)
  ∧ (∀ rt args kwargs v rt' es,
       invoke rt args kwargs = Ok (v, rt') →
       length (outputs_ rt) = num_outputs (static_module_ rt) →
       trace rt' = trace rt ++ es → CheckForMemoryLeak ∈ es →
       num_outputs (static_module_ rt) = 1%nat)
  ∧ (∀ rt output_returned,
       cleanup_activations (opts_ (static_module_ rt)) = false →
       check_for_memory_leak rt output_returned = Ok tt).
Proof.
  split; [| split].
  - intros rt args kwargs v rt' H Hn. apply invoke_trace in H as (_ & Ht & _).
    eexists. split; [exact Ht |].
    unfold leak_check_events. rewrite decide_True by done. rewrite app_nil_r.
    rewrite elem_of_app, list_elem_of_fmap.
    intros [Ha | (i & Hi & _)]; [| discriminate].
    unfold allocation_events in Ha. destruct (planner_ rt); [| by apply elem_of_nil in Ha].
    destruct (decide _); [by apply elem_of_nil in Ha |].
    by apply list_elem_of_singleton in Ha.
  - intros rt args kwargs v rt' es H Hlen Hes Hin.
    apply invoke_trace in H as (_ & Ht & Hout).
    rewrite Ht in Hes. apply app_inv_head in Hes. subst es.
    apply elem_of_app in Hin as [Ha | Hin].
    { unfold allocation_events in Ha. destruct (planner_ rt); [| by apply elem_of_nil in Ha].
      destruct (decide _); [by apply elem_of_nil in Ha |].
      by apply list_elem_of_singleton in Ha. }
    apply elem_of_app in Hin as [(i & Hi & _)%list_elem_of_fmap | Hin]; [discriminate |].
    unfold leak_check_events in Hin.
    destruct (decide (1 < num_outputs (static_module_ rt))%nat) as [Hn | Hn];
      [by apply elem_of_nil in Hin |].
    destruct (Hout Hn) as [p Hp]. apply lookup_lt_Some in Hp. lia.
  - intros rt b Hc. unfold check_for_memory_leak. by rewrite Hc.
Qed.

(** *** The count of reused tensors *)

(** The clusters that [allocate] does not step over. *)
Definition sized (mts : list (Z * list (nat * nat))) : list (Z * list (nat * nat)) :=
  filter (fun ms => ms.1 ≠ 0%Z) mts.

Definition tensor_count (mts : list (Z * list (nat * nat))) : nat :=
  sum_list (map (fun ms => length ms.2) mts).

(** The count as the sum over all clusters less the number of sized ones. *)
Definition reused_over_all (mts : list (Z * list (nat * nat))) : Z :=
  (Z.of_nat (tensor_count mts) - Z.of_nat (length (sized mts)))%Z.

(** The count as the sum over the sized clusters less their number. *)
Definition reused_over_sized (mts : list (Z * list (nat * nat))) : Z :=
  (Z.of_nat (tensor_count (sized mts)) - Z.of_nat (length (sized mts)))%Z.

Lemma wrap_add_congr a b c :
  SizeT.wrap a = SizeT.wrap b → SizeT.wrap (SizeT.wrap a + c) = SizeT.wrap (b + c).
Proof.
  unfold SizeT.wrap. intros H. rewrite Zplus_mod_idemp_l.
  rewrite <- (Zplus_mod_idemp_l a), H, Zplus_mod_idemp_l. done.
Qed.

Lemma place_tensors_count ns src size ts r h r' h' :
  for_each (place_tensor ns src size) ts (r, h) = Ok (r', h') →
  SizeT.wrap r' = SizeT.wrap (r + Z.of_nat (length ts)).
Proof.
  revert r h. induction ts as [| t ts IH]; intros r h; simpl.
  - intros [= <- <-]. f_equal. lia.
  - intros H. apply bind_Ok in H as ([r1 h1] & H1 & H).
    unfold place_tensor in H1. apply bind_Ok in H1 as (s & _ & H1).
    apply bind_Ok in H1 as (impl & _ & H1). simplify_eq. simpl in *.
    apply IH in H. rewrite H. unfold SizeT.add, SizeT.wrap.
    rewrite Zplus_mod_idemp_l. f_equal. lia.
Qed.

Lemma place_cluster_count ns start mb st ms st' :
  place_cluster ns start mb st ms = Ok st' →
  (ms.1 = 0%Z ∧ st' = st)
  ∨ (ms.1 ≠ 0%Z
     ∧ reused st' = SizeT.wrap (reused st + Z.of_nat (length ms.2) - 1)).
Proof.
  unfold place_cluster. destruct (decide (ms.1 = 0%Z)) as [Hz | Hz].
  - intros [= <-]. by left.
  - intros H. right. split; [done |].
    apply bind_Ok in H as (u & _ & H). apply bind_Ok in H as ([r h] & Hr & H).
    simplify_eq. simpl. apply place_tensors_count in Hr.
    unfold SizeT.sub. unfold SizeT.wrap in *.
    rewrite <- Zminus_mod_idemp_l, Hr, Zminus_mod_idemp_l. done.
Qed.

Lemma place_clusters_count ns start mb mts st st' :
  SizeT.in_range (reused st) →
  for_each (place_cluster ns start mb) mts st = Ok st' →
  reused st' = SizeT.wrap (reused st + reused_over_sized mts).
Proof.
  revert st. induction mts as [| ms mts IH]; intros st Hr; simpl.
  - intros [= <-]. unfold reused_over_sized. simpl.
    rewrite Z.add_0_r. symmetry. by apply SizeT.wrap_id.
  - intros H. apply bind_Ok in H as (st1 & H1 & H).
    apply place_cluster_count in H1 as [[Hz ->] | [Hz H1]].
    + rewrite (IH _ Hr H). f_equal. unfold reused_over_sized, sized.
      rewrite filter_cons. destruct (decide (ms.1 ≠ 0%Z)); [done |]. done.
    + assert (Hr1 : SizeT.in_range (reused st1)) by (rewrite H1; apply SizeT.wrap_range).
      rewrite (IH _ Hr1 H), H1. unfold reused_over_sized, sized.
      rewrite filter_cons. destruct (decide (ms.1 ≠ 0%Z)); [| done].
      unfold tensor_count. simpl.
      rewrite wrap_add_congr with (b := (reused st + Z.of_nat (length ms.2) - 1)%Z) by done.
      f_equal. lia.
Qed.

(** C6, as the code has it: after an [allocate] that goes past its first
    test, [reused_tensors_] is the number of tensors in the clusters whose
    learned size is not zero, less the number of those clusters (as a
    [size_t]).  The tensors of a cluster of size zero are not counted. *)
Theorem allocate_reused_tensors ns h pl pl' h' es :
  managed_bytes_ pl ≠ 0%Z →
  allocate ns h pl = Ok (pl', h', es) →
  reused_tensors_ pl' = SizeT.wrap (reused_over_sized (managed_tensors_ pl)).
Proof.
  intros Hmb. unfold allocate. rewrite decide_False by done. intros H.
  apply bind_Ok in H as (st & Hst & H). apply bind_Ok in H as (u & _ & H).
  simplify_eq. simpl. apply place_clusters_count in Hst; [done |].
  simpl. unfold SizeT.in_range, SizeT.modulus, SizeT.bits. lia.
Qed.

(** *** Learned sizes across [deallocate] and [allocate] *)

(** Every learned size is a [size_t] multiple of the alignment. *)
Definition sizes_aligned (mts : list (Z * list (nat * nat))) : Prop :=
  ∀ ms, ms ∈ mts → SizeT.in_range ms.1 ∧ (gAlignment | ms.1)%Z.

(** The sum of the learned sizes, as [deallocate] accumulates it. *)
Definition total_of (mts : list (Z * list (nat * nat))) : Z :=
  foldl (fun acc ms => SizeT.add acc ms.1) 0%Z mts.

(** The storage holds no bytes, or [v] bytes. *)
Definition low_at (v : Z) (h : gmap StorageId StorageImpl) (s : StorageId) : Prop :=
  ∃ impl, h !! s = Some impl ∧ (nbytes impl = 0%Z ∨ nbytes impl = v).

(** The storage of every managed tensor holds no bytes. *)
Definition emptied (ns : list ProcessedNode) (mts : list (Z * list (nat * nat)))
  (h : gmap StorageId StorageImpl) : Prop :=
  ∀ ms t s, ms ∈ mts → t ∈ ms.2 → tensor_storage ns t = Ok s → low_at 0 h s.

(** The storage of every managed tensor holds no bytes or the learned size
    of the tensor's cluster. *)
Definition fits (ns : list ProcessedNode) (mts : list (Z * list (nat * nat)))
  (h : gmap StorageId StorageImpl) : Prop :=
  ∀ ms t s, ms ∈ mts → t ∈ ms.2 → tensor_storage ns t = Ok s → low_at ms.1 h s.

(** No storage belongs to tensors of two clusters. *)
Definition separate_clusters (ns : list ProcessedNode)
  (mts : list (Z * list (nat * nat))) : Prop :=
  ∀ pre ms post ms' t t' s,
    mts = pre ++ ms :: post → ms' ∈ pre ++ post → t ∈ ms.2 → t' ∈ ms'.2 →
    tensor_storage ns t = Ok s → tensor_storage ns t' = Ok s → False.

(** The state [deallocate] leaves behind. *)
Definition settled (ns : list ProcessedNode) (h : gmap StorageId StorageImpl)
  (pl : MemoryPlanner) : Prop :=
  sizes_aligned (managed_tensors_ pl)
  ∧ managed_bytes_ pl = total_of (managed_tensors_ pl)
  ∧ emptied ns (managed_tensors_ pl) h.

Lemma measure_and_reset_Ok ns acc t acc' :
  measure_and_reset ns acc t = Ok acc' →
  ∃ s impl,
    tensor_storage ns t = Ok s ∧ acc.2 !! s = Some impl
    ∧ acc'.1 = Z.max acc.1 (compute_aligned_tensor_size (nbytes impl))
    ∧ acc'.2 = <[s := reset impl]> acc.2.
Proof.
  unfold measure_and_reset. intros H. apply bind_Ok in H as (s & Hs & H).
  apply bind_Ok in H as (impl & Hi & H). apply defined_Ok in Hi. simplify_eq.
  exists s, impl. by repeat split.
Qed.

Lemma low_at_reset v h s impl s0 :
  low_at v h s0 → low_at v (<[s := reset impl]> h) s0.
Proof.
  intros (impl0 & H0 & Hn). destruct (decide (s0 = s)) as [-> | Hne].
  - exists (reset impl). rewrite lookup_insert_eq. split; [done | by left].
  - exists impl0. by rewrite lookup_insert_ne.
Qed.

(** What the loop over the tensors of one cluster does in [deallocate]. *)
Lemma measure_cluster ns ts r h r' h' :
  for_each (measure_and_reset ns) ts (r, h) = Ok (r', h') →
  (∀ v s0, low_at v h s0 → low_at v h' s0)
  ∧ (∀ t s, t ∈ ts → tensor_storage ns t = Ok s → low_at 0 h' s)
  ∧ (Align.alignment_ok gAlignment →
     SizeT.in_range r ∧ (gAlignment | r)%Z → SizeT.in_range r' ∧ (gAlignment | r')%Z)
  ∧ (Align.alignment_ok gAlignment →
     SizeT.in_range r ∧ (gAlignment | r)%Z →
     (∀ t s, t ∈ ts → tensor_storage ns t = Ok s → low_at r h s) → r' = r).
Proof.
  revert r h. induction ts as [| t ts IH]; intros r h; simpl.
  - intros [= <- <-]. split; [done |]. split; [by intros t s Ht%elem_of_nil |].
    split; [by intros _ Hr | by intros _ _ _].
  - intros H. apply bind_Ok in H as ([r1 h1] & H1 & H).
    apply measure_and_reset_Ok in H1 as (s & impl & Hs & Hi & Hr1 & Hh1). simpl in *.
    subst r1 h1. destruct (IH _ _ H) as (Hlow & Hzero & Hal & Hsame).
    split; [| split; [| split]].
    + intros v s0 H0. by apply Hlow, low_at_reset.
    + intros t' s' [-> | Ht']%elem_of_cons Hs'.
      * rewrite Hs in Hs'. injection Hs' as <-. apply Hlow.
        exists (reset impl). rewrite lookup_insert_eq. split; [done | by left].
      * by eapply Hzero.
    + intros HA Hr. apply (Hal HA).
      destruct (Align.aligned_is_multiple gAlignment (nbytes impl) HA) as [Hir Hdiv].
      destruct (Z.max_spec r (compute_aligned_tensor_size (nbytes impl)))
        as [[_ ->] | [_ ->]]; done.
    + intros HA Hr Hfit.
      assert (Hmax : Z.max r (compute_aligned_tensor_size (nbytes impl)) = r).
      { destruct (Hfit t s) as (impl' & Hi' & Hn); [by left | done |].
        rewrite Hi in Hi'. injection Hi' as <-. destruct Hr as [Hrr Hrd].
        destruct Hn as [-> | ->].
        - rewrite (Align.aligned_fixed gAlignment 0 HA); [unfold SizeT.in_range in Hrr; lia | |].
          + unfold SizeT.in_range, SizeT.modulus, SizeT.bits. lia.
          + exists 0%Z. lia.
        - rewrite (Align.aligned_fixed gAlignment r HA Hrr Hrd). lia. }
      rewrite Hmax in *. apply (Hsame HA Hr).
      intros t' s' Ht' Hs'. apply low_at_reset. apply (Hfit t' s'); [by right | done].
Qed.

Lemma total_of_app mts ms :
  total_of (mts ++ [ms]) = SizeT.add (total_of mts) ms.1.
Proof. unfold total_of. by rewrite foldl_app. Qed.

Lemma sizes_aligned_app mts ms :
  sizes_aligned mts → SizeT.in_range ms.1 ∧ (gAlignment | ms.1)%Z →
  sizes_aligned (mts ++ [ms]).
Proof.
  intros H1 H2 x [Hx | ->%list_elem_of_singleton]%elem_of_app; [by apply H1 | done].
Qed.

(** What the loop over the clusters does in [deallocate]: [done_] are the
    clusters already measured. *)
Lemma learn_clusters ns mts done_ st st' :
  learned st = done_ →
  total st = total_of done_ →
  for_each (learn_cluster ns) mts st = Ok st' →
  ∃ new,
    learned st' = done_ ++ new
    ∧ map snd new = map snd mts
    ∧ total st' = total_of (done_ ++ new)
    ∧ (∀ v s0, low_at v (freed st) s0 → low_at v (freed st') s0)
    ∧ emptied ns mts (freed st')
    ∧ (Align.alignment_ok gAlignment → sizes_aligned mts → sizes_aligned new)
    ∧ (Align.alignment_ok gAlignment → sizes_aligned mts →
       fits ns mts (freed st) → new = mts).
Proof.
  revert done_ st. induction mts as [| ms mts IH]; intros done_ st Hl Ht; simpl.
  - intros [= <-]. exists []. rewrite app_nil_r.
    split; [done |]. split; [done |]. split; [done |]. split; [done |].
    split; [by intros ms t s Hms%elem_of_nil |]. split; [done | by intros _ _ _].
  - intros H. apply bind_Ok in H as (st1 & H1 & H).
    unfold learn_cluster in H1. apply bind_Ok in H1 as ([r h1] & Hm & H1).
    simplify_eq. simpl in *.
    destruct (measure_cluster _ _ _ _ _ _ Hm) as (Hlow & Hzero & Hal & Hsame).
    assert (Ht1 : SizeT.add (total st) r = total_of (learned st ++ [(r, ms.2)])).
    { by rewrite total_of_app, Ht. }
    destruct (IH (learned st ++ [(r, ms.2)])
                 {| learned := learned st ++ [(r, ms.2)];
                    total := SizeT.add (total st) r; freed := h1 |}
                 eq_refl Ht1 H)
      as (new & Hl' & Hsnd & Ht' & Hlow' & Hemp & Hal' & Hsame').
    simpl in *. exists ((r, ms.2) :: new).
    split; [by rewrite Hl', <- app_assoc |].
    split; [simpl; by rewrite Hsnd |].
    split; [by rewrite Ht', <- app_assoc |].
    split; [intros v s0 H0; by apply Hlow', Hlow |].
    split; [| split].
    + intros ms' t s [-> | Hms']%elem_of_cons Hin Hs.
      * apply Hlow'. by eapply Hzero.
      * by eapply Hemp.
    + intros HA Hmts x [-> | Hx]%elem_of_cons.
      * simpl. apply (Hal HA). apply Hmts. by left.
      * apply (Hal' HA); [| done]. intros y Hy. apply Hmts. by right.
    + intros HA Hmts Hfit.
      assert (Hr : r = ms.1).
      { apply (Hsame HA); [apply Hmts; by left |].
        intros t s Hin Hs. apply (Hfit ms t s); [by left | done | done]. }
      subst r. rewrite (Hsame' HA).
      * by destruct ms.
      * intros y Hy. apply Hmts. by right.
      * intros ms' t s Hms' Hin Hs. apply Hlow. apply (Hfit ms' t s); [by right | done | done].
Qed.

(** A slot that still holds a value after [deallocate] held it before. *)
Lemma cleared_slots ns ivs ns' :
  for_each (fun ns (iv : nat * nat) => write_output_slot ns iv.1 iv.2 IVNone) ivs ns
  = Ok ns' →
  ∀ n i v, output_slot ns' n i = Some v → v = IVNone ∨ output_slot ns n i = Some v.
Proof.
  revert ns. induction ivs as [| iv ivs IH]; intros ns; simpl.
  - intros [= <-] n i v Hv. by right.
  - intros H. apply bind_Ok in H as (ns1 & H1 & H).
    intros n i v Hv. destruct (IH _ H n i v Hv) as [-> | Hv1]; [by left |].
    unfold write_output_slot in H1. apply bind_Ok in H1 as (pn & Hpn & H1).
    apply bind_Ok in H1 as (old & Hold & H1). apply defined_Ok in Hpn, Hold.
    simplify_eq. unfold output_slot in *.
    destruct (decide (n = iv.1)) as [-> | Hn].
    + rewrite list_lookup_insert_eq in Hv1 by (by eapply lookup_lt_Some).
      simpl in Hv1. rewrite Hpn. simpl.
      destruct (decide (i = iv.2)) as [-> | Hi].
      * rewrite list_lookup_insert_eq in Hv1 by (by eapply lookup_lt_Some).
        left. congruence.
      * rewrite list_lookup_insert_ne in Hv1 by done. by right.
    + rewrite list_lookup_insert_ne in Hv1 by done. by right.
Qed.

Lemma cleared_tensor_storage ns ivs ns' t s :
  for_each (fun ns (iv : nat * nat) => write_output_slot ns iv.1 iv.2 IVNone) ivs ns
  = Ok ns' →
  tensor_storage ns' t = Ok s → tensor_storage ns t = Ok s.
Proof.
  intros H. unfold tensor_storage.
  destruct (output_slot ns' t.1 t.2) as [v |] eqn:Hv; [| done].
  destruct (cleared_slots _ _ _ H _ _ _ Hv) as [-> | ->]; done.
Qed.

Lemma deallocate_Ok ns h pl pl' ns' h' :
  deallocate ns h pl = Ok (pl', ns', h') →
  ∃ st,
    for_each (learn_cluster ns) (managed_tensors_ pl)
      {| learned := []; total := 0; freed := h |} = Ok st
    ∧ for_each (fun ns (iv : nat * nat) => write_output_slot ns iv.1 iv.2 IVNone)
        (unmanaged_ivalues_ pl) ns = Ok ns'
    ∧ managed_tensors_ pl' = learned st
    ∧ managed_bytes_ pl' = total st
    ∧ unmanaged_ivalues_ pl' = unmanaged_ivalues_ pl
    ∧ reused_tensors_ pl' = reused_tensors_ pl
    ∧ buffer_ pl' = None
    ∧ h' = freed st.
Proof.
  unfold deallocate. intros H. apply bind_Ok in H as (st & Hst & H).
  apply bind_Ok in H as (ns1 & Hns & H). simplify_eq. exists st. by repeat split.
Qed.

Lemma emptied_same_tensors ns mts mts' h :
  map snd mts' = map snd mts → emptied ns mts h → emptied ns mts' h.
Proof.
  intros Hsnd Hemp ms' t s Hms' Hin Hs.
  assert (Hm : ms'.2 ∈ map snd mts) by (rewrite <- Hsnd; by apply list_elem_of_fmap_2).
  apply list_elem_of_fmap in Hm as (ms & Heq & Hms). rewrite Heq in Hin. by eapply Hemp.
Qed.

(** After [deallocate] the sizes are aligned, their sum is cached, and the
    storages of the managed tensors are empty. *)
Lemma deallocate_settles ns h pl pl' ns' h' :
  Align.alignment_ok gAlignment →
  sizes_aligned (managed_tensors_ pl) →
  deallocate ns h pl = Ok (pl', ns', h') →
  settled ns' h' pl' ∧ map snd (managed_tensors_ pl') = map snd (managed_tensors_ pl).
Proof.
  intros HA Hal H.
  apply deallocate_Ok in H as (st & Hst & Hns & Hm & Hb & _ & _ & _ & ->).
  destruct (learn_clusters ns (managed_tensors_ pl) []
              {| learned := []; total := 0; freed := h |} st eq_refl eq_refl Hst)
    as (new & Hl & Hsnd & Ht & _ & Hemp & Hal' & _).
  simpl in *. unfold settled. rewrite Hm, Hb, Hl, Ht. split; [| done].
  split; [by apply Hal' |]. split; [done |].
  apply (emptied_same_tensors _ _ _ _ Hsnd).
  intros ms t s Hms Hin Hs. apply (Hemp ms t s Hms Hin).
  by eapply cleared_tensor_storage.
Qed.

(** The storage holds [size] bytes. *)
Definition sized_at (size : Z) (h : gmap StorageId StorageImpl) (s : StorageId) : Prop :=
  ∃ impl, h !! s = Some impl ∧ nbytes impl = size.

(** What the loop over the tensors of one cluster does in [allocate]. *)
Lemma place_tensors_effect ns src size ts r h r' h' :
  for_each (place_tensor ns src size) ts (r, h) = Ok (r', h') →
  (∀ s0, (∀ t, t ∈ ts → tensor_storage ns t ≠ Ok s0) → h' !! s0 = h !! s0)
  ∧ (∀ s0, sized_at size h s0 → sized_at size h' s0)
  ∧ (∀ t s, t ∈ ts → tensor_storage ns t = Ok s → sized_at size h' s).
Proof.
  revert r h. induction ts as [| t ts IH]; intros r h; simpl.
  - intros [= <- <-]. split; [done |]. split; [done |]. by intros t s Ht%elem_of_nil.
  - intros H. apply bind_Ok in H as ([r1 h1] & H1 & H).
    unfold place_tensor in H1. apply bind_Ok in H1 as (s & Hs & H1).
    apply bind_Ok in H1 as (impl & _ & H1). simplify_eq. simpl in *.
    destruct (IH _ _ H) as (Hother & Hkeep & Hset).
    assert (Hnew : sized_at size
                     (<[s := {| data := Some src; nbytes := size |}]> h) s).
    { eexists. rewrite lookup_insert_eq. done. }
    split; [| split].
    + intros s0 Hs0. rewrite Hother.
      * apply lookup_insert_ne. intros <-. apply (Hs0 t); [by left | done].
      * intros t' Ht'. apply Hs0. by right.
    + intros s0 (impl0 & H0 & Hn). apply Hkeep. destruct (decide (s0 = s)) as [-> | Hne].
      * exact Hnew.
      * exists impl0. by rewrite lookup_insert_ne.
    + intros t' s' [-> | Ht']%elem_of_cons Hs'.
      * rewrite Hs in Hs'. injection Hs' as <-. by apply Hkeep.
      * by eapply Hset.
Qed.

Lemma low_at_zero v h s : low_at 0 h s → low_at v h s.
Proof. intros (impl & Hi & [Hn | Hn]); exists impl; split; try done; by left. Qed.

(** What the loop over the clusters does in [allocate]: [done_] are the
    clusters already placed. *)
Lemma place_clusters_fit ns start mb todo done_ st st' :
  separate_clusters ns (done_ ++ todo) →
  fits ns done_ (placed st) → emptied ns todo (placed st) →
  for_each (place_cluster ns start mb) todo st = Ok st' →
  fits ns (done_ ++ todo) (placed st').
Proof.
  revert done_ st. induction todo as [| ms todo IH]; intros done_ st Hsep Hfit Hemp; simpl.
  - intros [= <-]. by rewrite app_nil_r.
  - intros H. apply bind_Ok in H as (st1 & H1 & H).
    rewrite (cons_middle ms done_ todo), app_assoc.
    rewrite (cons_middle ms done_ todo), app_assoc in Hsep.
    apply (IH (done_ ++ [ms]) st1); [done | | | done].
    + unfold place_cluster in H1. destruct (decide (ms.1 = 0%Z)) as [Hz | Hz].
      * simplify_eq. intros ms' t s [Hms' | ->%list_elem_of_singleton]%elem_of_app Hin Hs.
        -- by eapply Hfit.
        -- apply low_at_zero. apply (Hemp ms t s); [by left | done | done].
      * apply bind_Ok in H1 as (u & _ & H1). apply bind_Ok in H1 as ([r h1] & Hp & H1).
        simplify_eq. simpl.
        destruct (place_tensors_effect _ _ _ _ _ _ _ _ Hp) as (Hother & _ & Hset).
        intros ms' t s [Hms' | ->%list_elem_of_singleton]%elem_of_app Hin Hs.
        -- destruct (Hfit ms' t s Hms' Hin Hs) as (impl & Hi & Hn).
           exists impl. split; [| done]. rewrite Hother; [done |].
           intros t0 Ht0 Hs0.
           apply (Hsep done_ ms todo ms' t0 t s); try done.
           ++ by rewrite <- app_assoc.
           ++ apply elem_of_app. by left.
        -- destruct (Hset t s Hin Hs) as (impl & Hi & Hn).
           exists impl. split; [done | by right].
    + unfold place_cluster in H1. destruct (decide (ms.1 = 0%Z)) as [Hz | Hz].
      * simplify_eq. intros ms' t s Hms' Hin Hs. apply (Hemp ms' t s); [by right | done | done].
      * apply bind_Ok in H1 as (u & _ & H1). apply bind_Ok in H1 as ([r h1] & Hp & H1).
        simplify_eq. simpl.
        destruct (place_tensors_effect _ _ _ _ _ _ _ _ Hp) as (Hother & _ & _).
        intros ms' t s Hms' Hin Hs.
        destruct (Hemp ms' t s) as (impl & Hi & Hn); [by right | done | done |].
        exists impl. split; [| done]. rewrite Hother; [done |].
        intros t0 Ht0 Hs0.
        apply (Hsep done_ ms todo ms' t0 t s); try done.
        -- by rewrite <- app_assoc.
        -- apply elem_of_app. by right.
Qed.

Lemma allocate_fits ns h pl pl' h' es :
  emptied ns (managed_tensors_ pl) h →
  separate_clusters ns (managed_tensors_ pl) →
  allocate ns h pl = Ok (pl', h', es) →
  managed_tensors_ pl' = managed_tensors_ pl
  ∧ unmanaged_ivalues_ pl' = unmanaged_ivalues_ pl
  ∧ managed_bytes_ pl' = managed_bytes_ pl
  ∧ fits ns (managed_tensors_ pl) h'.
Proof.
  intros Hemp Hsep. unfold allocate. destruct (decide _) as [Hz | Hz].
  - intros [= <- <- <-]. repeat split; try done.
    intros ms t s Hms Hin Hs. apply low_at_zero. by eapply Hemp.
  - intros H. apply bind_Ok in H as (st & Hst & H). apply bind_Ok in H as (u & _ & H).
    simplify_eq. simpl. repeat split; try done.
    apply (place_clusters_fit _ _ _ _ [] _ _ Hsep) in Hst; [done | | done].
    by intros ms t s Hms%elem_of_nil.
Qed.

(** C3, as the code has it: from the state a [deallocate] leaves behind,
    [allocate] and then [deallocate], with no node run in between, bring
    back the same learned sizes and the same [managed_bytes_], provided no
    storage is shared by tensors of two clusters. *)
Theorem allocate_deallocate_keeps_managed_bytes
  ns h pl pl1 ns1 h1 pl2 h2 es pl3 ns3 h3 :
  Align.alignment_ok gAlignment →
  sizes_aligned (managed_tensors_ pl) →
  deallocate ns h pl = Ok (pl1, ns1, h1) →
  separate_clusters ns1 (managed_tensors_ pl1) →
  allocate ns1 h1 pl1 = Ok (pl2, h2, es) →
  deallocate ns1 h2 pl2 = Ok (pl3, ns3, h3) →
  managed_tensors_ pl3 = managed_tensors_ pl1
  ∧ managed_bytes_ pl3 = managed_bytes_ pl1.
Proof.
  intros HA Hal Hd1 Hsep Ha Hd2.
  apply (deallocate_settles _ _ _ _ _ _ HA Hal) in Hd1 as [(Hal1 & Hmb1 & Hemp1) _].
  apply (allocate_fits _ _ _ _ _ _ Hemp1 Hsep) in Ha as (Hm2 & _ & _ & Hfit).
  apply deallocate_Ok in Hd2 as (st & Hst & _ & Hm3 & Hb3 & _).
  rewrite Hm2 in Hst.
  destruct (learn_clusters ns1 (managed_tensors_ pl1) []
              {| learned := []; total := 0; freed := h2 |} st eq_refl eq_refl Hst)
    as (new & Hl & _ & Ht & _ & _ & _ & Hsame).
  simpl in *. rewrite (Hsame HA Hal1 Hfit) in *.
  split; [congruence |]. rewrite Hb3, Ht, Hmb1. done.
Qed.

(** *** What a call leaves in the slots *)

(** A node with its output slots blanked: what no run may change. *)
Definition skeleton (pn : ProcessedNode) : ProcessedNode :=
  set_outputs (replicate (length (p_outputs_ pn)) IVNone) pn.

(** The two runtimes have the same slots, whatever the slots hold. *)
Definition same_slots (rt rt' : StaticRuntime) : Prop :=
  length (inputs_ rt') = length (inputs_ rt)
  ∧ length (constants rt') = length (constants rt)
  ∧ map skeleton (nodes_ rt') = map skeleton (nodes_ rt).

Lemma same_slots_refl rt : same_slots rt rt.
Proof. by repeat split. Qed.

Lemma same_slots_trans rt1 rt2 rt3 :
  same_slots rt1 rt2 → same_slots rt2 rt3 → same_slots rt1 rt3.
Proof. intros (? & ? & ?) (? & ? & ?). repeat split; congruence. Qed.

Lemma skeleton_rewritten ns idx pn outs :
  ns !! idx = Some pn → length outs = length (p_outputs_ pn) →
  map skeleton (<[idx := set_outputs outs pn]> ns) = map skeleton ns.
Proof.
  intros Hpn Hlen. change (map skeleton) with (fmap (M := list) skeleton).
  rewrite list_fmap_insert.
  apply list_insert_id. rewrite list_lookup_fmap, Hpn. simpl. f_equal.
  unfold skeleton, set_outputs. simpl. by rewrite Hlen.
Qed.

Lemma write_output_slot_Ok ns n i v ns' :
  write_output_slot ns n i v = Ok ns' →
  ∃ pn old,
    ns !! n = Some pn ∧ p_outputs_ pn !! i = Some old
    ∧ ns' = <[n := set_outputs (<[i := v]> (p_outputs_ pn)) pn]> ns.
Proof.
  unfold write_output_slot. intros H. apply bind_Ok in H as (pn & Hpn & H).
  apply bind_Ok in H as (old & Hold & H). apply defined_Ok in Hpn, Hold.
  simplify_eq. eauto.
Qed.

Lemma write_output_slot_skeleton ns n i v ns' :
  write_output_slot ns n i v = Ok ns' → map skeleton ns' = map skeleton ns.
Proof.
  intros H. apply write_output_slot_Ok in H as (pn & old & Hpn & _ & ->).
  apply skeleton_rewritten; [done |]. by rewrite length_insert.
Qed.

Lemma output_slot_written ns n i v ns' n' i' :
  write_output_slot ns n i v = Ok ns' →
  output_slot ns' n' i'
  = if decide (n' = n ∧ i' = i) then Some v else output_slot ns n' i'.
Proof.
  intros H. apply write_output_slot_Ok in H as (pn & old & Hpn & Hold & ->).
  pose proof (lookup_lt_Some _ _ _ Hpn) as Hn. pose proof (lookup_lt_Some _ _ _ Hold) as Hi.
  unfold output_slot. destruct (decide (n' = n)) as [-> | Hne].
  - rewrite (list_lookup_insert_eq _ _ _ Hn). rewrite Hpn. simpl.
    destruct (decide (i' = i)) as [-> | Hne].
    + rewrite decide_True by (split; reflexivity).
      exact (list_lookup_insert_eq _ _ _ Hi).
    + rewrite decide_False by (intros [_ ?]; contradiction).
      exact (list_lookup_insert_ne _ _ _ _ (not_eq_sym Hne)).
  - rewrite (list_lookup_insert_ne _ _ _ _ (not_eq_sym Hne)).
    rewrite decide_False by (intros [? _]; contradiction). reflexivity.
Qed.

Lemma assign_Ok rt q v rt' :
  assign rt q v = Ok rt' →
  same_slots rt rt'
  ∧ (∀ p, deref rt' p = if decide (p = q) then Some v else deref rt p)
  ∧ (v = IVNone → Forall (fun x => x = IVNone) (inputs_ rt) →
     Forall (fun x => x = IVNone) (inputs_ rt')).
Proof.
  unfold assign. destruct q as [i | i | n i]; intros H.
  - apply bind_Ok in H as (old & Hold & H). apply defined_Ok in Hold. simplify_eq.
    pose proof (lookup_lt_Some _ _ _ Hold) as Hi.
    split; [split; [simpl; by rewrite length_insert | done] |]. split.
    + intros p. destruct (decide (p = InputSlot i)) as [-> | Hne].
      * exact (list_lookup_insert_eq _ _ _ Hi).
      * destruct p as [j | j | m j]; [| done | done].
        apply list_lookup_insert_ne. congruence.
    + intros -> Hall. simpl. apply Forall_insert; done.
  - apply bind_Ok in H as (old & Hold & H). apply defined_Ok in Hold. simplify_eq.
    pose proof (lookup_lt_Some _ _ _ Hold) as Hi.
    split; [split; [done | split; [simpl; by rewrite length_insert | done]] |]. split.
    + intros p. destruct (decide (p = ConstantSlot i)) as [-> | Hne].
      * exact (list_lookup_insert_eq _ _ _ Hi).
      * destruct p as [j | j | m j]; [done | | done].
        apply list_lookup_insert_ne. congruence.
    + done.
  - apply bind_Ok in H as (ns & Hns & H). simplify_eq.
    split; [split; [done | split; [done |]] |].
    { simpl. by eapply write_output_slot_skeleton. }
    split; [| done].
    intros p. destruct (decide (p = OutputSlot n i)) as [-> | Hne].
    + simpl. rewrite (output_slot_written _ _ _ _ _ n i Hns).
      by rewrite decide_True.
    + destruct p as [j | j | m j]; [done | done |].
      simpl. rewrite (output_slot_written _ _ _ _ _ m j Hns).
      rewrite decide_False; [done |]. intros [-> ->]. done.
Qed.

Lemma move_out_Ok rt p v rt' :
  move_out rt p = Ok (v, rt') →
  deref rt p = Some v
  ∧ same_slots rt rt'
  ∧ (∀ q, deref rt' q = if decide (q = p) then Some IVNone else deref rt q)
  ∧ (Forall (fun x => x = IVNone) (inputs_ rt) →
     Forall (fun x => x = IVNone) (inputs_ rt')).
Proof.
  unfold move_out. intros H. apply bind_Ok in H as (w & Hw & H).
  apply bind_Ok in H as (rt1 & H1 & H). apply defined_Ok in Hw. simplify_eq.
  apply assign_Ok in H1 as (Hs & Hd & Hi). split; [done |]. split; [done |].
  split; [done | by apply Hi].
Qed.

(** Slots emptied by a move stay empty under later moves. *)
Definition emptied_slots (ps : list IValuePtr) (rt : StaticRuntime) : Prop :=
  ∀ p, p ∈ ps → deref rt p = Some IVNone.

Lemma move_outputs_Ok idxs acc r :
  for_each
    (fun (acc : list IValue * StaticRuntime) i =>
       p ← defined (outputs_ acc.2 !! i);
       m ← move_out acc.2 p;
       Ok (acc.1 ++ [m.1], m.2))
    idxs acc = Ok r →
  same_slots acc.2 r.2
  ∧ (Forall (fun x => x = IVNone) (inputs_ acc.2) →
     Forall (fun x => x = IVNone) (inputs_ r.2))
  ∧ (∀ ps, emptied_slots ps acc.2 → emptied_slots ps r.2)
  ∧ (∀ i p, i ∈ idxs → outputs_ acc.2 !! i = Some p → deref r.2 p = Some IVNone).
Proof.
  revert acc. induction idxs as [| i idxs IH]; intros acc; simpl.
  - intros [= <-]. split; [apply same_slots_refl |]. split; [done |]. split; [done |].
    by intros i p Hi%elem_of_nil.
  - intros H. apply bind_Ok in H as (acc1 & H1 & H).
    apply bind_Ok in H1 as (p & Hp & H1). apply bind_Ok in H1 as ([v rt1] & Hm & H1).
    apply defined_Ok in Hp. simplify_eq. simpl in *.
    pose proof (move_out_silent _ _ _ _ Hm) as ([_ Hout] & _ & _).
    apply move_out_Ok in Hm as (_ & Hs1 & Hd1 & Hi1).
    destruct (IH _ H) as (Hs & Hi & He & Hmoved). simpl in *.
    assert (Hkeep : ∀ ps, emptied_slots ps acc.2 → emptied_slots ps rt1).
    { intros ps Hps q Hq. rewrite Hd1. destruct (decide (q = p)); [done | by apply Hps]. }
    split; [by eapply same_slots_trans |]. split; [by intros; apply Hi, Hi1 |].
    split; [by intros ps Hps; apply He, Hkeep |].
    intros j q [-> | Hj]%elem_of_cons Hq.
    + rewrite Hp in Hq. injection Hq as <-.
      apply (He [p]); [| by left]. intros q ->%list_elem_of_singleton.
      rewrite Hd1. by rewrite decide_True.
    + apply (Hmoved j q Hj). by rewrite Hout.
Qed.






Lemma cleared_skeleton ns ivs ns' :
  for_each (fun ns (iv : nat * nat) => write_output_slot ns iv.1 iv.2 IVNone) ivs ns
  = Ok ns' →
  map skeleton ns' = map skeleton ns.
Proof.
  revert ns. induction ivs as [| iv ivs IH]; intros ns; simpl.
  - by intros [= <-].
  - intros H. apply bind_Ok in H as (ns1 & H1 & H).
    apply write_output_slot_skeleton in H1. apply IH in H. congruence.
Qed.

Lemma clean_up_slots rt rt' :
  clean_up rt = Ok rt' →
  same_slots rt rt' ∧ Forall (fun x => x = IVNone) (inputs_ rt').
Proof.
  unfold clean_up. intros H. apply bind_Ok in H as (pl & _ & H).
  apply bind_Ok in H as ([[pl' ns'] h'] & Hd & H). simplify_eq. simpl.
  apply deallocate_Ok in Hd as (st & _ & Hns & _).
  apply cleared_skeleton in Hns. split.
  - split; [simpl; by rewrite length_map |]. split; [done | done].
  - apply Forall_forall. intros x Hx%list_elem_of_In%in_map_iff. by destruct Hx as (? & <- & _).
Qed.

(** The output slots a call hands to the caller: all of them when the
    graph has several outputs, the first one otherwise. *)
Definition returned_outputs (sm : StaticModule) : list nat :=
  if decide (1 < num_outputs sm)%nat then seq 0 (num_outputs sm) else [0%nat].


(** X8: after a call that returns, every slot a returned output pointed
    at holds none: the value was moved out, not copied.  With
    [cleanup_activations], besides, the planner exists and every input
    slot holds none. *)
Theorem invoke_moves_outputs_out rt args kwargs v rt' :
  invoke rt args kwargs = Ok (v, rt') →
  (∀ i p, i ∈ returned_outputs (static_module_ rt) → outputs_ rt !! i = Some p →
          deref rt' p = Some IVNone)
  ∧ (cleanup_activations (opts_ (static_module_ rt)) = true →
     is_Some (planner_ rt') ∧ Forall (fun x => x = IVNone) (inputs_ rt')).
Proof.
  unfold invoke, returned_outputs. intros H.
  apply bind_Ok in H as (rt1 & H1 & H). apply bind_Ok in H as (rt2 & H2 & H).
  apply bind_Ok in H as (rt3 & H3 & H). apply bind_Ok in H as (rt4 & H4 & H).
  assert (Ho4 : outputs_ rt4 = outputs_ rt).
  { assert (Ho1 : outputs_ rt1 = outputs_ rt).
    { destruct (planner_ rt) as [pl |].
      - apply bind_Ok in H1 as ([[pl' h'] es] & _ & H1). by simplify_eq.
      - by simplify_eq. }
    apply set_inputs_silent in H2 as [([_ Ho2] & _) _].
    apply run_nodes_logs in H3 as ([_ Ho3] & _).
    destruct (cleanup_activations (opts_ (static_module_ rt))).
    - apply clean_up_quiet in H4 as ([_ Ho4] & _). congruence.
    - simplify_eq. congruence. }
  assert (Hc4 : cleanup_activations (opts_ (static_module_ rt)) = true →
                is_Some (planner_ rt4) ∧ Forall (fun x => x = IVNone) (inputs_ rt4)).
  { intros Hc. rewrite Hc in H4. split.
    - by apply clean_up_quiet in H4 as (_ & _ & ?).
    - by apply clean_up_slots in H4 as [_ ?]. }
  destruct (decide (1 < num_outputs (static_module_ rt))%nat).
  - apply bind_Ok in H as (r & Hr & H). simplify_eq.
    pose proof (move_outputs_silent _ _ _ Hr) as (_ & Hp & _).
    apply move_outputs_Ok in Hr as (_ & Hi & _ & Hmoved). simpl in *. split.
    + intros i p Hi' Hp'. apply (Hmoved i p Hi'). by rewrite Ho4.
    + intros Hc. destruct (Hc4 Hc) as [Hpl Hin]. split; [by rewrite Hp | by apply Hi].
  - apply bind_Ok in H as (rt5 & H5 & H). apply bind_Ok in H as (p & Hp & H).
    apply defined_Ok in Hp.
    assert (H45 : outputs_ rt5 = outputs_ rt4 ∧ planner_ rt5 = planner_ rt4
                  ∧ inputs_ rt5 = inputs_ rt4).
    { destruct debug.
      - apply bind_Ok in H5 as (u & _ & H5). by simplify_eq.
      - by simplify_eq. }
    destruct H45 as (Ho5 & Hp5 & Hi5).
    pose proof (move_out_silent _ _ _ _ H) as (_ & Hp6 & _).
    apply move_out_Ok in H as (_ & _ & Hd & Hi). split.
    + intros i q ->%list_elem_of_singleton Hq.
      rewrite Ho5, Ho4, Hq in Hp. injection Hp as <-. rewrite Hd. by rewrite decide_True.
    + intros Hc. destruct (Hc4 Hc) as [Hpl Hin]. split.
      * by rewrite Hp6, Hp5.
      * apply Hi. by rewrite Hi5.
Qed.

(** X9: a call that returns runs every node once, in the order of the
    graph: after the buffer is allocated, if it is, and before the leak
    check, if there is one; nothing else is logged. *)
Theorem invoke_runs_nodes_in_order rt args kwargs v rt' :
  invoke rt args kwargs = Ok (v, rt') →
  ∃ before after,
    trace rt' = trace rt ++ before ++ map RunNode (seq 0 (length (nodes_ rt))) ++ after
    ∧ before = allocation_events (planner_ rt)
    ∧ after = leak_check_events (static_module_ rt)
    ∧ (∀ idx, RunNode idx ∉ before ++ after).
Proof.
  intros H. apply invoke_trace in H as (_ & Ht & _).
  eexists _, _. split; [exact Ht |]. split; [done |]. split; [done |].
  intros idx [Hin | Hin]%elem_of_app.
  - unfold allocation_events in Hin. destruct (planner_ rt) as [pl |].
    + destruct (decide _); [by apply elem_of_nil in Hin |].
      by apply list_elem_of_singleton in Hin.
    + by apply elem_of_nil in Hin.
  - unfold leak_check_events in Hin. destruct (decide _); [by apply elem_of_nil in Hin |].
    destruct debug; [by apply list_elem_of_singleton in Hin | by apply elem_of_nil in Hin].
Qed.

(** *** What [deallocate] leaves behind *)

(** The storage is in the state [reset] leaves: no data, no bytes. *)
Definition released (h : gmap StorageId StorageImpl) (s : StorageId) : Prop :=
  h !! s = Some {| data := None; nbytes := 0 |}.

(** Some tensor of the clusters lives in the storage [s]. *)
Definition managed_storage (ns : list ProcessedNode)
  (mts : list (Z * list (nat * nat))) (s : StorageId) : Prop :=
  ∃ ms t, ms ∈ mts ∧ t ∈ ms.2 ∧ tensor_storage ns t = Ok s.

Lemma measure_cluster_releases ns ts r h r' h' :
  for_each (measure_and_reset ns) ts (r, h) = Ok (r', h') →
  (r ≤ r')%Z
  ∧ (∀ s, released h s → released h' s)
  ∧ (∀ t s, t ∈ ts → tensor_storage ns t = Ok s → released h' s)
  ∧ (∀ s, (∀ t, t ∈ ts → tensor_storage ns t ≠ Ok s) → h' !! s = h !! s).
Proof.
  revert r h. induction ts as [| t ts IH]; intros r h; simpl.
  - intros [= <- <-]. split; [lia |]. split; [done |].
    split; [by intros t s Ht%elem_of_nil | done].
  - intros H. apply bind_Ok in H as ([r1 h1] & H1 & H).
    apply measure_and_reset_Ok in H1 as (s & impl & Hs & Hi & Hr1 & Hh1). simpl in *.
    subst r1 h1. destruct (IH _ _ H) as (Hle & Hkeep & Hrel & Hframe).
    assert (Hstep : ∀ s0, released h s0 → released (<[s := reset impl]> h) s0).
    { intros s0 H0. unfold released. destruct (decide (s0 = s)) as [-> | Hne].
      - by rewrite lookup_insert_eq.
      - by rewrite lookup_insert_ne. }
    split; [lia |]. split; [by intros s0 H0; apply Hkeep, Hstep |]. split.
    + intros t' s' [-> | Ht']%elem_of_cons Hs'.
      * rewrite Hs in Hs'. injection Hs' as <-. apply Hkeep.
        unfold released. by rewrite lookup_insert_eq.
      * by eapply Hrel.
    + intros s0 Hnot. rewrite Hframe.
      * apply lookup_insert_ne. intros ->. apply (Hnot t); [by left | done].
      * intros t' Ht'. apply Hnot. by right.
Qed.

Lemma learn_clusters_release ns mts st st' :
  for_each (learn_cluster ns) mts st = Ok st' →
  ∃ new,
    learned st' = learned st ++ new
    ∧ Forall2 (fun n o : Z * list (nat * nat) => n.2 = o.2 ∧ (o.1 ≤ n.1)%Z) new mts
    ∧ (∀ s, released (freed st) s → released (freed st') s)
    ∧ (∀ s, managed_storage ns mts s → released (freed st') s)
    ∧ (∀ s, ¬ managed_storage ns mts s → freed st' !! s = freed st !! s).
Proof.
  revert st. induction mts as [| ms mts IH]; intros st; simpl.
  - intros [= <-]. exists []. rewrite app_nil_r. split; [done |]. split; [done |].
    split; [done |]. split; [| done].
    by intros s (ms & t & Hms%elem_of_nil & _).
  - intros H. apply bind_Ok in H as (st1 & H1 & H).
    unfold learn_cluster in H1. apply bind_Ok in H1 as ([r h1] & Hm & H1).
    simplify_eq. simpl in *.
    destruct (measure_cluster_releases _ _ _ _ _ _ Hm) as (Hle & Hkeep & Hrel & Hframe).
    destruct (IH _ H) as (new & Hl & Hall & Hkeep' & Hrel' & Hframe'). simpl in *.
    exists ((r, ms.2) :: new).
    split; [by rewrite Hl, <- app_assoc |].
    split; [by constructor |].
    split; [by intros s H0; apply Hkeep', Hkeep |]. split.
    + intros s (ms' & t & [-> | Hms']%elem_of_cons & Ht & Hs).
      * apply Hkeep'. by eapply Hrel.
      * apply Hrel'. by exists ms', t.
    + intros s Hnot. rewrite Hframe'.
      * apply Hframe. intros t Ht Hs. apply Hnot. exists ms, t. split; [by left | done].
      * intros (ms' & t & Hms' & Ht & Hs). apply Hnot. exists ms', t.
        split; [by right | done].
Qed.

Lemma cleared_slots_exact ns ivs ns' :
  for_each (fun ns (iv : nat * nat) => write_output_slot ns iv.1 iv.2 IVNone) ivs ns
  = Ok ns' →
  ∀ n i,
    output_slot ns' n i
    = if decide ((n, i) ∈ ivs) then Some IVNone else output_slot ns n i.
Proof.
  revert ns. induction ivs as [| iv ivs IH]; intros ns H n i; simpl in H.
  - injection H as <-. rewrite decide_False; [done | apply not_elem_of_nil].
  - apply bind_Ok in H as (ns1 & H1 & H). destruct iv as [n0 i0]. simpl in H1.
    rewrite (IH _ H n i), (output_slot_written _ _ _ _ _ n i H1).
    destruct (decide ((n, i) ∈ ivs)) as [Hin | Hnin].
    + rewrite decide_True; [done | by right].
    + destruct (decide (n = n0 ∧ i = i0)) as [[-> ->] | Hne].
      * rewrite decide_True; [done | by left].
      * rewrite decide_False; [done |].
        intros [[= -> ->] | Hin]%elem_of_cons; [apply Hne; done | done].
Qed.

(** X10: [deallocate] gives the buffer up and keeps the clusters, whose
    learned sizes never shrink; every storage of a managed tensor is
    left without data and without bytes, every other storage is as
    before; exactly the unmanaged slots are overwritten with none. *)
Theorem deallocate_releases ns h pl pl' ns' h' :
  deallocate ns h pl = Ok (pl', ns', h') →
  buffer_ pl' = None
  ∧ unmanaged_ivalues_ pl' = unmanaged_ivalues_ pl
  ∧ Forall2 (fun n o : Z * list (nat * nat) => n.2 = o.2 ∧ (o.1 ≤ n.1)%Z)
      (managed_tensors_ pl') (managed_tensors_ pl)
  ∧ (∀ s, managed_storage ns (managed_tensors_ pl) s → released h' s)
  ∧ (∀ s, ¬ managed_storage ns (managed_tensors_ pl) s → h' !! s = h !! s)
  ∧ (∀ n i, output_slot ns' n i
            = if decide ((n, i) ∈ unmanaged_ivalues_ pl) then Some IVNone
              else output_slot ns n i).
Proof.
  intros H. apply deallocate_Ok in H as (st & Hst & Hns & Hm & _ & Hu & _ & Hb & ->).
  apply learn_clusters_release in Hst as (new & Hl & Hall & _ & Hrel & Hframe).
  simpl in *. rewrite Hm, Hl.
  split; [done |]. split; [done |]. split; [done |]. split; [done |]. split; [done |].
  by apply cleared_slots_exact.
Qed.

(** *** What a new planner manages *)

(** The output slot [(n, i)] exists and belongs to the value [v]. *)
Definition slot_value (ns : list ProcessedNode) (n i : nat) (v : Value) : Prop :=
  ∃ pn, ns !! n = Some pn ∧ (i < length (p_outputs_ pn))%nat
        ∧ outputs (node_ pn) !! i = Some v.

(** [v] is an output of a node with an out variant and is not external. *)
Definition out_variant_output (ns : list ProcessedNode) (external : gset Value)
  (v : Value) (pn : ProcessedNode) : Prop :=
  pn ∈ ns ∧ has_out_variant pn = true ∧ (v ∉ external)
  ∧ (∃ i, (i < length (p_outputs_ pn))%nat ∧ outputs (node_ pn) !! i = Some v).

(** The values the constructor collects in [managed_tensor_values]. *)
Definition managed_value (enable_out_variant : bool) (g : Graph)
  (ns : list ProcessedNode) (external : gset Value) (v : Value) : Prop :=
  enable_out_variant = true
  ∧ (∃ pn, out_variant_output ns external v pn ∧ value_type g v = TensorType).

(** The values the constructor collects in [leaked_values]. *)
Definition leaked_value (enable_out_variant : bool) (g : Graph)
  (ns : list ProcessedNode) (external : gset Value) (v : Value) : Prop :=
  enable_out_variant = true
  ∧ (∃ pn, out_variant_output ns external v pn ∧ value_type g v ≠ TensorType
           ∧ isOptimizableContainerType lib (node_ pn) = true).

(** The slot is among the tensors of some cluster. *)
Definition in_clusters (mts : list (Z * list (nat * nat))) (t : nat * nat) : Prop :=
  ∃ ms, ms ∈ mts ∧ t ∈ ms.2.

(** Drop from the context what the goal does not mention. *)
Ltac detach := repeat match goal with x : _ |- _ => clear x end.

Lemma slot_values_loop (pn : ProcessedNode) idxs acc r :
  for_each
    (fun acc i => v ← defined (outputs (node_ pn) !! i); Ok (acc ++ [(i, v)]))
    idxs acc = Ok r →
  ∀ i v, (i, v) ∈ r ↔ (i, v) ∈ acc ∨ (i ∈ idxs ∧ outputs (node_ pn) !! i = Some v).
Proof.
  detach. revert acc. induction idxs as [| j idxs IH]; intros acc H i v; simpl in H.
  - injection H as <-. rewrite elem_of_nil. tauto.
  - apply bind_Ok in H as (acc1 & H1 & H). apply bind_Ok in H1 as (w & Hw & H1).
    apply defined_Ok in Hw. simplify_eq.
    rewrite (IH _ H i v), elem_of_app, list_elem_of_singleton, elem_of_cons. split.
    + intros [[Hacc | [= -> ->]] | [Hin Hv]]; tauto.
    + intros [Hacc | [[-> | Hin] Hv]]; [tauto | | tauto].
      left. right. congruence.
Qed.

Lemma slot_values_Ok pn svs :
  slot_values pn = Ok svs →
  ∀ i v, (i, v) ∈ svs
         ↔ (i < length (p_outputs_ pn))%nat ∧ outputs (node_ pn) !! i = Some v.
Proof.
  detach. unfold slot_values. intros H i v. rewrite (slot_values_loop _ _ _ _ H i v).
  rewrite elem_of_nil, elem_of_seq. split.
  - intros [[] | [Hi Hv]]. split; [lia | done].
  - intros [Hi Hv]. right. split; [lia | done].
Qed.

Lemma classified g external pn svs acc v :
  let r := foldl (classify_output g external pn) acc svs in
  (v ∈ r.1 ↔ v ∈ acc.1
             ∨ ((∃ i, (i, v) ∈ svs) ∧ (v ∉ external) ∧ value_type g v = TensorType))
  ∧ (v ∈ r.2 ↔ v ∈ acc.2
               ∨ ((∃ i, (i, v) ∈ svs) ∧ (v ∉ external) ∧ value_type g v ≠ TensorType
                  ∧ isOptimizableContainerType lib (node_ pn) = true)).
Proof.
  detach. revert acc. induction svs as [| [j w] svs IH]; intros acc; simpl.
  - split; (split; [by left |]); intros [H | [[i Hi%elem_of_nil] _]]; done.
  - destruct (IH (classify_output g external pn acc (j, w))) as [IH1 IH2].
    rewrite IH1, IH2. clear IH IH1 IH2.
    assert (Hcons : (∃ i, (i, v) ∈ (j, w) :: svs) ↔ v = w ∨ ∃ i, (i, v) ∈ svs).
    { split.
      - intros [i [[= -> ->] | Hi]%elem_of_cons]; [by left | right; by exists i].
      - intros [-> | [i Hi]]; [exists j; by left | exists i; by right]. }
    rewrite Hcons. clear Hcons. unfold classify_output. simpl.
    destruct (decide (w ∈ external)) as [Hext | Hext];
      [| destruct (value_type g w) eqn:Hty;
         try destruct (isOptimizableContainerType lib (node_ pn)) eqn:Hopt];
      simpl; rewrite ?elem_of_union, ?elem_of_singleton;
      (split; split; intros HH; naive_solver congruence).
Qed.

Lemma collected_managed g external ns0 acc r :
  for_each (collect_managed g external) ns0 acc = Ok r →
  ∀ v,
    (v ∈ r.1 ↔ v ∈ acc.1
               ∨ (∃ pn, out_variant_output ns0 external v pn
                        ∧ value_type g v = TensorType))
    ∧ (v ∈ r.2 ↔ v ∈ acc.2
                 ∨ (∃ pn, out_variant_output ns0 external v pn
                          ∧ value_type g v ≠ TensorType
                          ∧ isOptimizableContainerType lib (node_ pn) = true)).
Proof.
  detach. revert acc. induction ns0 as [| pn ns0 IH]; intros acc H v; simpl in H.
  - injection H as <-. unfold out_variant_output.
    split; (split; [by left |]); intros [Hv | (pn & (Hin%elem_of_nil & _) & _)]; done.
  - apply bind_Ok in H as (acc1 & H1 & H). destruct (IH _ H v) as [IH1 IH2].
    rewrite IH1, IH2. clear IH IH1 IH2 H.
    assert (Hhere : ∀ P : ProcessedNode → Prop,
              (∃ pn', out_variant_output (pn :: ns0) external v pn' ∧ P pn')
              ↔ (has_out_variant pn = true ∧ (v ∉ external)
                 ∧ (∃ i, (i < length (p_outputs_ pn))%nat
                         ∧ outputs (node_ pn) !! i = Some v) ∧ P pn)
                ∨ (∃ pn', out_variant_output ns0 external v pn' ∧ P pn')).
    { intros P. unfold out_variant_output. split.
      - intros (pn' & ([-> | Hin]%elem_of_cons & Hov & Hext & Hi) & HP).
        + by left.
        + right. by exists pn'.
      - intros [(Hov & Hext & Hi & HP) | (pn' & (Hin & Hov & Hext & Hi) & HP)].
        + exists pn. split; [| done]. split; [by left | done].
        + exists pn'. split; [| done]. split; [by right | done]. }
    rewrite (Hhere (fun _ => value_type g v = TensorType)).
    rewrite (Hhere (fun pn' => value_type g v ≠ TensorType
                               ∧ isOptimizableContainerType lib (node_ pn') = true)).
    clear Hhere. unfold collect_managed in H1.
    destruct (has_out_variant pn) eqn:Hov.
    + apply bind_Ok in H1 as (svs & Hsvs & H1). injection H1 as <-.
      pose proof (slot_values_Ok _ _ Hsvs) as Hslots.
      destruct (classified g external pn svs acc v) as [C1 C2].
      rewrite C1, C2. clear C1 C2.
      assert (Hex : (∃ i, (i, v) ∈ svs)
                    ↔ ∃ i, (i < length (p_outputs_ pn))%nat
                           ∧ outputs (node_ pn) !! i = Some v).
      { split; intros [i Hi]; exists i; by apply Hslots. }
      rewrite Hex. clear. split; split; intros HH; naive_solver.
    + injection H1 as <-. clear. split; split; intros HH; naive_solver.
Qed.

Lemma unmanaged_of_node (managed leaked : gset Value) (n : nat)
  (svs : list (nat * Value)) (acc : gset (nat * nat)) (t : nat * nat) :
  t ∈ foldl
        (fun acc (iv : nat * Value) =>
           if decide (iv.2 ∈ managed ∨ iv.2 ∈ leaked) then acc
           else {[(n, iv.1)]} ∪ acc)
        acc svs
  ↔ t ∈ acc ∨ (t.1 = n ∧ ∃ v, (t.2, v) ∈ svs ∧ (v ∉ managed) ∧ (v ∉ leaked)).
Proof.
  detach. revert acc. induction svs as [| [j w] svs IH]; intros acc; simpl.
  - split; [by left |]. intros [H | (_ & v & Hv%elem_of_nil & _)]; done.
  - rewrite IH. clear IH. destruct t as [n' i]. simpl.
    destruct (decide (w ∈ managed ∨ w ∈ leaked)) as [Hm | Hm].
    + split.
      * intros [H | (-> & v & Hv & Hn)]; [by left |].
        right. split; [done |]. exists v. split; [by right | done].
      * intros [H | (-> & v & [[= -> ->] | Hv]%elem_of_cons & Hn1 & Hn2)];
          [by left | tauto |].
        right. split; [done |]. by exists v.
    + rewrite elem_of_union, elem_of_singleton. split.
      * intros [[[= -> ->] | H] | (-> & v & Hv & Hn)].
        -- right. split; [done |]. exists w. split; [by left | tauto].
        -- by left.
        -- right. split; [done |]. exists v. split; [by right | done].
      * intros [H | (-> & v & [[= -> ->] | Hv]%elem_of_cons & Hn1 & Hn2)].
        -- left. by right.
        -- left. by left.
        -- right. split; [done |]. by exists v.
Qed.

Lemma collected_unmanaged managed leaked (l : list (nat * ProcessedNode)) acc r :
  for_each (collect_unmanaged managed leaked) l acc = Ok r →
  ∀ t, t ∈ r
       ↔ t ∈ acc
         ∨ (∃ pn v, (t.1, pn) ∈ l ∧ (t.2 < length (p_outputs_ pn))%nat
                    ∧ outputs (node_ pn) !! t.2 = Some v
                    ∧ (v ∉ managed) ∧ (v ∉ leaked)).
Proof.
  detach. revert acc. induction l as [| [n pn] l IH]; intros acc H t; simpl in H.
  - injection H as <-. split; [by left |].
    intros [Ht | (pn & v & Hin%elem_of_nil & _)]; done.
  - apply bind_Ok in H as (acc1 & H1 & H). rewrite (IH _ H t). clear IH H.
    unfold collect_unmanaged in H1. apply bind_Ok in H1 as (svs & Hsvs & H1).
    injection H1 as <-. simpl. rewrite unmanaged_of_node.
    pose proof (slot_values_Ok _ _ Hsvs) as Hslots. split.
    + intros [[Ht | (<- & v & Hv & Hn)] | (pn' & v & Hin & Hrest)].
      * by left.
      * right. exists pn, v. apply Hslots in Hv as [Hi Hv].
        split; [by left | done].
      * right. exists pn', v. split; [by right | done].
    + intros [Ht | (pn' & v & [[= -> ->] | Hin]%elem_of_cons & Hi & Hv & Hn)].
      * left. by left.
      * left. right. split; [done |]. exists v. split; [by apply Hslots | done].
      * right. by exists pn', v.
Qed.

Lemma elem_of_numbered {A} (l : list A) (n : nat) (x : A) :
  (n, x) ∈ zip (seq 0 (length l)) l ↔ l !! n = Some x.
Proof.
  rewrite elem_of_lookup_zip_with. split.
  - intros (i & j & y & [= -> ->] & Hj & Hy). apply lookup_seq in Hj as [-> _]. done.
  - intros Hx. exists n, n, x. split; [done |]. split; [| done].
    apply lookup_seq. split; [done | by eapply lookup_lt_Some].
Qed.

Lemma erased_outputs (outs : list IValuePtr) (um : gset (nat * nat)) (t : nat * nat) :
  t ∈ foldl erase_output um outs ↔ t ∈ um ∧ OutputSlot t.1 t.2 ∉ outs.
Proof.
  revert um. induction outs as [| p outs IH]; intros um; simpl.
  - split; [intros H; split; [done | apply not_elem_of_nil] | by intros [H _]].
  - rewrite IH, not_elem_of_cons. clear IH. destruct t as [n i]. simpl.
    destruct p as [j | j | m j]; simpl.
    + split; intros [H1 H2]; (split; [done |]); [split; [done | exact H2] | apply H2].
    + split; intros [H1 H2]; (split; [done |]); [split; [done | exact H2] | apply H2].
    + rewrite elem_of_difference, elem_of_singleton. split.
      * intros [[H1 Hne] H2]. split; [done |]. split; [| done].
        intros [= -> ->]. by apply Hne.
      * intros [H1 [Hne H2]]. split; [| done]. split; [done |].
        intros [= -> ->]. by apply Hne.
Qed.

(** What the loop of [assign_storage_to_managed_tensors] maintains: no
    cluster is sized or empty, and every recorded index is in range. *)
Definition assignment_ok (a : Assignment) : Prop :=
  (∀ ms, ms ∈ managed_tensors a → ms.1 = 0%Z ∧ ms.2 ≠ [])
  ∧ (∀ v k, value_to_storage_idx a !! v = Some k → (k < length (managed_tensors a))%nat).

Lemma in_clusters_app mts ms t :
  in_clusters (mts ++ [ms]) t ↔ in_clusters mts t ∨ t ∈ ms.2.
Proof.
  unfold in_clusters. split.
  - intros (ms' & [Hin | ->%list_elem_of_singleton]%elem_of_app & Ht).
    + left. by exists ms'.
    + by right.
  - intros [(ms' & Hin & Ht) | Ht].
    + exists ms'. split; [apply elem_of_app; by left | done].
    + exists ms. split; [apply elem_of_app; right; by apply list_elem_of_singleton | done].
Qed.

Lemma elem_of_alter_cluster (mts : list (Z * list (nat * nat))) k t0 ms :
  ms ∈ alter (fun ms => (ms.1, ms.2 ++ [t0])) k mts →
  ms ∈ mts ∨ ∃ old, mts !! k = Some old ∧ ms = (old.1, old.2 ++ [t0]).
Proof.
  intros (j & Hj)%list_elem_of_lookup. destruct (decide (k = j)) as [-> | Hne].
  - rewrite list_lookup_alter_eq in Hj. destruct (mts !! j) as [old |] eqn:Hold; [| done].
    simpl in Hj. injection Hj as <-. right. by exists old.
  - rewrite list_lookup_alter_ne in Hj by done. left. by eapply list_elem_of_lookup_2.
Qed.

Lemma in_clusters_alter (mts : list (Z * list (nat * nat))) k t0 t :
  (k < length mts)%nat →
  in_clusters (alter (fun ms => (ms.1, ms.2 ++ [t0])) k mts) t
  ↔ in_clusters mts t ∨ t = t0.
Proof.
  intros Hk. destruct (lookup_lt_is_Some_2 _ _ Hk) as [old Hold]. split.
  - intros (ms & Hms & Ht). apply elem_of_alter_cluster in Hms as [Hms | (o & Ho & ->)].
    + left. by exists ms.
    + simpl in Ht. apply elem_of_app in Ht as [Ht | ->%list_elem_of_singleton]; [| by right].
      left. exists o. split; [by eapply list_elem_of_lookup_2 | done].
  - intros [(ms & (j & Hj)%list_elem_of_lookup & Ht) | ->].
    + destruct (decide (k = j)) as [-> | Hne].
      * exists (ms.1, ms.2 ++ [t0]). split.
        -- apply list_elem_of_lookup. exists j. by rewrite list_lookup_alter_eq, Hj.
        -- simpl. apply elem_of_app. by left.
      * exists ms. split; [| done].
        apply list_elem_of_lookup. exists j. by rewrite list_lookup_alter_ne.
    + exists (old.1, old.2 ++ [t0]). split.
      * apply list_elem_of_lookup. exists k. by rewrite list_lookup_alter_eq, Hold.
      * simpl. apply elem_of_app. right. by apply list_elem_of_singleton.
Qed.

Lemma lookup_recorded (cluster : list Value) (k : nat) (m : gmap Value nat) v k' :
  foldl (fun m v => <[v := k]> m) m cluster !! v = Some k' → k' = k ∨ m !! v = Some k'.
Proof.
  revert m. induction cluster as [| w cluster IH]; intros m; simpl; [by right |].
  intros [-> | H]%IH; [by left |].
  destruct (decide (w = v)) as [-> | Hne].
  - rewrite lookup_insert_eq in H. left. congruence.
  - rewrite lookup_insert_ne in H by done. by right.
Qed.

Lemma assign_slot_Ok managed ssv n pn a iv a' :
  assign_slot managed ssv n pn a iv = Ok a' →
  assignment_ok a →
  assignment_ok a'
  ∧ (∀ t, in_clusters (managed_tensors a') t
          ↔ in_clusters (managed_tensors a) t ∨ (t = (n, iv.1) ∧ iv.2 ∈ managed))
  ∧ (iv.2 ∈ managed →
     ∃ ival, p_outputs_ pn !! iv.1 = Some ival ∧ isTensor ival = true).
Proof.
  detach. unfold assign_slot. intros H [Hsz Hidx].
  destruct (decide (iv.2 ∈ managed)) as [Hm | Hm].
  - apply bind_Ok in H as (ival & Hival & H). apply bind_Ok in H as ([] & Hch & H).
    apply defined_Ok in Hival. apply torch_check_Ok in Hch.
    destruct (value_to_storage_idx a !! iv.2) as [k |] eqn:Hk.
    + injection H as <-. unfold assignment_ok. cbn [managed_tensors value_to_storage_idx].
      pose proof (Hidx _ _ Hk) as Hlt.
      split; [split |]; [| | split].
      * intros ms [Hms | (old & Hold & ->)]%elem_of_alter_cluster; [by apply Hsz |].
        simpl. split; [by apply (Hsz old), (list_elem_of_lookup_2 _ k) |].
        by destruct (old.2).
      * intros v k' Hv. rewrite length_alter. by eapply Hidx.
      * intros t. rewrite in_clusters_alter by done. tauto.
      * intros _. by exists ival.
    + injection H as <-. unfold assignment_ok. cbn [managed_tensors value_to_storage_idx].
      split; [split |]; [| | split].
      * intros ms [Hms | ->%list_elem_of_singleton]%elem_of_app; [by apply Hsz | done].
      * intros v k' Hv. rewrite length_app. simpl.
        destruct (ssv !! iv.2) as [cluster |].
        -- apply lookup_recorded in Hv as [-> | Hv]; [rewrite length_app; simpl; lia |].
           apply Hidx in Hv. lia.
        -- apply Hidx in Hv. lia.
      * intros t. rewrite in_clusters_app. simpl. rewrite list_elem_of_singleton. tauto.
      * intros _. by exists ival.
  - injection H as <-. split; [done |]. split; [| done].
    intros t. tauto.
Qed.

Lemma assign_slots_Ok managed ssv n pn svs a a' :
  for_each (assign_slot managed ssv n pn) svs a = Ok a' →
  assignment_ok a →
  assignment_ok a'
  ∧ (∀ t, in_clusters (managed_tensors a') t
          ↔ in_clusters (managed_tensors a) t
            ∨ (t.1 = n ∧ ∃ v, (t.2, v) ∈ svs ∧ v ∈ managed))
  ∧ (∀ i v, (i, v) ∈ svs → v ∈ managed →
            ∃ ival, p_outputs_ pn !! i = Some ival ∧ isTensor ival = true).
Proof.
  detach. revert a. induction svs as [| [j w] svs IH]; intros a H Hok; simpl in H.
  - injection H as <-. split; [done |]. split.
    + intros t. split; [by left |]. intros [Ht | (_ & v & Hv%elem_of_nil & _)]; done.
    + by intros i v Hv%elem_of_nil.
  - apply bind_Ok in H as (a1 & H1 & H).
    destruct (assign_slot_Ok _ _ _ _ _ _ _ H1 Hok) as (Hok1 & Hin1 & Hten1).
    destruct (IH _ H Hok1) as (Hok' & Hin & Hten). simpl in *.
    split; [done |]. split.
    + intros [n' i]. rewrite Hin, Hin1. simpl. split.
      * intros [[Ht | [[= -> ->] Hm]] | (-> & v & Hv & Hm)].
        -- by left.
        -- right. split; [done |]. exists w. split; [by left | done].
        -- right. split; [done |]. exists v. split; [by right | done].
      * intros [Ht | (-> & v & [[= -> ->] | Hv]%elem_of_cons & Hm)].
        -- left. by left.
        -- left. by right.
        -- right. split; [done |]. by exists v.
    + intros i v [[= -> ->] | Hv]%elem_of_cons Hm; [by apply Hten1 | by eapply Hten].
Qed.

Lemma assign_nodes_Ok managed ssv (l : list (nat * ProcessedNode)) a a' :
  for_each
    (fun a (npn : nat * ProcessedNode) =>
       svs ← slot_values npn.2;
       for_each (assign_slot managed ssv npn.1 npn.2) svs a)
    l a = Ok a' →
  assignment_ok a →
  assignment_ok a'
  ∧ (∀ t, in_clusters (managed_tensors a') t
          ↔ in_clusters (managed_tensors a) t
            ∨ (∃ pn v, (t.1, pn) ∈ l ∧ (t.2 < length (p_outputs_ pn))%nat
                       ∧ outputs (node_ pn) !! t.2 = Some v ∧ v ∈ managed))
  ∧ (∀ n pn i v, (n, pn) ∈ l → (i < length (p_outputs_ pn))%nat →
                 outputs (node_ pn) !! i = Some v → v ∈ managed →
                 ∃ ival, p_outputs_ pn !! i = Some ival ∧ isTensor ival = true).
Proof.
  detach. revert a. induction l as [| [n pn] l IH]; intros a H Hok; simpl in H.
  - injection H as <-. split; [done |]. split.
    + intros t. split; [by left |]. intros [Ht | (pn & v & Hin%elem_of_nil & _)]; done.
    + by intros n pn i v Hin%elem_of_nil.
  - apply bind_Ok in H as (a1 & H1 & H). apply bind_Ok in H1 as (svs & Hsvs & H1).
    pose proof (slot_values_Ok _ _ Hsvs) as Hslots.
    destruct (assign_slots_Ok _ _ _ _ _ _ _ H1 Hok) as (Hok1 & Hin1 & Hten1).
    destruct (IH _ H Hok1) as (Hok' & Hin & Hten). simpl in *.
    split; [done |]. split.
    + intros t. rewrite Hin, Hin1. split.
      * intros [[Ht | (<- & v & Hv & Hm)] | (pn' & v & Hl & Hrest)].
        -- by left.
        -- right. exists pn, v. apply Hslots in Hv as [Hi Hv]. split; [by left | done].
        -- right. exists pn', v. split; [by right | done].
      * intros [Ht | (pn' & v & [[= -> ->] | Hl]%elem_of_cons & Hi & Hv & Hm)].
        -- left. by left.
        -- left. right. split; [done |]. exists v. split; [by apply Hslots | done].
        -- right. by exists pn', v.
    + intros n' pn' i v [[= -> ->] | Hl]%elem_of_cons Hi Hv Hm.
      * apply (Hten1 i v); [by apply Hslots | done].
      * by eapply Hten.
Qed.

(** X11: what the constructor of the planner decides.  The slots in the
    clusters are exactly the output slots whose value is a tensor
    output, not external, of a node with an out variant and is not an
    output of the graph; each holds a tensor.  The unmanaged slots are
    exactly the output slots whose value is neither such a tensor nor a
    leaked container and which no output pointer of the runtime points
    at.  No cluster is empty or has a size yet. *)
Theorem MemoryPlanner_new_partition rt ssv external enable_out_variant mgom pl :
  MemoryPlanner_new rt ssv external enable_out_variant mgom = Ok pl →
  let g := graph_ (static_module_ rt) in
  let ns := nodes_ rt in
  (∀ t, in_clusters (managed_tensors_ pl) t
        ↔ ∃ v, slot_value ns t.1 t.2 v
               ∧ managed_value enable_out_variant g ns external v
               ∧ v ∉ graph_outputs g)
  ∧ (∀ t, in_clusters (managed_tensors_ pl) t →
          ∃ ival, output_slot ns t.1 t.2 = Some ival ∧ isTensor ival = true)
  ∧ (∀ t, t ∈ unmanaged_ivalues_ pl
          ↔ (∃ v, slot_value ns t.1 t.2 v
                  ∧ ¬ managed_value enable_out_variant g ns external v
                  ∧ ¬ leaked_value enable_out_variant g ns external v)
            ∧ OutputSlot t.1 t.2 ∉ outputs_ rt)
  ∧ NoDup (unmanaged_ivalues_ pl)
  ∧ (∀ ms, ms ∈ managed_tensors_ pl → ms.1 = 0%Z ∧ ms.2 ≠ [])
  ∧ managed_bytes_ pl = 0%Z ∧ buffer_ pl = None.
Proof.
  detach. intros H g ns. unfold MemoryPlanner_new in H.
  apply bind_Ok in H as ([managed leaked] & Hml & H).
  apply bind_Ok in H as (um & Hum & H). apply bind_Ok in H as (mts & Hmts & H).
  injection H as <-. simpl in *. fold g in Hml, Hmts. fold ns in Hml, Hum, Hmts.
  assert (Hmanaged : ∀ v, v ∈ managed ↔ managed_value enable_out_variant g ns external v).
  { intros v. unfold managed_value. destruct enable_out_variant.
    - destruct (collected_managed _ _ _ _ _ Hml v) as [-> _]. simpl.
      rewrite elem_of_empty. clear. naive_solver.
    - injection Hml as <- <-. rewrite elem_of_empty. clear. naive_solver. }
  assert (Hleaked : ∀ v, v ∈ leaked ↔ leaked_value enable_out_variant g ns external v).
  { intros v. unfold leaked_value. destruct enable_out_variant.
    - destruct (collected_managed _ _ _ _ _ Hml v) as [_ ->]. simpl.
      rewrite elem_of_empty. clear. naive_solver.
    - injection Hml as <- <-. rewrite elem_of_empty. clear. naive_solver. }
  assert (Hclusters :
    (∀ t, in_clusters mts t
          ↔ ∃ v, slot_value ns t.1 t.2 v ∧ v ∈ erase_all (graph_outputs g) managed)
    ∧ (∀ t, in_clusters mts t →
            ∃ ival, output_slot ns t.1 t.2 = Some ival ∧ isTensor ival = true)
    ∧ (∀ ms, ms ∈ mts → ms.1 = 0%Z ∧ ms.2 ≠ [])).
  { destruct enable_out_variant.
    - unfold assign_storage_to_managed_tensors in Hmts.
      apply bind_Ok in Hmts as (a & Ha & Hmts). injection Hmts as <-.
      assert (Hok0 : assignment_ok {| value_to_storage_idx := ∅; managed_tensors := [] |}).
      { split; [by intros ms Hms%elem_of_nil | by intros v k Hv]. }
      destruct (assign_nodes_Ok _ _ _ _ _ Ha Hok0) as ([Hsz _] & Hin & Hten). simpl in *.
      assert (Hin' : ∀ t, in_clusters (managed_tensors a) t
                ↔ ∃ v, slot_value ns t.1 t.2 v ∧ v ∈ erase_all (graph_outputs g) managed).
      { intros t. rewrite Hin. unfold slot_value. split.
        - intros [(ms & Hms%elem_of_nil & _) | (pn & v & Hl & Hi & Hv & Hm)]; [done |].
          exists v. split; [| done]. exists pn. by apply elem_of_numbered in Hl.
        - intros (v & (pn & Hpn & Hi & Hv) & Hm). right. exists pn, v.
          by apply elem_of_numbered in Hpn. }
      split; [done |]. split; [| done].
      intros t (v & (pn & Hpn & Hi & Hv) & Hm)%Hin'.
      destruct (Hten t.1 pn t.2 v) as (ival & Hival & Hten'); try done.
      { by apply elem_of_numbered. }
      exists ival. unfold output_slot. by rewrite Hpn.
    - injection Hmts as <-. split; [| split].
      + intros t. split; [by intros (ms & Hms%elem_of_nil & _) |].
        intros (v & _ & (Hv & _)%elem_of_erase_all). apply Hmanaged in Hv as [? _]. done.
      + by intros t (ms & Hms%elem_of_nil & _).
      + by intros ms Hms%elem_of_nil. }
  destruct Hclusters as (Hin & Hten & Hsz).
  split; [| split; [done |]; split; [| split; [apply NoDup_elements |]; done]].
  - intros t. rewrite Hin. split.
    + intros (v & Hslot & (Hv & Hout)%elem_of_erase_all). exists v.
      split; [done |]. split; [by apply Hmanaged | done].
    + intros (v & Hslot & Hv & Hout). exists v. split; [done |].
      apply elem_of_erase_all. split; [by apply Hmanaged | done].
  - intros t. rewrite elem_of_elements, erased_outputs.
    rewrite (collected_unmanaged _ _ _ _ _ Hum t), elem_of_empty.
    unfold slot_value. split.
    + intros [[[] | (pn & v & Hl & Hi & Hv & Hnm & Hnl)] Hout]. split; [| done].
      exists v. split; [exists pn; by apply elem_of_numbered in Hl |].
      split; [by rewrite <- Hmanaged | by rewrite <- Hleaked].
    + intros [(v & (pn & Hpn & Hi & Hv) & Hnm & Hnl) Hout]. split; [| done].
      right. exists pn, v. split; [by apply elem_of_numbered |].
      split; [done |]. split; [done |].
      split; [by rewrite Hmanaged | by rewrite Hleaked].
Qed.

(** *** Where [allocate] puts the tensors *)

(** The storage points at [src] and holds [size] bytes. *)
Definition placed_at (src size : Z) (h : gmap StorageId StorageImpl) (s : StorageId)
  : Prop :=
  h !! s = Some {| data := Some src; nbytes := size |}.

Lemma place_tensors_layout ns src size ts r h r' h' :
  for_each (place_tensor ns src size) ts (r, h) = Ok (r', h') →
  (∀ s0, (∀ t, t ∈ ts → tensor_storage ns t ≠ Ok s0) → h' !! s0 = h !! s0)
  ∧ (∀ s0, placed_at src size h s0 → placed_at src size h' s0)
  ∧ (∀ t s, t ∈ ts → tensor_storage ns t = Ok s → placed_at src size h' s).
Proof.
  detach. revert r h. induction ts as [| t ts IH]; intros r h H; simpl in H.
  - injection H as <- <-. split; [done |]. split; [done |]. by intros t s Ht%elem_of_nil.
  - apply bind_Ok in H as ([r1 h1] & H1 & H).
    unfold place_tensor in H1. apply bind_Ok in H1 as (s & Hs & H1).
    apply bind_Ok in H1 as (impl & _ & H1). simplify_eq. simpl in *.
    destruct (IH _ _ H) as (Hother & Hkeep & Hset).
    assert (Hnew : placed_at src size
                     (<[s := {| data := Some src; nbytes := size |}]> h) s).
    { unfold placed_at. by rewrite lookup_insert_eq. }
    split; [| split].
    + intros s0 Hs0. rewrite Hother.
      * apply lookup_insert_ne. intros <-. apply (Hs0 t); [by left | done].
      * intros t' Ht'. apply Hs0. by right.
    + intros s0 H0. apply Hkeep. destruct (decide (s0 = s)) as [-> | Hne]; [done |].
      unfold placed_at. by rewrite lookup_insert_ne.
    + intros t' s' [-> | Ht']%elem_of_cons Hs'; [| by eapply Hset].
      rewrite Hs in Hs'. injection Hs' as <-. by apply Hkeep.
Qed.

Lemma total_of_range mts : SizeT.in_range (total_of mts).
Proof.
  destruct mts as [| ms mts _] using rev_ind.
  - unfold total_of, SizeT.in_range, SizeT.modulus, SizeT.bits. simpl. lia.
  - rewrite total_of_app. apply SizeT.wrap_range.
Qed.

Lemma total_of_skip mts ms : ms.1 = 0%Z → total_of (mts ++ [ms]) = total_of mts.
Proof.
  intros Hz. rewrite total_of_app, Hz. unfold SizeT.add. rewrite Z.add_0_r.
  apply SizeT.wrap_id, total_of_range.
Qed.

(** What the loop over the clusters does in [allocate]: [done_] are the
    clusters already placed. *)
Lemma place_clusters_layout ns start mb todo done_ st st' :
  offset st = total_of done_ →
  for_each (place_cluster ns start mb) todo st = Ok st' →
  offset st' = total_of (done_ ++ todo)
  ∧ (∀ s, (∀ ms t, ms ∈ todo → ms.1 ≠ 0%Z → t ∈ ms.2 → tensor_storage ns t ≠ Ok s) →
          placed st' !! s = placed st !! s)
  ∧ (separate_clusters ns (done_ ++ todo) →
     ∀ j ms t s,
       todo !! j = Some ms → ms.1 ≠ 0%Z → t ∈ ms.2 → tensor_storage ns t = Ok s →
       placed_at (start + total_of (done_ ++ take j todo)) ms.1 (placed st') s)
  ∧ (debug = true →
     ∀ j ms, todo !! j = Some ms → ms.1 ≠ 0%Z →
             (total_of (done_ ++ take (S j) todo) ≤ mb)%Z).
Proof.
  revert done_ st. induction todo as [| ms todo IH]; intros done_ st Hoff H; simpl in H.
  - injection H as <-. rewrite app_nil_r. split; [done |]. split; [done |].
    split; [by intros _ j ms t s Hj | by intros _ j ms Hj].
  - apply bind_Ok in H as (st1 & H1 & H).
    assert (Hoff1 : offset st1 = total_of (done_ ++ [ms])).
    { unfold place_cluster in H1. destruct (decide (ms.1 = 0%Z)) as [Hz | Hz].
      - injection H1 as <-. by rewrite total_of_skip.
      - apply bind_Ok in H1 as (u & _ & H1). apply bind_Ok in H1 as (r & _ & H1).
        injection H1 as <-. simpl. by rewrite total_of_app, Hoff. }
    destruct (IH _ _ Hoff1 H) as (Hoff' & Hframe & Hlay & Hchk).
    rewrite <- app_assoc in Hoff'. simpl in Hoff'.
    split; [done |]. split; [| split].
    + intros s Hs. rewrite Hframe.
      * unfold place_cluster in H1. destruct (decide (ms.1 = 0%Z)) as [Hz | Hz].
        -- by injection H1 as <-.
        -- apply bind_Ok in H1 as (u & _ & H1). apply bind_Ok in H1 as ([r h1] & Hr & H1).
           injection H1 as <-. simpl.
           apply place_tensors_layout in Hr as [Hother _]. apply Hother.
           intros t Ht. apply (Hs ms t); [by left | done | done].
      * intros ms' t Hms'. apply Hs. by right.
    + intros Hsep [| j] ms' t s Hj Hnz Ht Hs; simpl in Hj.
      * injection Hj as <-. simpl. rewrite app_nil_r.
        unfold place_cluster in H1. rewrite decide_False in H1 by done.
        apply bind_Ok in H1 as (u & _ & H1). apply bind_Ok in H1 as ([r h1] & Hr & H1).
        injection H1 as <-. simpl in *.
        apply place_tensors_layout in Hr as (_ & _ & Hset).
        unfold placed_at. rewrite Hframe.
        -- rewrite <- Hoff. by apply (Hset t s).
        -- intros ms' t' Hms' _ Ht' Hs'.
           apply (Hsep done_ ms todo ms' t t' s); [done | | done | done | done | done].
           apply elem_of_app. by right.
      * assert (Hsep' : separate_clusters ns ((done_ ++ [ms]) ++ todo))
          by (by rewrite <- app_assoc).
        specialize (Hlay Hsep' j ms' t s Hj Hnz Ht Hs).
        rewrite <- app_assoc in Hlay. exact Hlay.
    + intros Hd [| j] ms' Hj Hnz; simpl in Hj.
      * injection Hj as <-. simpl. rewrite take_0.
        unfold place_cluster in H1. rewrite decide_False in H1 by done.
        apply bind_Ok in H1 as (u & Hu & H1). unfold dcheck in Hu. rewrite Hd in Hu.
        rewrite total_of_app, <- Hoff.
        destruct (bool_decide _) eqn:Hb in Hu; [| done].
        by apply bool_decide_eq_true in Hb.
      * specialize (Hchk Hd j ms' Hj Hnz). rewrite <- app_assoc in Hchk. exact Hchk.
Qed.

(** X12: the layout [allocate] produces when there are bytes to manage.
    The buffer is requested once, with [managed_bytes_] bytes; the
    clusters and the cached sum stay; storages of no sized cluster are
    untouched.  When no storage belongs to two clusters, every tensor of a
    sized cluster points into the buffer at the sum of the sizes of the
    clusters before its own, with the size of its cluster.  In a debug
    build every sized cluster ends within [managed_bytes_]. *)
Theorem allocate_layout ns h pl pl' h' es :
  managed_bytes_ pl ≠ 0%Z →
  allocate ns h pl = Ok (pl', h', es) →
  let start := cpu_caching_allocate (managed_bytes_ pl) in
  let mts := managed_tensors_ pl in
  buffer_ pl' = Some start
  ∧ es = [AllocateBuffer (managed_bytes_ pl)]
  ∧ managed_tensors_ pl' = mts
  ∧ managed_bytes_ pl' = managed_bytes_ pl
  ∧ (∀ s, (∀ ms t, ms ∈ mts → ms.1 ≠ 0%Z → t ∈ ms.2 → tensor_storage ns t ≠ Ok s) →
          h' !! s = h !! s)
  ∧ (separate_clusters ns mts →
     ∀ j ms t s,
       mts !! j = Some ms → ms.1 ≠ 0%Z → t ∈ ms.2 → tensor_storage ns t = Ok s →
       placed_at (start + total_of (take j mts)) ms.1 h' s)
  ∧ (debug = true →
     ∀ j ms, mts !! j = Some ms → ms.1 ≠ 0%Z →
             (total_of (take (S j) mts) ≤ managed_bytes_ pl)%Z).
Proof.
  intros Hnz H start mts. unfold allocate in H. rewrite decide_False in H by done.
  apply bind_Ok in H as (st & Hst & H). apply bind_Ok in H as (u & _ & H).
  injection H as <- <- <-. simpl.
  destruct (place_clusters_layout ns start (managed_bytes_ pl) mts []
              {| offset := 0; reused := 0; placed := h |} st eq_refl Hst)
    as (_ & Hframe & Hlay & Hchk).
  simpl in *. by repeat split.
Qed.

(** *** Which graphs and modules are accepted *)

(** The node is one Static Runtime can run: a constant, or a node with an
    operator or a registered native implementation. *)
Definition supported (n : Node) : bool :=
  is_constant n || has_operator n || nativeOpIsRegistered lib (kind n).

Lemma check_nodes acc ns :
  foldl check_node acc ns
  = (acc.1 && forallb supported ns,
     acc.2 || existsb (fun n => bool_decide (0 < blocks n)%nat) ns).
Proof.
  detach. revert acc. induction ns as [| n ns IH]; intros [can has]; simpl.
  - by rewrite andb_true_r, orb_false_r.
  - rewrite IH. clear IH. unfold check_node, supported. simpl.
    destruct (decide (0 < blocks n)%nat) as [Hb | Hb].
    + rewrite (bool_decide_eq_true_2 _ Hb).
      destruct (is_constant n), (has_operator n), (nativeOpIsRegistered lib (kind n)),
        can, has; simpl; try done;
        by rewrite ?andb_true_r, ?andb_false_r, ?orb_true_r, ?orb_false_r.
    + rewrite (bool_decide_eq_false_2 _ Hb).
      destruct (is_constant n), (has_operator n), (nativeOpIsRegistered lib (kind n)),
        can, has; simpl; try done;
        by rewrite ?andb_true_r, ?andb_false_r, ?orb_true_r, ?orb_false_r.
Qed.

(** X13: [canEnableStaticRuntime] accepts a graph exactly when no node
    has a sub-block and every node that is not a constant has an operator
    or a registered native implementation. *)
Theorem canEnableStaticRuntime_iff g :
  canEnableStaticRuntime g = true
  ↔ ∀ n, n ∈ nodes g →
         blocks n = 0%nat
         ∧ (is_constant n = true ∨ has_operator n = true
            ∨ nativeOpIsRegistered lib (kind n) = true).
Proof.
  detach. unfold canEnableStaticRuntime. rewrite check_nodes. simpl.
  destruct (existsb _ (nodes g)) eqn:Hex.
  - split; [done |]. intros Hall.
    apply existsb_exists in Hex as (n & Hn%list_elem_of_In & Hb).
    apply bool_decide_eq_true in Hb. destruct (Hall n Hn) as [Hz _]. lia.
  - rewrite forallb_forall. split.
    + intros Hall n Hn. split.
      * destruct (decide (0 < blocks n)%nat) as [Hb | Hb]; [| lia].
        assert (Hex' : existsb (fun n => bool_decide (0 < blocks n)%nat) (nodes g) = true).
        { apply existsb_exists. exists n. split; [by apply list_elem_of_In |].
          by apply bool_decide_eq_true. }
        congruence.
      * apply list_elem_of_In, Hall in Hn. unfold supported in Hn.
        apply orb_true_iff in Hn as [Hn%orb_true_iff | Hn]; tauto.
    + intros Hall n Hn%list_elem_of_In. destruct (Hall n Hn) as [_ Hs].
      unfold supported. rewrite !orb_true_iff. tauto.
Qed.

(** X14: the constructor from a graph.  A graph [canEnableStaticRuntime]
    rejects makes it throw before the flags are looked at; when it
    returns, the module holds the optimised graph, has no module and no
    schema, its first input is not the module, and the flags passed the
    two checks. *)
Theorem StaticModule_of_graph_prepares g opts :
  (canEnableStaticRuntime g = false → StaticModule_of_graph g opts = Throw CheckFailed)
  ∧ (∀ sm, StaticModule_of_graph g opts = Ok sm →
           canEnableStaticRuntime g = true
           ∧ check_opt_flags opts = Ok tt
           ∧ graph_ sm = OptimizeGraph g opts
           ∧ opts_ sm = opts
           ∧ module_ sm = None ∧ schema_ sm = None ∧ first_input_is_self_ sm = false).
Proof.
  unfold StaticModule_of_graph, PrepareGraphForStaticModule. split.
  - by intros ->.
  - intros sm H. apply bind_Ok in H as (g' & Hg' & H).
    apply bind_Ok in Hg' as ([] & Hcan & Hg'). apply torch_check_Ok in Hcan.
    injection Hg' as <-. unfold StaticModule_new in H.
    apply bind_Ok in H as ([] & Hflags & H). unfold StaticModule_build in H.
    apply bind_Ok in H as (h & Hh & H). simpl in Hh. injection Hh as <-.
    apply bind_Ok in H as (cs & _ & H). apply bind_Ok in H as (cw & _ & H).
    apply bind_Ok in H as (b & _ & H). apply bind_Ok in H as (ssv & _ & H).
    injection H as <-. done.
Qed.

(** X15: how the constructor treats the module argument of [forward].
    The graph must have a first input.  The first input stays as the
    module exactly when it has module type and is used; then the schema
    is that of [forward].  Otherwise the schema must start with [self],
    which is dropped, and the first input is erased only if it has module
    type; nodes, outputs and types are never touched. *)
Theorem handle_schema_self g md g' s first_is_self :
  handle_schema g (Some md) = Ok (g', s, first_is_self) →
  ∃ self rest,
    graph_inputs g = self :: rest
    ∧ nodes g' = nodes g ∧ graph_outputs g' = graph_outputs g
    ∧ value_type g' = value_type g
    ∧ (first_is_self = true
       ↔ value_type g self = ModuleType ∧ hasUses g self = true)
    ∧ (first_is_self = true → g' = g ∧ s = Some (forward_schema md))
    ∧ (first_is_self = false →
       graph_inputs g'
       = (if decide (value_type g self = ModuleType) then rest else self :: rest)
       ∧ ∃ args, arguments (forward_schema md) = "self"%string :: args
                 ∧ s = Some {| arguments := args;
                               is_mutable := is_mutable (forward_schema md) |}).
Proof.
  detach. unfold handle_schema, RemoveSelfFromGraphInput. intros H.
  apply bind_Ok in H as ([b g1] & H1 & H).
  destruct (graph_inputs g) as [| self rest] eqn:Hin; [done |].
  exists self, rest. split; [done |].
  assert (Hschema : ∀ g2, (s0 ← RemoveSelfFromSchema (forward_schema md);
                           Ok (g2, Some s0, false)) = Ok (g', s, first_is_self) →
            g' = g2 ∧ first_is_self = false
            ∧ ∃ args, arguments (forward_schema md) = "self"%string :: args
                      ∧ s = Some {| arguments := args;
                                    is_mutable := is_mutable (forward_schema md) |}).
  { intros g2 H2. apply bind_Ok in H2 as (s0 & Hs0 & H2). injection H2 as <- <- <-.
    unfold RemoveSelfFromSchema in Hs0.
    destruct (arguments (forward_schema md)) as [| a args]; [done |].
    apply bind_Ok in Hs0 as ([] & Hch & Hs0). apply torch_check_Ok in Hch.
    apply bool_decide_eq_true in Hch. injection Hs0 as <-. subst a.
    split; [done |]. split; [done |]. by exists args. }
  assert (Hkept : value_type g self ≠ ModuleType ∨ hasUses g self = false →
            (b, g1) = (true, if decide (value_type g self = ModuleType)
                             then eraseInput0 g else g)).
  { intros Hcase. destruct (value_type g self) eqn:Hty;
      try (rewrite decide_False by done; congruence).
    destruct Hcase as [? | Huses]; [done |]. rewrite Huses in H1.
    rewrite decide_True by done. congruence. }
  destruct (decide (value_type g self = ModuleType ∧ hasUses g self = true))
    as [[Hty Huses] | Hnot].
  - rewrite Hty, Huses in H1. injection H1 as <- <-. simpl in H.
    injection H as <- <- <-. by repeat split.
  - assert (Hcase : value_type g self ≠ ModuleType ∨ hasUses g self = false).
    { destruct (decide (value_type g self = ModuleType)); [right | by left].
      destruct (hasUses g self); [tauto | done]. }
    apply Hkept in Hcase. injection Hcase as -> ->. simpl in H.
    apply Hschema in H as (-> & -> & Hargs).
    split; [by destruct (decide _) |]. split; [by destruct (decide _) |].
    split; [by destruct (decide _) |]. split; [split; [done | tauto] |].
    split; [done |]. intros _. split; [| done].
    destruct (decide _); [| done]. simpl. by rewrite Hin.
Qed.

(** *** How the constructors wire the nodes *)

(** A definition points at a slot there is: an input, a constant, or an
    output of a node whose numbers of outputs are [sizes]. *)
Definition valid_def (nin ncs : nat) (sizes : list nat) (d : DefInfo) : Prop :=
  match d.1 with
  | INPUT_VALUE => (d.2 < nin)%nat
  | CONSTANT_VALUE => (d.2 < ncs)%nat
  | NodeIndex n => ∃ sz, sizes !! n = Some sz ∧ (d.2 < sz)%nat
  end.

(** A pointer of [value_to_ivalue] is null or agrees with the definition. *)
Definition agrees (p : option IValuePtr) (d : DefInfo) : Prop :=
  p = None ∨ p = Some (resolve d).

Definition wiring_ok (nin ncs : nat) (sizes : list nat) (w : Wiring) : Prop :=
  ∀ v p, value_to_ivalue w !! v = Some p →
         ∃ d, value_to_ssa_def w !! v = Some d ∧ valid_def nin ncs sizes d ∧ agrees p d.

(** The node has exactly one way to run. *)
Definition one_handler (pn : ProcessedNode) : Prop :=
  match fn_ pn, native_fn_ pn, op_ pn with
  | Some _, None, None | None, Some _, None | None, None, Some _ => True
  | _, _, _ => False
  end.

Definition sizes_of (built : list ProcessedNode) : list nat :=
  map (fun pn => length (p_outputs_ pn)) built.

(** What the constructor of the module knows of the node [idx]. *)
Definition node_ok (nin ncs : nat) (built : list ProcessedNode)
  (index_map : gmap nat (list DefInfo)) (idx : nat) (pn : ProcessedNode) : Prop :=
  one_handler pn
  ∧ p_outputs_ pn = replicate (length (outputs (node_ pn))) IVNone
  ∧ length (p_inputs_ pn) = length (inputs (node_ pn))
  ∧ ∃ defs, index_map !! idx = Some defs
            ∧ Forall2 (fun p d => valid_def nin ncs (take idx (sizes_of built)) d
                                  ∧ agrees p d)
                (p_inputs_ pn) defs.

Definition build_ok (nin ncs : nat) (b : Build) : Prop :=
  node_idx b = length (built b)
  ∧ wiring_ok nin ncs (sizes_of (built b)) (wiring b)
  ∧ ∀ idx pn, built b !! idx = Some pn → node_ok nin ncs (built b) (index_map b) idx pn.

Lemma valid_def_mono nin ncs ncs' sizes sizes' d :
  (ncs ≤ ncs')%nat → sizes `prefix_of` sizes' →
  valid_def nin ncs sizes d → valid_def nin ncs' sizes' d.
Proof.
  detach. unfold valid_def. intros Hle [rest ->]. destruct d.1; [done | lia |].
  intros (sz & Hsz & Hlt). exists sz. split; [| done]. by apply lookup_app_l_Some.
Qed.

Lemma wiring_ok_mono nin ncs ncs' sizes sizes' w :
  (ncs ≤ ncs')%nat → sizes `prefix_of` sizes' →
  wiring_ok nin ncs sizes w → wiring_ok nin ncs' sizes' w.
Proof.
  detach. intros Hle Hpre Hw v p Hp. destruct (Hw v p Hp) as (d & Hd & Hv & Ha).
  exists d. split; [done |]. split; [by eapply valid_def_mono | done].
Qed.

Lemma wire_ok nin ncs sizes w v p d :
  wiring_ok nin ncs sizes w → valid_def nin ncs sizes d → agrees p d →
  wiring_ok nin ncs sizes (wire v p d w).
Proof.
  detach. intros Hw Hv Ha v' p'. unfold wire. simpl.
  destruct (decide (v = v')) as [-> | Hne].
  - rewrite !lookup_insert_eq. intros [= <-]. by exists d.
  - rewrite !lookup_insert_ne by done. apply Hw.
Qed.

Lemma wire_all_ok nin ncs sizes (origin : Origin) (l : list (nat * Value)) w :
  wiring_ok nin ncs sizes w →
  (∀ iv, iv ∈ l → valid_def nin ncs sizes (origin, iv.1)) →
  wiring_ok nin ncs sizes
    (foldl (fun w (iv : nat * Value) => wire iv.2 None (origin, iv.1) w) w l).
Proof.
  detach. revert w. induction l as [| iv l IH]; intros w Hw Hl; simpl; [done |].
  apply IH.
  - apply wire_ok; [done | apply Hl; by left | by left].
  - intros iv' Hiv'. apply Hl. by right.
Qed.

Lemma wire_inputs_ok g : wiring_ok (length (graph_inputs g)) 0 [] (wire_inputs g).
Proof.
  detach. unfold wire_inputs. apply wire_all_ok; [by intros v p Hp |].
  intros [i v] Hiv%elem_of_numbered. unfold valid_def. simpl. by eapply lookup_lt_Some.
Qed.

Lemma wire_constants_ok nin sizes ns acc acc' :
  for_each wire_constant ns acc = Ok acc' →
  wiring_ok nin acc.1 sizes acc.2 →
  acc'.1 = (acc.1 + length (List.filter is_constant ns))%nat
  ∧ wiring_ok nin acc'.1 sizes acc'.2.
Proof.
  detach. revert acc. induction ns as [| n ns IH]; intros acc H Hw; simpl in H.
  - injection H as <-. simpl. split; [lia | done].
  - apply bind_Ok in H as (acc1 & H1 & H). unfold wire_constant in H1. simpl.
    destruct (is_constant n).
    + apply bind_Ok in H1 as (v & _ & H1). injection H1 as <-.
      destruct (IH _ H) as [Hc Hw']; [| split; [simpl in *; lia | done]].
      simpl. apply wire_ok.
      * eapply wiring_ok_mono; [| done | exact Hw]. lia.
      * unfold valid_def. simpl. lia.
      * by right.
    + injection H1 as <-. by apply IH.
Qed.

Lemma fill_constants_length g ns cs cs' :
  for_each (fill_constant g) ns cs = Ok cs' →
  length cs' = (length cs + length (List.filter is_constant ns))%nat.
Proof.
  detach. revert cs. induction ns as [| n ns IH]; intros cs H; simpl in H.
  - injection H as <-. simpl. lia.
  - apply bind_Ok in H as (cs1 & H1 & H). unfold fill_constant in H1. simpl.
    apply IH in H. destruct (is_constant n).
    + apply bind_Ok in H1 as (v & _ & H1). apply bind_Ok in H1 as (u & _ & H1).
      destruct (constant_ivalue n); [| done]. injection H1 as <-.
      rewrite length_app in H. simpl in *. lia.
    + injection H1 as <-. done.
Qed.

Lemma ProcessedNode_new_Ok node ins enable_out_variant pn :
  ProcessedNode_new node ins enable_out_variant = Ok pn →
  node_ pn = node ∧ p_inputs_ pn = ins
  ∧ p_outputs_ pn = replicate (length (outputs node)) IVNone
  ∧ one_handler pn.
Proof.
  detach. unfold ProcessedNode_new, one_handler. intros H.
  destruct (if enable_out_variant then getOutOfPlaceOperation lib node else None) eqn:Hfn.
  - by injection H as <-.
  - destruct (getNativeOperation lib node).
    + by injection H as <-.
    + apply bind_Ok in H as (u & _ & H). by injection H as <-.
Qed.

Lemma read_wiring nin ncs sizes w ins acc io :
  wiring_ok nin ncs sizes w →
  for_each
    (fun (acc : list (option IValuePtr) * list DefInfo) input =>
       p ← at_key (value_to_ivalue w) input;
       d ← at_key (value_to_ssa_def w) input;
       Ok (acc.1 ++ [p], acc.2 ++ [d]))
    ins acc = Ok io →
  Forall2 (fun p d => valid_def nin ncs sizes d ∧ agrees p d) acc.1 acc.2 →
  Forall2 (fun p d => valid_def nin ncs sizes d ∧ agrees p d) io.1 io.2
  ∧ length io.1 = (length acc.1 + length ins)%nat.
Proof.
  detach. intros Hw. revert acc. induction ins as [| v ins IH]; intros acc H Hacc; simpl in H.
  - injection H as <-. split; [done | simpl; lia].
  - apply bind_Ok in H as (acc1 & H1 & H). apply bind_Ok in H1 as (p & Hp & H1).
    apply bind_Ok in H1 as (d & Hd & H1). injection H1 as <-.
    apply at_key_Ok in Hp, Hd.
    destruct (Hw v p Hp) as (d' & Hd' & Hv & Ha). rewrite Hd in Hd'. injection Hd' as <-.
    destruct (IH _ H) as [HF Hlen].
    + simpl. apply Forall2_app; [done |]. by constructor.
    + split; [done |]. simpl in Hlen. rewrite length_app in Hlen. simpl in *. lia.
Qed.

Lemma sizes_of_app built pn :
  sizes_of (built ++ [pn]) = sizes_of built ++ [length (p_outputs_ pn)].
Proof. unfold sizes_of. by rewrite map_app. Qed.

Lemma build_node_ok nin ncs enable_out_variant b n b' :
  build_node enable_out_variant b n = Ok b' →
  build_ok nin ncs b →
  build_ok nin ncs b'
  ∧ map node_ (built b')
    = map node_ (built b) ++ (if is_constant n then [] else [n]).
Proof.
  detach. unfold build_node. intros H (Hidx & Hw & Hnodes).
  destruct (is_constant n).
  { injection H as <-. split; [done | by rewrite app_nil_r]. }
  apply bind_Ok in H as (io & Hio & H). apply bind_Ok in H as (pn & Hpn & H).
  injection H as <-.
  apply ProcessedNode_new_Ok in Hpn as (Hnode & Hins & Houts & Hone).
  destruct (read_wiring _ _ _ _ _ _ _ Hw Hio) as [HF Hlen]; [by constructor |].
  simpl in Hlen. split; [| simpl; rewrite map_app; simpl; by rewrite Hnode].
  split; [| split]; simpl.
  - rewrite length_app. simpl. lia.
  - rewrite sizes_of_app. unfold wire_outputs. apply wire_all_ok.
    + eapply wiring_ok_mono; [done | | exact Hw]. by apply prefix_app_r.
    + intros [i v] Hiv%elem_of_numbered. unfold valid_def. simpl.
      exists (length (p_outputs_ pn)). split.
      * rewrite Hidx. unfold sizes_of. rewrite lookup_app_r by (by rewrite length_map).
        by rewrite length_map, Nat.sub_diag.
      * rewrite Houts, length_replicate. by eapply lookup_lt_Some.
  - intros idx pn' Hlook. apply lookup_app_Some in Hlook as [Hold | [Hge Hnew]].
    + pose proof (lookup_lt_Some _ _ _ Hold) as Hlt.
      destruct (Hnodes idx pn' Hold) as (H1 & H2 & H3 & defs & Hdefs & HF').
      split; [done |]. split; [done |]. split; [done |]. exists defs. split.
      * rewrite lookup_insert_ne by lia. done.
      * rewrite sizes_of_app, take_app_le; [done |]. unfold sizes_of. rewrite length_map. lia.
    + apply list_lookup_singleton_Some in Hnew as [Hz <-].
      assert (Hidx' : idx = length (built b)) by lia. subst idx.
      split; [done |]. split; [by rewrite Hnode in * |].
      split; [by rewrite Hins, Hnode |]. exists io.2. split.
      * rewrite Hidx. apply lookup_insert_eq.
      * rewrite Hins, sizes_of_app, take_app_le by (unfold sizes_of; by rewrite length_map).
        rewrite take_ge by (unfold sizes_of; by rewrite length_map). done.
Qed.

Lemma build_nodes_ok nin ncs enable_out_variant ns b b' :
  for_each (build_node enable_out_variant) ns b = Ok b' →
  build_ok nin ncs b →
  build_ok nin ncs b'
  ∧ map node_ (built b')
    = map node_ (built b) ++ List.filter (fun n => negb (is_constant n)) ns.
Proof.
  detach. revert b. induction ns as [| n ns IH]; intros b H Hok; simpl in H.
  - injection H as <-. split; [done | by rewrite app_nil_r].
  - apply bind_Ok in H as (b1 & H1 & H).
    destruct (build_node_ok _ _ _ _ _ _ H1 Hok) as [Hok1 Hmap1].
    destruct (IH _ H Hok1) as [Hok' Hmap]. split; [done |].
    rewrite Hmap, Hmap1, <- app_assoc. simpl. by destruct (is_constant n).
Qed.

Lemma StaticModule_build_ok gm opts sm :
  StaticModule_build gm opts = Ok sm →
  (∀ idx pn, sm_nodes_ sm !! idx = Some pn →
             node_ok (num_inputs sm) (length (constants_ sm)) (sm_nodes_ sm)
               (node_inputs_ssa_def_map_ sm) idx pn)
  ∧ map node_ (sm_nodes_ sm)
    = List.filter (fun n => negb (is_constant n)) (nodes (graph_ sm))
  ∧ length (output_ssa_defs_ sm) = num_outputs sm.
Proof.
  unfold StaticModule_build. intros H. apply bind_Ok in H as (h & _ & H).
  apply bind_Ok in H as (cs & Hcs & H). apply bind_Ok in H as (cw & Hcw & H).
  apply bind_Ok in H as (b & Hb & H). apply bind_Ok in H as (ssv & _ & H).
  injection H as <-. unfold num_inputs, num_outputs. simpl.
  apply fill_constants_length in Hcs. simpl in Hcs.
  destruct (wire_constants_ok (length (graph_inputs h.1.1)) [] _ _ _ Hcw) as [Hc Hw].
  { apply wire_inputs_ok. }
  simpl in Hc. rewrite <- Hcs in Hc. rewrite Hc in Hw.
  destruct (build_nodes_ok (length (graph_inputs h.1.1)) (length cs) _ _ _ _ Hb)
    as [(_ & _ & Hnodes) Hmap].
  { split; [done |]. split; [done |]. by intros idx pn Hl. }
  split; [done |]. split; [done | by rewrite length_map].
Qed.

(** The node [idx] of the runtime: the node of the module with its null
    input pointers resolved through the definitions. *)
Definition hooked (sm : StaticModule) (idx : nat) (pn : ProcessedNode) : ProcessedNode :=
  set_inputs_of
    (map (fun d => Some (resolve d)) (default [] (node_inputs_ssa_def_map_ sm !! idx)))
    pn.

Lemma drop_cons_inv {A} (l : list A) k x rest :
  drop k l = x :: rest → l !! k = Some x ∧ drop (S k) l = rest.
Proof.
  intros H. split.
  - rewrite <- (Nat.add_0_r k), <- lookup_drop, H. done.
  - replace (S k) with (k + 1)%nat by lia. rewrite <- drop_drop, H. done.
Qed.

Lemma hook_inputs_Ok sm idx defs_all ptrs k defs acc :
  node_inputs_ssa_def_map_ sm !! idx = Some defs_all →
  drop k defs_all = defs → Forall2 agrees ptrs defs →
  for_each (hook_input sm idx) (zip (seq k (length ptrs)) ptrs) acc
  = Ok (acc ++ map (fun d => Some (resolve d)) defs).
Proof.
  detach. intros Hmap. revert k defs acc.
  induction ptrs as [| p ptrs IH]; intros k defs acc Hdrop HF.
  - apply Forall2_nil_inv_l in HF as ->. simpl. by rewrite app_nil_r.
  - apply Forall2_cons_inv_l in HF as (d & defs' & Ha & HF & ->).
    apply drop_cons_inv in Hdrop as [Hk Hdrop]. simpl.
    assert (Hstep : hook_input sm idx acc (k, p) = Ok (acc ++ [Some (resolve d)])).
    { unfold hook_input. simpl. destruct p as [q |].
      - destruct Ha as [? | [= ->]]; done.
      - unfold at_key. rewrite Hmap. simpl. by rewrite Hk. }
    rewrite Hstep. simpl. rewrite (IH (S k) defs' _ Hdrop HF), <- app_assoc. done.
Qed.

Lemma hook_nodes_Ok sm l k acc :
  (∀ idx pn, sm_nodes_ sm !! idx = Some pn →
             ∃ defs, node_inputs_ssa_def_map_ sm !! idx = Some defs
                     ∧ Forall2 agrees (p_inputs_ pn) defs) →
  drop k (sm_nodes_ sm) = l →
  for_each (hook_node sm) (zip (seq k (length l)) l) acc
  = Ok (acc ++ zip_with (hooked sm) (seq k (length l)) l).
Proof.
  detach. intros Hall. revert k acc. induction l as [| pn l IH]; intros k acc Hdrop.
  - simpl. by rewrite app_nil_r.
  - apply drop_cons_inv in Hdrop as [Hk Hdrop].
    destruct (Hall k pn Hk) as (defs & Hdefs & HF).
    assert (Hstep : hook_node sm acc (k, pn) = Ok (acc ++ [hooked sm k pn])).
    { unfold hook_node. cbn [fst snd].
      rewrite (hook_inputs_Ok sm k defs (p_inputs_ pn) 0 defs [] Hdefs eq_refl HF).
      simpl. unfold hooked. by rewrite Hdefs. }
    cbn [length seq zip_with for_each]. rewrite Hstep. simpl.
    rewrite (IH (S k) _ Hdrop), <- app_assoc. done.
Qed.

Lemma lookup_hooked sm (l : list ProcessedNode) i :
  zip_with (hooked sm) (seq 0 (length l)) l !! i = hooked sm i <$> l !! i.
Proof.
  rewrite lookup_zip_with. destruct (l !! i) as [pn |] eqn:Hl.
  - rewrite lookup_seq_lt by (by eapply lookup_lt_Some). done.
  - rewrite lookup_seq_ge by (by apply lookup_ge_None). done.
Qed.

Lemma output_slot_is_Some ns n j pn :
  ns !! n = Some pn → (j < length (p_outputs_ pn))%nat → is_Some (output_slot ns n j).
Proof.
  intros Hn Hj. unfold output_slot. rewrite Hn. simpl. by apply lookup_lt_is_Some_2.
Qed.

(** The pointer of the node [idx] points at a slot of the runtime: an
    input, a constant, or an output of an earlier node. *)
Definition valid_ptr (rt : StaticRuntime) (idx : nat) (p : IValuePtr) : Prop :=
  match p with
  | InputSlot i => (i < length (inputs_ rt))%nat
  | ConstantSlot c => (c < length (constants rt))%nat
  | OutputSlot n j =>
      (n < idx)%nat ∧ ∃ pn, nodes_ rt !! n = Some pn ∧ (j < length (p_outputs_ pn))%nat
  end.

Lemma runtime_wired gm opts sm :
  StaticModule_new gm opts = Ok sm →
  ∃ rt,
    StaticRuntime_new sm = Ok rt
    ∧ inputs_ rt = replicate (num_inputs sm) IVNone
    ∧ length (outputs_ rt) = num_outputs sm
    ∧ planner_ rt = None
    ∧ map node_ (nodes_ rt)
      = List.filter (fun n => negb (is_constant n)) (nodes (graph_ sm))
    ∧ ∀ idx pn,
        nodes_ rt !! idx = Some pn →
        one_handler pn
        ∧ p_outputs_ pn = replicate (length (outputs (node_ pn))) IVNone
        ∧ length (p_inputs_ pn) = length (inputs (node_ pn))
        ∧ Forall (fun p => ∃ ptr, p = Some ptr ∧ valid_ptr rt idx ptr
                                  ∧ is_Some (deref rt ptr))
            (p_inputs_ pn).
Proof.
  unfold StaticModule_new. intros H. apply bind_Ok in H as (u & _ & H).
  apply StaticModule_build_ok in H as (Hnodes & Hmap & Houts).
  unfold StaticRuntime_new.
  rewrite (hook_nodes_Ok sm (sm_nodes_ sm) 0 []); [| | done].
  2: { intros idx pn Hpn. destruct (Hnodes idx pn Hpn) as (_ & _ & _ & defs & Hdefs & HF).
       exists defs. split; [done |]. eapply Forall2_impl; [exact HF |]. by intros p d [_ ?]. }
  simpl. eexists. split; [done |]. simpl.
  split; [done |]. split; [by rewrite length_map |]. split; [done |].
  assert (Hsame : ∀ idx pn', zip_with (hooked sm) (seq 0 (length (sm_nodes_ sm)))
                               (sm_nodes_ sm) !! idx = Some pn' →
            ∃ pn, sm_nodes_ sm !! idx = Some pn ∧ pn' = hooked sm idx pn).
  { intros idx pn'. rewrite lookup_hooked. destruct (sm_nodes_ sm !! idx) as [pn |]; [| done].
    intros [= <-]. by exists pn. }
  split.
  { rewrite <- Hmap. apply list_eq. intros i.
    change (map node_) with (fmap (M := list) node_).
    rewrite !list_lookup_fmap, lookup_hooked. by destruct (sm_nodes_ sm !! i). }
  intros idx pn' (pn & Hpn & ->)%Hsame.
  destruct (Hnodes idx pn Hpn) as (Hone & Hout & Hlen & defs & Hdefs & HF).
  split; [done |]. split; [done |]. unfold hooked. rewrite Hdefs. simpl.
  split; [rewrite length_map; by rewrite <- (Forall2_length _ _ _ HF) |].
  apply Forall_forall. intros p (d & <- & Hd)%list_elem_of_In%in_map_iff.
  exists (resolve d). split; [done |].
  assert (Hvalid : valid_def (num_inputs sm) (length (constants_ sm))
                     (take idx (sizes_of (sm_nodes_ sm))) d).
  { apply list_elem_of_In, list_elem_of_lookup in Hd as (k & Hk).
    destruct (Forall2_lookup_r _ _ _ _ _ HF Hk) as (p & _ & Hv & _). done. }
  unfold valid_def in Hvalid. unfold resolve, valid_ptr, deref. simpl.
  destruct d as [[| | n] j]; simpl in *.
  - rewrite length_replicate. split; [done |].
    apply lookup_lt_is_Some_2. by rewrite length_replicate.
  - split; [done | by apply lookup_lt_is_Some_2].
  - destruct Hvalid as (sz & Hsz & Hj). apply lookup_take_Some in Hsz as [Hsz Hn].
    unfold sizes_of in Hsz. change (map ?f) with (fmap (M := list) f) in Hsz.
    apply list_lookup_fmap_Some in Hsz as (pn0 & -> & Hpn0).
    assert (Hrt : zip_with (hooked sm) (seq 0 (length (sm_nodes_ sm))) (sm_nodes_ sm) !! n
                  = Some (hooked sm n pn0)).
    { by rewrite lookup_hooked, Hpn0. }
    split.
    + split; [done |]. by exists (hooked sm n pn0).
    + apply (output_slot_is_Some _ n j _ Hrt Hj).
Qed.

(** X16: a module that was constructed always yields a runtime, and the
    runtime is wired.  It has one node for each node of the graph that is
    not a constant, in the order of the graph; each has exactly one
    handler, an empty output slot for each output and a pointer for each
    input, none of them null, that points at an input slot, a constant or
    an output slot of an earlier node.  There is an input slot, holding
    none, for each input of the graph and a pointer for each output; there
    is no planner yet. *)
Theorem StaticRuntime_new_wired gm opts sm :
  StaticModule_new gm opts = Ok sm →
  ∃ rt,
    StaticRuntime_new sm = Ok rt
    ∧ inputs_ rt = replicate (num_inputs sm) IVNone
    ∧ length (outputs_ rt) = num_outputs sm
    ∧ planner_ rt = None
    ∧ map node_ (nodes_ rt)
      = List.filter (fun n => negb (is_constant n)) (nodes (graph_ sm))
    ∧ ∀ idx pn,
        nodes_ rt !! idx = Some pn →
        one_handler pn
        ∧ p_outputs_ pn = replicate (length (outputs (node_ pn))) IVNone
        ∧ length (p_inputs_ pn) = length (inputs (node_ pn))
        ∧ Forall (fun p => ∃ ptr, p = Some ptr ∧ valid_ptr rt idx ptr
                                  ∧ is_Some (deref rt ptr))
            (p_inputs_ pn).
Proof. apply runtime_wired. Qed.

Lemma valid_ptr_is_Some rt idx p : valid_ptr rt idx p → is_Some (deref rt p).
Proof.
  destruct p as [i | c | n j]; simpl.
  - apply lookup_lt_is_Some_2.
  - apply lookup_lt_is_Some_2.
  - intros [_ (pn & Hpn & Hj)]. by eapply output_slot_is_Some.
Qed.

Lemma same_slots_lookup rt rt' n pn :
  same_slots rt rt' → nodes_ rt !! n = Some pn →
  ∃ pn', nodes_ rt' !! n = Some pn' ∧ skeleton pn' = skeleton pn.
Proof.
  intros (_ & _ & Hsk) Hpn.
  assert (Hl : map skeleton (nodes_ rt') !! n = Some (skeleton pn)).
  { rewrite Hsk. change (map skeleton) with (fmap (M := list) skeleton).
    by rewrite list_lookup_fmap, Hpn. }
  change (map skeleton) with (fmap (M := list) skeleton) in Hl.
  apply list_lookup_fmap_Some in Hl as (pn' & Heq & Hpn'). by exists pn'.
Qed.

Lemma skeleton_eq pn pn' :
  skeleton pn' = skeleton pn →
  node_ pn' = node_ pn ∧ p_inputs_ pn' = p_inputs_ pn
  ∧ length (p_outputs_ pn') = length (p_outputs_ pn)
  ∧ fn_ pn' = fn_ pn ∧ native_fn_ pn' = native_fn_ pn ∧ op_ pn' = op_ pn.
Proof.
  unfold skeleton, set_outputs. intros [= H1 H2 H3 H4 H5 H6].
  repeat split; try done.
  by rewrite <- (length_replicate (length (p_outputs_ pn')) IVNone), H3, length_replicate.
Qed.

Lemma same_slots_sym rt rt' : same_slots rt rt' → same_slots rt' rt.
Proof. intros (? & ? & ?). by repeat split. Qed.

Lemma valid_ptr_same_slots rt rt' idx p :
  same_slots rt rt' → valid_ptr rt idx p → valid_ptr rt' idx p.
Proof.
  intros Hs. pose proof Hs as (Hi & Hc & _). destruct p as [i | c | n j]; simpl.
  - by rewrite Hi.
  - by rewrite Hc.
  - intros [Hn (pn & Hpn & Hj)]. split; [done |].
    destruct (same_slots_lookup _ _ _ _ Hs Hpn) as (pn' & Hpn' & Hsk).
    apply skeleton_eq in Hsk as (_ & _ & Hlen & _). exists pn'. split; [done | lia].
Qed.

Lemma read_inputs_Ok rt ptrs acc :
  Forall (fun p => ∃ ptr, p = Some ptr ∧ is_Some (deref rt ptr)) ptrs →
  ∃ vals,
    for_each
      (fun acc (p : option IValuePtr) =>
         ptr ← defined p; v ← defined (deref rt ptr); Ok (acc ++ [v]))
      ptrs acc = Ok (acc ++ vals)
    ∧ length vals = length ptrs.
Proof.
  revert acc. induction ptrs as [| p ptrs IH]; intros acc Hall.
  - exists []. simpl. by rewrite app_nil_r.
  - apply Forall_cons in Hall as [(ptr & -> & [v Hv]) Hall].
    destruct (IH (acc ++ [v]) Hall) as (vals & Hvals & Hlen).
    exists (v :: vals). simpl. rewrite Hv. simpl. rewrite Hvals, <- app_assoc.
    split; [done | by rewrite Hlen].
Qed.

(** X17: reading the inputs of a node never goes through a dangling or
    null pointer, on the runtime the constructor made or on any runtime
    with the same slots, such as the one a call leaves: every pointer
    still points at an input, a constant or an output of an earlier node,
    and [run] reads one value for each input of the node. *)
Theorem read_inputs_defined gm opts sm rt0 rt idx pn :
  StaticModule_new gm opts = Ok sm →
  StaticRuntime_new sm = Ok rt0 →
  same_slots rt0 rt →
  nodes_ rt !! idx = Some pn →
  Forall (fun p => ∃ ptr, p = Some ptr ∧ valid_ptr rt idx ptr) (p_inputs_ pn)
  ∧ ∃ ins, read_inputs rt pn = Ok ins ∧ length ins = length (inputs (node_ pn)).
Proof.
  intros Hsm Hrt Hs Hpn. destruct (runtime_wired _ _ _ Hsm) as (rt0' & Hrt' & _ & _ & _ & _ & Hw).
  rewrite Hrt in Hrt'. injection Hrt' as <-.
  destruct (same_slots_lookup _ _ _ _ (same_slots_sym _ _ Hs) Hpn) as (pn0 & Hpn0 & Hsk).
  apply skeleton_eq in Hsk as (Hnode & Hins & _).
  destruct (Hw idx pn0 Hpn0) as (_ & _ & Hlen & Hall).
  assert (Hvalid : Forall (fun p => ∃ ptr, p = Some ptr ∧ valid_ptr rt idx ptr)
                     (p_inputs_ pn)).
  { rewrite <- Hins. eapply Forall_impl; [exact Hall |].
    intros p (ptr & -> & Hv & _). exists ptr. split; [done |].
    by eapply valid_ptr_same_slots. }
  split; [done |]. unfold read_inputs.
  destruct (read_inputs_Ok rt (p_inputs_ pn) []) as (vals & Hvals & Hl).
  { eapply Forall_impl; [exact Hvalid |]. intros p (ptr & -> & Hv).
    exists ptr. split; [done | by eapply valid_ptr_is_Some]. }
  exists vals. split; [done |]. by rewrite Hl, <- Hins, <- Hnode.
Qed.

(** *** What [set_inputs] writes *)

Lemma assign_inputs_Ok first vals rt rt' :
  assign_inputs first vals rt = Ok rt' →
  (first + length vals ≤ length (inputs_ rt))%nat
  ∧ rt' = set_inputs_
            (take first (inputs_ rt) ++ vals ++ drop (first + length vals) (inputs_ rt)) rt.
Proof.
  unfold assign_inputs. destruct (decide _) as [Hle |]; intros Heq; by simplify_eq.
Qed.

(** The values [set_inputs] puts in front of the positional arguments. *)
Definition self_argument (sm : StaticModule) : list IValue :=
  if first_input_is_self_ sm
  then match module_ sm with
       | Some m => [module_ivalue m]
       | None => []
       end
  else [].

(** X18: [set_inputs] overwrites a prefix of the input slots and nothing
    else.  Without keyword arguments the prefix is the module, if it is
    the first input, followed by the arguments; with keyword arguments it
    is what the schema, which must exist, makes of them.  The prefix never
    exceeds the slots, and in a debug build it covers them all. *)
Theorem set_inputs_writes_prefix rt args kwargs rt' :
  set_inputs rt args kwargs = Ok rt' →
  ∃ stack,
    rt' = set_inputs_ (stack ++ drop (length stack) (inputs_ rt)) rt
    ∧ (length stack ≤ length (inputs_ rt))%nat
    ∧ (debug = true → length stack = length (inputs_ rt))
    ∧ (first_input_is_self_ (static_module_ rt) = true → is_Some (module_ (static_module_ rt)))
    ∧ match kwargs with
      | [] => stack = self_argument (static_module_ rt) ++ args
      | _ :: _ =>
          ∃ schema, schema_ (static_module_ rt) = Some schema
                    ∧ checkAndNormalizeInputs schema
                        (self_argument (static_module_ rt) ++ args) kwargs = Ok stack
      end.
Proof.
  unfold set_inputs, self_argument. intros H.
  assert (Hd : ∀ (n m : nat) u, dcheck (bool_decide (n = m)) = Ok u → debug = true → n = m).
  { intros n m u Hu Hdbg. unfold dcheck in Hu. rewrite Hdbg in Hu. simpl in Hu.
    destruct (bool_decide (n = m)) eqn:Hb; [by apply bool_decide_eq_true in Hb | done]. }
  destruct kwargs as [| kw kwargs].
  - destruct (first_input_is_self_ (static_module_ rt)) eqn:Hself.
    + apply bind_Ok in H as (m & Hm & H). apply defined_Ok in Hm. rewrite Hm.
      apply bind_Ok in H as (rt1 & H1 & H). apply bind_Ok in H as (u & Hu & H).
      apply assign_inputs_Ok in H1 as [Hle1 ->]. apply assign_inputs_Ok in H as [Hle ->].
      simpl in *. rewrite length_drop in Hle, Hu.
      exists (module_ivalue m :: args).
      split; [| split; [| split; [| split]]]; simpl; try done.
      * unfold set_inputs_. simpl. rewrite drop_drop.
        by replace (1 + length args)%nat with (S (length args)) by lia.
      * lia.
      * intros Hdbg. apply (Hd _ _ _ Hu) in Hdbg. lia.
    + apply bind_Ok in H as (u & Hu & H). apply assign_inputs_Ok in H as [Hle ->].
      simpl in *. exists args.
      split; [done |]. split; [done |]. split; [| done].
      intros Hdbg. by apply (Hd _ _ _ Hu) in Hdbg.
  - apply bind_Ok in H as (schema & Hschema & H). apply bind_Ok in H as (self & Hself & H).
    apply bind_Ok in H as (stack & Hstack & H). apply bind_Ok in H as (u & Hu & H).
    apply assign_inputs_Ok in H as [Hle ->]. simpl in *. exists stack.
    split; [done |]. split; [done |].
    split; [intros Hdbg; by apply (Hd _ _ _ Hu) in Hdbg |].
    destruct (schema_ (static_module_ rt)) as [s |]; [| done]. injection Hschema as ->.
    destruct (first_input_is_self_ (static_module_ rt)).
    + apply bind_Ok in Hself as (m & Hm & Hself). apply defined_Ok in Hm.
      injection Hself as <-. rewrite Hm. split; [done |]. by exists schema.
    + injection Hself as <-. split; [done |]. by exists schema.
Qed.

(** *** The plan across calls *)

Lemma allocate_keeps ns h pl pl' h' es :
  allocate ns h pl = Ok (pl', h', es) →
  managed_tensors_ pl' = managed_tensors_ pl
  ∧ unmanaged_ivalues_ pl' = unmanaged_ivalues_ pl
  ∧ managed_bytes_ pl' = managed_bytes_ pl.
Proof.
  unfold allocate. destruct (decide _); intros H; [by simplify_eq |].
  apply bind_Ok in H as (st & _ & H). apply bind_Ok in H as (u & _ & H). by simplify_eq.
Qed.

(** X19: once a runtime has a planner, a call that returns never builds
    another: the clusters hold the same tensors in the same order, their
    learned sizes never shrink, and the unmanaged slots are the same.
    With [cleanup_activations] the buffer is given up before the call
    returns. *)
Theorem invoke_keeps_plan rt args kwargs v rt' pl :
  planner_ rt = Some pl →
  invoke rt args kwargs = Ok (v, rt') →
  ∃ pl',
    planner_ rt' = Some pl'
    ∧ unmanaged_ivalues_ pl' = unmanaged_ivalues_ pl
    ∧ Forall2 (fun n o : Z * list (nat * nat) => n.2 = o.2 ∧ (o.1 ≤ n.1)%Z)
        (managed_tensors_ pl') (managed_tensors_ pl)
    ∧ (cleanup_activations (opts_ (static_module_ rt)) = true → buffer_ pl' = None)
    ∧ (cleanup_activations (opts_ (static_module_ rt)) = false →
       managed_tensors_ pl' = managed_tensors_ pl
       ∧ managed_bytes_ pl' = managed_bytes_ pl).
Proof.
  intros Hpl H. unfold invoke in H. rewrite Hpl in H.
  apply bind_Ok in H as (rt1 & H1 & H). apply bind_Ok in H as (rt2 & H2 & H).
  apply bind_Ok in H as (rt3 & H3 & H). apply bind_Ok in H as (rt4 & H4 & H).
  apply bind_Ok in H1 as ([[pl1 h1] es] & Ha & H1). injection H1 as <-.
  apply allocate_keeps in Ha as (Hm1 & Hu1 & Hb1).
  apply set_inputs_silent in H2 as [(_ & Hp2 & _) _].
  apply run_nodes_logs in H3 as (_ & Hp3 & _).
  assert (Hp : planner_ rt3 = Some pl1) by (by rewrite Hp3, Hp2).
  assert (Hrefl : Forall2 (fun n o : Z * list (nat * nat) => n.2 = o.2 ∧ (o.1 ≤ n.1)%Z)
                    (managed_tensors_ pl) (managed_tensors_ pl)).
  { apply Forall_Forall2_diag, Forall_forall. intros x _. split; [done | lia]. }
  assert (H4' : ∃ pl4,
            planner_ rt4 = Some pl4
            ∧ unmanaged_ivalues_ pl4 = unmanaged_ivalues_ pl
            ∧ Forall2 (fun n o : Z * list (nat * nat) => n.2 = o.2 ∧ (o.1 ≤ n.1)%Z)
                (managed_tensors_ pl4) (managed_tensors_ pl)
            ∧ (cleanup_activations (opts_ (static_module_ rt)) = true → buffer_ pl4 = None)
            ∧ (cleanup_activations (opts_ (static_module_ rt)) = false →
               managed_tensors_ pl4 = managed_tensors_ pl
               ∧ managed_bytes_ pl4 = managed_bytes_ pl)).
  { destruct (cleanup_activations (opts_ (static_module_ rt))).
    - unfold clean_up in H4. rewrite Hp in H4.
      apply bind_Ok in H4 as (pl0 & Hpl0 & H4). injection Hpl0 as <-.
      apply bind_Ok in H4 as ([[pl4 ns4] h4] & Hd & H4). injection H4 as <-. simpl.
      apply deallocate_Ok in Hd as (st & Hst & _ & Hm & _ & Hu & _ & Hb & _).
      apply learn_clusters_release in Hst as (new & Hl & Hall & _). simpl in Hl.
      exists pl4. split; [done |]. split; [congruence |].
      split; [by rewrite Hm, Hl, <- Hm1 |]. split; [done | done].
    - injection H4 as <-. exists pl1. split; [done |]. split; [done |].
      split; [by rewrite Hm1 |]. split; [done | done]. }
  destruct H4' as (pl4 & Hp4 & Hrest). exists pl4. split; [| done].
  destruct (decide (1 < num_outputs (static_module_ rt))%nat).
  - apply bind_Ok in H as (r & Hr & H). injection H as <- <-.
    apply move_outputs_silent in Hr as (_ & Hp5 & _). simpl in Hp5. congruence.
  - apply bind_Ok in H as (rt5 & H5 & H). apply bind_Ok in H as (p & _ & H).
    apply move_out_silent in H as (_ & Hp6 & _).
    destruct debug.
    + apply bind_Ok in H5 as (u & _ & H5). injection H5 as <-. simpl in Hp6. congruence.
    + injection H5 as <-. congruence.
Qed.

(** *** What a leak check that passes has seen *)

Lemma for_each_unit {A} (body : unit → A → result unit) (xs : list A) :
  for_each body xs tt = Ok tt ↔ ∀ x, x ∈ xs → body tt x = Ok tt.
Proof.
  induction xs as [| x xs IH]; simpl.
  - split; [by intros _ x Hx%elem_of_nil | done].
  - split.
    + intros H. apply bind_Ok in H as ([] & Hx & H).
      pose proof (proj1 IH H) as Hall.
      intros y [-> | Hy]%elem_of_cons; [done | by apply Hall].
    + intros H. rewrite (H x) by (by left). simpl. apply (proj2 IH).
      intros y Hy. apply H. by right.
Qed.

(** The slot [(n, i)], which holds [ival], was cleaned up: a slot of an
    output is empty once the output was returned; any other slot is
    empty, or holds a tensor without data or a container that is leaked
    on purpose. *)
Definition clean_slot (rt : StaticRuntime) (output_returned : bool)
  (n : nat) (pn : ProcessedNode) (i : nat) (ival : IValue) : Prop :=
  if decide (OutputSlot n i ∈ outputs_ rt)
  then output_returned = true → ival = IVNone
  else ival = IVNone
       ∨ ((isTensor ival = true ∨ isOptimizableContainerType lib (node_ pn) = true)
          ∧ ∀ s, ival = IVTensor (Some s) →
                 ∃ impl, storages rt !! s = Some impl ∧ data impl = None).

Lemma check_slot_Ok rt output_returned n pn i :
  check_slot rt output_returned n pn tt i = Ok tt
  ↔ ∃ ival, p_outputs_ pn !! i = Some ival
            ∧ (i < length (outputs (node_ pn)))%nat
            ∧ clean_slot rt output_returned n pn i ival.
Proof.
  detach. unfold check_slot, clean_slot.
  destruct (p_outputs_ pn !! i) as [ival |]; simpl; [| split; [done | by intros (? & ? & _)]].
  destruct (decide (i < length (outputs (node_ pn)))%nat) as [Hi | Hi]; simpl;
    [| split; [done | by intros (? & _ & ? & _)]].
  assert (Hex : ∀ P : IValue → Prop, P ival ↔ ∃ v, Some ival = Some v ∧ (i < length (outputs (node_ pn)))%nat ∧ P v).
  { intros P. split; [intros HP; by exists ival | by intros (v & [= <-] & _ & HP)]. }
  rewrite <- (Hex (fun ival => if decide (OutputSlot n i ∈ outputs_ rt) then _ else _)).
  clear Hex. destruct (decide (OutputSlot n i ∈ outputs_ rt)) as [Hout | Hout].
  - destruct output_returned; [| done].
    destruct ival; simpl; split; try done; intros H; by specialize (H eq_refl).
  - destruct ival as [| [s |] | |]; simpl.
    + split; [by left | done].
    + destruct (storages rt !! s) as [impl |] eqn:Himpl; simpl.
      * rewrite torch_check_Ok, bool_decide_eq_true. split.
        -- intros Hd. right. split; [by left |]. intros s' [= <-]. by exists impl.
        -- intros [? | [_ Hs]]; [done |]. destruct (Hs s eq_refl) as (impl' & Heq & Hd). congruence.
      * split; [done |]. intros [? | [_ Hs]]; [done |].
        destruct (Hs s eq_refl) as (impl' & Heq & _). congruence.
    + split; [| done]. intros _. right. split; [by left | done].
    + destruct (isOptimizableContainerType lib (node_ pn)); simpl.
      * split; [| done]. intros _. right. split; [by right | done].
      * split; [done |]. intros [? | [[? | ?] _]]; done.
    + destruct (isOptimizableContainerType lib (node_ pn)); simpl.
      * split; [| done]. intros _. right. split; [by right | done].
      * split; [done |]. intros [? | [[? | ?] _]]; done.
Qed.

(** X20: with [cleanup_activations], [check_for_memory_leak] passes
    exactly when every input slot is empty and every output slot of every
    node is within the outputs of its node and was cleaned up; without
    the flag it always passes. *)
Theorem check_for_memory_leak_iff rt output_returned :
  check_for_memory_leak rt output_returned = Ok tt
  ↔ (cleanup_activations (opts_ (static_module_ rt)) = true →
     (∀ v, v ∈ inputs_ rt → isNone v = true)
     ∧ ∀ n pn i ival,
         nodes_ rt !! n = Some pn → p_outputs_ pn !! i = Some ival →
         (i < length (outputs (node_ pn)))%nat
         ∧ clean_slot rt output_returned n pn i ival).
Proof.
  detach. unfold check_for_memory_leak.
  destruct (cleanup_activations (opts_ (static_module_ rt))); simpl; [| done].
  split.
  - intros H _. apply bind_Ok in H as ([] & Hin & H).
    rewrite for_each_unit in Hin. rewrite for_each_unit in H. split.
    + intros v Hv. apply (proj1 (torch_check_Ok _ CheckFailed)). by apply Hin.
    + intros n pn i ival Hpn Hival.
      specialize (H (n, pn) (proj2 (elem_of_numbered _ _ _) Hpn)). simpl in H.
      rewrite for_each_unit in H.
      assert (Hi : i ∈ seq 0 (length (p_outputs_ pn))).
      { apply elem_of_seq. apply lookup_lt_Some in Hival. lia. }
      apply H, check_slot_Ok in Hi as (ival' & Hival' & Hlt & Hclean).
      rewrite Hival in Hival'. injection Hival' as <-. done.
  - intros H. destruct (H eq_refl) as [Hin Hslots].
    assert (Hfirst : for_each (fun _ (v : IValue) => torch_check (isNone v) CheckFailed)
                       (inputs_ rt) tt = Ok tt).
    { apply for_each_unit. intros v Hv. apply torch_check_Ok. by apply Hin. }
    rewrite Hfirst. simpl. apply for_each_unit. intros [n pn] Hpn%elem_of_numbered. simpl.
    apply for_each_unit. intros i Hi%elem_of_seq. apply check_slot_Ok.
    destruct (lookup_lt_is_Some_2 (p_outputs_ pn) i) as [ival Hival]; [lia |].
    exists ival. split; [done |]. by apply (Hslots n pn i ival).
Qed.

End WithCollaborators.

(** C9 as the spec words it, for the overlap probe [probe] and the
    storages [h]: with an immutable schema the check fails exactly when a
    tensor among the inputs and a tensor among the outputs overlap in
    memory. *)
Definition fails_exactly_on_overlap
  (probe : option StorageId → option StorageId → MemOverlapStatus)
  (h : gmap StorageId StorageImpl) (pn : ProcessedNode) (ins : list IValue) : Prop :=
  ∀ schema,
    maybeSchema (node_ pn) = Some schema → is_mutable schema = false →
    (verify_outputs_not_overlapping_with_immutable_inputs probe pn ins = false
     ↔ ∃ in_t out_t,
         IVTensor in_t ∈ ins ∧ IVTensor out_t ∈ p_outputs_ pn
         ∧ storages_overlap h in_t out_t).

End Runtime.

(** ** Small graphs used as witnesses *)

Module Examples.

Import IR Analysis.

Definition op (ins outs : list Value) : Node :=
  {| kind := OtherKind 0; inputs := ins; outputs := outs; maybeSchema := None;
     blocks := 0; has_operator := true; constant_ivalue := None |}.

Definition constant (out : Value) (c : IValue) : Node :=
  {| kind := prim_Constant; inputs := []; outputs := [out]; maybeSchema := None;
     blocks := 0; has_operator := true; constant_ivalue := Some c |}.

(** A database in which the set query holds when some pair does. *)
Definition pairwise_db (alias contain : Value -> Value -> bool) : AliasDb :=
  {| mayAlias := alias;
     mayContainAlias := contain;
     mayContainAliasSets := fun xs ys => existsb (fun x => existsb (contain x) ys) xs |}.

Definition same_value (a b : Value) : bool := bool_decide (a = b).

(** Nothing aliases anything else. *)
Definition no_alias_db : AliasDb := pairwise_db same_value same_value.

(** [%1] and [%2] may alias, and so may [%2] and [%3]; [%1] and [%3] do not. *)
Definition chain_alias (a b : Value) : bool :=
  same_value a b || bool_decide ((a, b) ∈ [(1, 2); (2, 1); (2, 3); (3, 2)]).

Definition chain_db : AliasDb := pairwise_db chain_alias chain_alias.

(** [%1 = f(%0); %2 = g(%1); %3 = h(%2); %4 = k(%3); return %4] *)
Definition line_graph : Graph :=
  {| graph_inputs := [0]; graph_outputs := [4];
     nodes := [op [0] [1]; op [1] [2]; op [2] [3]; op [3] [4]];
     value_type := fun _ => TensorType |}.

(** [%1 = f(%0); %2 = g(%1); %3 = h(%2); %4 = k(%1, %3); return %4] *)
Definition fork_graph : Graph :=
  {| graph_inputs := [0]; graph_outputs := [4];
     nodes := [op [0] [1]; op [1] [2]; op [2] [3]; op [1; 3] [4]];
     value_type := fun _ => TensorType |}.

(** [%1 = f(%0, %0); return %1] *)
Definition single_op_graph : Graph :=
  {| graph_inputs := [0]; graph_outputs := [1];
     nodes := [op [0; 0] [1]];
     value_type := fun _ => TensorType |}.

(** [%1 = f(%0); %2 = g(%1); return %2], with [%1] a view of [%0]. *)
Definition view_graph : Graph :=
  {| graph_inputs := [0]; graph_outputs := [2];
     nodes := [op [0] [1]; op [1] [2]];
     value_type := fun _ => TensorType |}.

Definition view_alias (a b : Value) : bool :=
  same_value a b || bool_decide ((a, b) ∈ [(0, 1); (1, 0)]).

Definition view_db : AliasDb := pairwise_db view_alias view_alias.

Definition every_node_reuses (n : Node) : bool := true.

Definition value_or {A} (d : A) (r : result A) : A :=
  match r with
  | Ok a => a
  | _ => d
  end.

Definition fork_liveness : gmap Value (gset Value) :=
  value_or ∅
    (GetLivenessMap fork_graph chain_db (GetAlwaysAliveValues fork_graph chain_db)).

Definition fork_clusters : gmap Value (list Value) :=
  value_or ∅
    (GenerateSameStorageValues fork_liveness (GetAlwaysAliveValues fork_graph chain_db)
       chain_db (GetMemoryPlanningCandidates fork_graph every_node_reuses)).

Definition line_liveness : gmap Value (gset Value) :=
  value_or ∅
    (GetLivenessMap line_graph no_alias_db (GetAlwaysAliveValues line_graph no_alias_db)).

Definition line_clusters : gmap Value (list Value) :=
  value_or ∅
    (GenerateSameStorageValues line_liveness (GetAlwaysAliveValues line_graph no_alias_db)
       no_alias_db (GetMemoryPlanningCandidates line_graph every_node_reuses)).

Lemma pairwise_db_monotone alias contain :
  sets_query_monotone (pairwise_db alias contain).
Proof.
  intros a l l' Hsub. simpl. rewrite !existsb_exists.
  intros (x & Hx & Hex). exists x. split; [done |].
  apply existsb_exists in Hex as (y & Hy & Hc). apply existsb_exists.
  exists y. split; [| done]. apply list_elem_of_In, Hsub, list_elem_of_In, Hy.
Qed.

End Examples.

Module AnalysisWitnesses.

Import IR Analysis Examples.

Lemma GetAlwaysAliveValues_witness :
  sets_query_monotone view_db
  ∧ 0 ∈ GetAlwaysAliveValues view_graph view_db
  ∧ 2 ∈ GetAlwaysAliveValues view_graph view_db
  ∧ 1 ∈ GetAlwaysAliveValues view_graph view_db.
Proof.
  pose proof (pairwise_db_monotone view_alias view_alias) as Hmono.
  destruct (GetAlwaysAliveValues_seeds_and_aliases view_graph view_db) as [Hseed Halias].
  split; [exact Hmono |]. split; [| split].
  - apply Hseed. left. by left.
  - apply Hseed. right. left. by left.
  - apply (Halias Hmono (op [0] [1]) 1).
    + by left.
    + discriminate.
    + by left.
    + reflexivity.
Defined.

(** An always-alive value among the reuse candidates: the graph input of a
    graph whose only node can reuse its inputs and outputs. *)
Lemma always_alive_reuse_candidate :
  ¬ (∀ v, v ∈ (GetMemoryPlanningCandidates single_op_graph every_node_reuses).1 →
          v ∉ GetAlwaysAliveValues single_op_graph no_alias_db).
Proof.
  intros H. apply (H 0); vm_compute_decide.
Qed.

Lemma fork_graph_analysis :
  GetLivenessMap fork_graph chain_db (GetAlwaysAliveValues fork_graph chain_db)
  = Ok fork_liveness
  ∧ GenerateSameStorageValues fork_liveness (GetAlwaysAliveValues fork_graph chain_db)
      chain_db (GetMemoryPlanningCandidates fork_graph every_node_reuses)
    = Ok fork_clusters
  ∧ fork_clusters !! 1 = Some [1; 2; 3]
  ∧ 3 ∈ live_of fork_liveness 1.
Proof.
  split; [by vm_compute |]. split; [by vm_compute |]. split; [by vm_compute |].
  vm_compute_decide.
Qed.

(** [%1] and [%3] of [fork_graph] end in one cluster, are live together and
    are not said to alias. *)
Lemma chained_cluster_not_aliased :
  ¬ clusters_free_or_aliased fork_graph chain_db every_node_reuses.
Proof.
  intros H. destruct fork_graph_analysis as (Hlm & Hssv & Hc & Hlive).
  destruct (H _ _ Hlm Hssv 1 [1; 2; 3] 3 Hc) as [[Hfree _] | [Ha | Ha]].
  - right. right. by left.
  - lia.
  - by apply Hfree.
  - discriminate Ha.
  - discriminate Ha.
Qed.

Lemma same_storage_clusters_witness :
  GetLivenessMap line_graph no_alias_db (GetAlwaysAliveValues line_graph no_alias_db)
  = Ok line_liveness
  ∧ GenerateSameStorageValues line_liveness (GetAlwaysAliveValues line_graph no_alias_db)
      no_alias_db (GetMemoryPlanningCandidates line_graph every_node_reuses)
    = Ok line_clusters
  ∧ line_clusters !! 1 = Some [1; 3]
  ∧ (no_edge line_liveness 1 3 ∨ alias_chain no_alias_db 1 3).
Proof.
  assert (Hlm : GetLivenessMap line_graph no_alias_db
                  (GetAlwaysAliveValues line_graph no_alias_db) = Ok line_liveness)
    by (vm_compute; reflexivity).
  assert (Hssv : GenerateSameStorageValues line_liveness
                   (GetAlwaysAliveValues line_graph no_alias_db) no_alias_db
                   (GetMemoryPlanningCandidates line_graph every_node_reuses)
                 = Ok line_clusters)
    by (vm_compute; reflexivity).
  assert (Hc : line_clusters !! 1 = Some [1; 3]) by (vm_compute; reflexivity).
  split; [exact Hlm |]. split; [exact Hssv |]. split; [exact Hc |].
  apply (same_storage_clusters_free_or_chained line_graph no_alias_db every_node_reuses
           line_liveness line_clusters Hlm Hssv 1 [1; 3] 3 Hc).
  - right. left.
  - lia.
Defined.

(** The reuse candidates of [line_graph] and the values they are taken from. *)
Definition line_candidates : list Value * list Value :=
  GetMemoryPlanningCandidates line_graph every_node_reuses.

Lemma GetLivenessMap_shape_witness :
  GetLivenessMap fork_graph chain_db (GetAlwaysAliveValues fork_graph chain_db)
  = Ok fork_liveness
  ∧ (3 ∈ live_of fork_liveness 1 ↔ 1 ∈ live_of fork_liveness 3).
Proof.
  assert (Hlm : GetLivenessMap fork_graph chain_db
                  (GetAlwaysAliveValues fork_graph chain_db) = Ok fork_liveness)
    by (vm_compute; reflexivity).
  split; [exact Hlm |].
  exact (proj1 (GetLivenessMap_shape fork_graph chain_db _ fork_liveness Hlm) 1 3).
Defined.

Lemma GetAlwaysAliveValues_origin_witness :
  1 ∈ GetAlwaysAliveValues view_graph view_db
  ∧ (1 ∈ graph_inputs view_graph ∨ 1 ∈ graph_outputs view_graph
     ∨ (∃ n, n ∈ nodes view_graph ∧ kind n = prim_Constant ∧ 1 ∈ outputs n)
     ∨ admitted_by_query view_graph view_db 1).
Proof.
  assert (H : 1 ∈ GetAlwaysAliveValues view_graph view_db) by vm_compute_decide.
  split; [exact H |]. exact (GetAlwaysAliveValues_origin view_graph view_db 1 H).
Defined.

Lemma GenerateSameStorageValues_partition_witness :
  (∀ v, v ∈ line_candidates.1 → v ∈ line_candidates.2)
  ∧ ∃ ssv,
      GenerateSameStorageValues line_liveness
        (GetAlwaysAliveValues line_graph no_alias_db) no_alias_db line_candidates = Ok ssv
      ∧ (∀ v, v ∈ dom ssv ↔ v ∈ line_candidates.2)
      ∧ (∀ k c, ssv !! k = Some c → k ∈ c ∧ ∀ x, x ∈ c → ssv !! x = Some c)
      ∧ (∀ k1 k2 c1 c2 x,
           ssv !! k1 = Some c1 → ssv !! k2 = Some c2 → x ∈ c1 → x ∈ c2 → c1 = c2).
Proof.
  assert (H : ∀ v, v ∈ line_candidates.1 → v ∈ line_candidates.2).
  { apply Forall_forall. vm_compute_decide. }
  split; [exact H |].
  exact (GenerateSameStorageValues_partition line_liveness
           (GetAlwaysAliveValues line_graph no_alias_db) no_alias_db line_candidates H).
Defined.

End AnalysisWitnesses.

(** ** A kernel library and runtime states used as witnesses *)

Module RuntimeExamples.

Import IR Analysis Runtime Examples.

(** A handler that keeps the storage its output slot already has and
    otherwise makes a new one; either way the storage ends with 100 bytes. *)
Definition out_kernel : Kernel := fun ins outs h =>
  match outs with
  | [IVTensor (Some s)] =>
      Ok (outs, <[s := {| data := Some (default 1%Z (h !! s ≫= data)); nbytes := 100 |}]> h)
  | _ =>
      let s := size h in
      Ok ([IVTensor (Some s)], <[s := {| data := Some 1%Z; nbytes := 100 |}]> h)
  end.

Definition out_variant_lib : KernelLibrary :=
  {| canReuseInputsOutputs := fun _ => true;
     isOptimizableContainerType := fun _ => false;
     getOutOfPlaceOperation := fun _ => Some out_kernel;
     getNativeOperation := fun _ => None;
     nativeOpIsRegistered := fun _ => false;
     hasVarArgs := fun _ => false;
     getOperation := fun _ stack h => Ok (stack, h) |}.

Definition all_on : StaticModuleOptions :=
  {| cleanup_activations := true; enable_out_variant := true;
     optimize_memory := true; optimize_graph_output_memory := true |}.

Definition memory_without_out_variant : StaticModuleOptions :=
  {| cleanup_activations := true; enable_out_variant := false;
     optimize_memory := true; optimize_graph_output_memory := false |}.

Definition no_analysis (g : Graph) : AliasDb := no_alias_db.

(** Two tensors overlap when they hold the same storage. *)
Definition same_storage (a b : option StorageId) : MemOverlapStatus :=
  match a, b with
  | Some x, Some y => if decide (x = y) then FULL else NO
  | _, _ => NO
  end.

Definition keep_stack (s : FunctionSchema) (stack : list IValue)
  (kwargs : list (string * IValue)) : result (list IValue) := Ok stack.

Definition arena_at (size : Z) : Z := 4096%Z.

Definition empty_module : StaticModule :=
  {| opts_ := all_on; graph_ := line_graph; module_ := None; schema_ := None;
     first_input_is_self_ := false; constants_ := [];
     node_inputs_ssa_def_map_ := ∅; output_ssa_defs_ := []; sm_nodes_ := [];
     external_values_ := ∅; value_to_same_storage_values_ := ∅ |}.

Definition line_module : StaticModule :=
  value_or empty_module
    (StaticModule_new out_variant_lib no_analysis (line_graph, None) all_on).

Definition empty_runtime : StaticRuntime :=
  {| static_module_ := empty_module; constants := []; inputs_ := []; nodes_ := [];
     outputs_ := []; planner_ := None; storages := ∅; trace := [] |}.

(** The runtime of [line_module], fresh from its constructor. *)
Definition line_runtime : StaticRuntime :=
  value_or empty_runtime (StaticRuntime_new line_module).

Definition call (rt : StaticRuntime) : result (IValue * StaticRuntime) :=
  invoke out_variant_lib same_storage keep_stack arena_at 64 true rt
    [IVTensor (Some 100%nat)] [].

Definition after_first_call : IValue * StaticRuntime :=
  value_or (IVNone, empty_runtime) (call line_runtime).

(** A node whose output slot holds a tensor of the storage [s]. *)
Definition tensor_node (s : StorageId) (schema : option FunctionSchema) : ProcessedNode :=
  {| node_ := {| kind := OtherKind 0; inputs := []; outputs := [s]; maybeSchema := schema;
                 blocks := 0; has_operator := true; constant_ivalue := None |};
     p_inputs_ := []; p_outputs_ := [IVTensor (Some s)];
     fn_ := None; native_fn_ := None; op_ := None |}.

Definition empty_storages (ids : list StorageId) : gmap StorageId StorageImpl :=
  list_to_map (map (fun s => (s, {| data := None; nbytes := 0%Z |})) ids).

Definition planner_of (mts : list (Z * list (nat * nat))) (bytes : Z) : MemoryPlanner :=
  {| managed_tensors_ := mts; unmanaged_ivalues_ := []; managed_bytes_ := bytes;
     reused_tensors_ := 0; buffer_ := None |}.

(** Two single-tensor clusters whose tensors hold one and the same storage. *)
Definition shared_nodes : list ProcessedNode := [tensor_node 0 None; tensor_node 0 None].

(** Two single-tensor clusters with a storage each. *)
Definition apart_nodes : list ProcessedNode := [tensor_node 0 None; tensor_node 1 None].

Definition two_clusters (a b : Z) : list (Z * list (nat * nat)) :=
  [(a, [(0, 0)%nat]); (b, [(1, 0)%nat])].

Definition no_planner : MemoryPlanner * list ProcessedNode * gmap StorageId StorageImpl :=
  (planner_of [] 0, [], ∅).

Definition no_placement : MemoryPlanner * gmap StorageId StorageImpl * list Event :=
  (planner_of [] 0, ∅, []).

Definition shared_settled :=
  value_or no_planner
    (deallocate 64 shared_nodes (empty_storages [0%nat]) (planner_of (two_clusters 64 128) 0)).

Definition shared_placed :=
  value_or no_placement
    (allocate arena_at true shared_settled.1.2 shared_settled.2 shared_settled.1.1).

Definition shared_resettled :=
  value_or no_planner
    (deallocate 64 shared_settled.1.2 shared_placed.1.2 shared_placed.1.1).

Definition apart_settled :=
  value_or no_planner
    (deallocate 64 apart_nodes (empty_storages [0%nat; 1%nat]) (planner_of (two_clusters 64 128) 0)).

Definition apart_placed :=
  value_or no_placement
    (allocate arena_at true apart_settled.1.2 apart_settled.2 apart_settled.1.1).

Definition apart_resettled :=
  value_or no_planner
    (deallocate 64 apart_settled.1.2 apart_placed.1.2 apart_placed.1.1).

(** A cluster of learned size 64 and a cluster of learned size zero. *)
Definition one_sized_placed :=
  value_or no_placement
    (allocate arena_at true apart_nodes (empty_storages [0%nat; 1%nat])
       (planner_of (two_clusters 64 0) 64)).

Definition immutable : FunctionSchema := {| arguments := []; is_mutable := false |}.

(** A probe that knows two tensors of one storage to overlap and cannot
    tell for tensors of two storages, as for tensors that are not dense. *)
Definition undecided (a b : option StorageId) : MemOverlapStatus :=
  match a, b with
  | Some x, Some y => if decide (x = y) then FULL else TOO_HARD
  | _, _ => NO
  end.

(** Two storages of 64 bytes, 4096 bytes apart. *)
Definition two_buffers : gmap StorageId StorageImpl :=
  {[ 0%nat := {| data := Some 0%Z; nbytes := 64%Z |};
     1%nat := {| data := Some 4096%Z; nbytes := 64%Z |} ]}.

(** The state a second call leaves. *)
Definition after_second_call : IValue * StaticRuntime :=
  value_or (IVNone, empty_runtime) (call after_first_call.2).

(** The planner the first call made. *)
Definition first_plan : MemoryPlanner :=
  default (planner_of [] 0) (planner_ after_first_call.2).

(** The planner the constructor would build on the slots the first call left. *)
Definition replanned : MemoryPlanner :=
  value_or (planner_of [] 0)
    (MemoryPlanner_new out_variant_lib after_first_call.2
       (value_to_same_storage_values_ line_module) (external_values_ line_module)
       true true).

(** [forward(self, x)]: the module is the first input and is not used. *)
Definition method_graph : Graph :=
  {| graph_inputs := [9; 0]; graph_outputs := [1];
     nodes := [op [0] [1]];
     value_type := fun v => if decide (v = 9) then ModuleType else TensorType |}.

Definition a_module : Module :=
  {| forward_schema := {| arguments := ["self"; "x"]%string; is_mutable := false |};
     module_ivalue := IVOther 0 |}.

(** The second node of the runtime after the first call. *)
Definition second_node : ProcessedNode :=
  default (tensor_node 0 None) (nodes_ after_first_call.2 !! 1).

(** [line_runtime] with its input set. *)
Definition with_inputs : StaticRuntime :=
  value_or empty_runtime (set_inputs keep_stack true line_runtime [IVTensor (Some 100)] []).

End RuntimeExamples.

Module RuntimeWitnesses.

Import IR Analysis Runtime Examples RuntimeExamples.

Lemma alignment_64 : Align.alignment_ok 64.
Proof. exists 6%Z. split; [unfold SizeT.bits; lia | reflexivity]. Qed.

Lemma StaticModule_new_checks_flags_witness :
  conflicting memory_without_out_variant
  ∧ StaticModule_new out_variant_lib no_analysis (line_graph, None) memory_without_out_variant
    = Throw MemoryNeedsOutVariant
  ∧ StaticModule_new out_variant_lib no_analysis (line_graph, None) all_on
    = StaticModule_build out_variant_lib no_analysis (line_graph, None) all_on.
Proof.
  assert (Hc : conflicting memory_without_out_variant) by (right; done).
  destruct (StaticModule_new_checks_flags out_variant_lib no_analysis
              (line_graph, None) memory_without_out_variant) as [Hthrow _].
  destruct (StaticModule_new_checks_flags out_variant_lib no_analysis
              (line_graph, None) all_on) as [_ Hpass].
  split; [exact Hc |]. split.
  - destruct (Hthrow Hc) as [H | H]; [| exact H].
    vm_compute in H. discriminate H.
  - apply Hpass; done.
Defined.

Lemma verify_outputs_not_overlapping_witness :
  verify_outputs_not_overlapping_with_immutable_inputs same_storage
    (tensor_node 0 (Some immutable)) [IVTensor (Some 0%nat)] = false.
Proof.
  destruct (verify_outputs_not_overlapping_spec out_variant_lib same_storage true
              (tensor_node 0 (Some immutable)) [IVTensor (Some 0%nat)]) as (_ & Hiff & _).
  apply (Hiff immutable); [done | done |].
  exists (Some 0%nat), (Some 0%nat). split; [by left |]. split; [by left | done].
Defined.

(** The check fails on an input and an output whose storages are 4096
    bytes apart, because the probe answered [TOO_HARD]. *)
Lemma check_fails_without_overlap :
  ¬ fails_exactly_on_overlap undecided two_buffers
      (tensor_node 1 (Some immutable)) [IVTensor (Some 0%nat)].
Proof.
  intros H. destruct (H immutable eq_refl eq_refl) as [Hfwd _].
  destruct Hfwd as (in_t & out_t & Hin & Hout & ra & rb & Hra & Hrb & _ & Hlt);
    [reflexivity |].
  apply list_elem_of_singleton in Hin. apply list_elem_of_singleton in Hout.
  injection Hin as ->. injection Hout as ->.
  vm_compute in Hra, Hrb. injection Hra as <-. injection Hrb as <-. simpl in Hlt. lia.
Qed.

Lemma first_invoke_never_allocates_witness :
  StaticRuntime_new line_module = Ok line_runtime
  ∧ call line_runtime = Ok after_first_call
  ∧ planner_ line_runtime = None
  ∧ AllocateBuffer 256 ∉ trace after_first_call.2.
Proof.
  assert (Hnew : StaticRuntime_new line_module = Ok line_runtime)
    by (vm_compute; reflexivity).
  assert (Hcall : call line_runtime = Ok (after_first_call.1, after_first_call.2))
    by (vm_compute; reflexivity).
  destruct (first_invoke_never_allocates out_variant_lib same_storage keep_stack
              arena_at 64 true line_module line_runtime Hnew) as (Hnone & Hquiet & _).
  split; [exact Hnew |]. split; [vm_compute; reflexivity |]. split; [exact Hnone |].
  exact (Hquiet _ _ _ _ Hcall 256%Z).
Defined.

Lemma leak_check_witness :
  call line_runtime = Ok after_first_call
  ∧ CheckForMemoryLeak ∈ trace after_first_call.2
  ∧ num_outputs (static_module_ line_runtime) = 1%nat.
Proof.
  assert (Hcall : call line_runtime = Ok (after_first_call.1, after_first_call.2))
    by (vm_compute; reflexivity).
  assert (Hin : CheckForMemoryLeak ∈ trace after_first_call.2) by vm_compute_decide.
  split; [vm_compute; reflexivity |]. split; [exact Hin |].
  destruct (leak_check_vacuous_cases out_variant_lib same_storage keep_stack
              arena_at 64 true) as (_ & Hone & _).
  apply (Hone line_runtime _ _ _ _ (trace after_first_call.2) Hcall);
    [vm_compute; reflexivity | vm_compute; reflexivity | exact Hin].
Defined.

(** The count over all clusters is not what [allocate] records when a
    cluster has learned size zero. *)
Lemma reused_tensors_skips_empty_clusters :
  ¬ (∀ ns h pl pl' h' es,
       managed_bytes_ pl ≠ 0%Z →
       allocate arena_at true ns h pl = Ok (pl', h', es) →
       reused_tensors_ pl' = reused_over_all (managed_tensors_ pl)).
Proof.
  intros H.
  specialize (H apart_nodes (empty_storages [0%nat; 1%nat])
                (planner_of (two_clusters 64 0) 64)
                one_sized_placed.1.1 one_sized_placed.1.2 one_sized_placed.2).
  assert (Hne : managed_bytes_ (planner_of (two_clusters 64 0) 64) ≠ 0%Z)
    by (simpl; lia).
  specialize (H Hne ltac:(vm_compute; reflexivity)).
  vm_compute in H. discriminate H.
Qed.

Lemma allocate_reused_tensors_witness :
  allocate arena_at true apart_nodes (empty_storages [0%nat; 1%nat])
    (planner_of (two_clusters 64 0) 64) = Ok one_sized_placed
  ∧ reused_tensors_ one_sized_placed.1.1 = 0%Z.
Proof.
  assert (Ha : allocate arena_at true apart_nodes (empty_storages [0%nat; 1%nat])
                 (planner_of (two_clusters 64 0) 64)
               = Ok (one_sized_placed.1.1, one_sized_placed.1.2, one_sized_placed.2))
    by (vm_compute; reflexivity).
  split; [vm_compute; reflexivity |].
  assert (Hne : managed_bytes_ (planner_of (two_clusters 64 0) 64) ≠ 0%Z)
    by (simpl; lia).
  rewrite (allocate_reused_tensors arena_at true _ _ _ _ _ _ Hne Ha).
  vm_compute. reflexivity.
Defined.

(** The statement that [allocate] and then [deallocate] leave
    [managed_bytes_] as a [deallocate] left it, whatever the storages. *)
Definition managed_bytes_round_trip : Prop :=
  ∀ ns h pl pl1 ns1 h1 pl2 h2 es pl3 ns3 h3,
    sizes_aligned 64 (managed_tensors_ pl) →
    deallocate 64 ns h pl = Ok (pl1, ns1, h1) →
    allocate arena_at true ns1 h1 pl1 = Ok (pl2, h2, es) →
    deallocate 64 ns1 h2 pl2 = Ok (pl3, ns3, h3) →
    managed_bytes_ pl3 = managed_bytes_ pl1.

Lemma two_clusters_aligned : sizes_aligned 64 (two_clusters 64 128).
Proof.
  intros ms [-> | [-> | []%elem_of_nil]%elem_of_cons]%elem_of_cons; simpl;
    (split; [unfold SizeT.in_range, SizeT.modulus, SizeT.bits; lia |]).
  - exists 1%Z. reflexivity.
  - exists 2%Z. reflexivity.
Qed.

(** With one storage under the tensors of both clusters, the smaller
    cluster learns the size of the larger. *)
Lemma shared_storage_grows_managed_bytes : ¬ managed_bytes_round_trip.
Proof.
  intros H.
  specialize (H shared_nodes (empty_storages [0%nat]) (planner_of (two_clusters 64 128) 0)
                shared_settled.1.1 shared_settled.1.2 shared_settled.2
                shared_placed.1.1 shared_placed.1.2 shared_placed.2
                shared_resettled.1.1 shared_resettled.1.2 shared_resettled.2
                two_clusters_aligned
                ltac:(vm_compute; reflexivity) ltac:(vm_compute; reflexivity)
                ltac:(vm_compute; reflexivity)).
  vm_compute in H. discriminate H.
Qed.

Lemma apart_separate : separate_clusters apart_settled.1.2 (managed_tensors_ apart_settled.1.1).
Proof.
  intros pre ms post ms' t t' s Heq Hin Ht Ht' Hs Hs'.
  assert (Hm : managed_tensors_ apart_settled.1.1 = two_clusters 64 128)
    by (vm_compute; reflexivity).
  rewrite Hm in Heq. unfold two_clusters in Heq.
  destruct pre as [| a [| b [| c pre]]]; simplify_eq/=.
  - apply list_elem_of_singleton in Hin as ->. simpl in *.
    apply list_elem_of_singleton in Ht as ->, Ht' as ->.
    vm_compute in Hs, Hs'. congruence.
  - apply list_elem_of_singleton in Hin as ->. simpl in *.
    apply list_elem_of_singleton in Ht as ->, Ht' as ->.
    vm_compute in Hs, Hs'. congruence.
Qed.

Lemma allocate_deallocate_witness :
  deallocate 64 apart_nodes (empty_storages [0%nat; 1%nat]) (planner_of (two_clusters 64 128) 0)
  = Ok apart_settled
  ∧ allocate arena_at true apart_settled.1.2 apart_settled.2 apart_settled.1.1
    = Ok apart_placed
  ∧ deallocate 64 apart_settled.1.2 apart_placed.1.2 apart_placed.1.1 = Ok apart_resettled
  ∧ managed_bytes_ apart_resettled.1.1 = 192%Z
  ∧ managed_bytes_ apart_settled.1.1 = 192%Z.
Proof.
  split; [vm_compute; reflexivity |]. split; [vm_compute; reflexivity |].
  split; [vm_compute; reflexivity |].
  destruct (allocate_deallocate_keeps_managed_bytes arena_at 64 true
              apart_nodes (empty_storages [0%nat; 1%nat]) (planner_of (two_clusters 64 128) 0)
              apart_settled.1.1 apart_settled.1.2 apart_settled.2
              apart_placed.1.1 apart_placed.1.2 apart_placed.2
              apart_resettled.1.1 apart_resettled.1.2 apart_resettled.2
              alignment_64 two_clusters_aligned
              ltac:(vm_compute; reflexivity) apart_separate
              ltac:(vm_compute; reflexivity) ltac:(vm_compute; reflexivity)) as [_ Hb].
  split; [rewrite Hb |]; vm_compute; reflexivity.
Defined.

Lemma first_call_returns :
  call line_runtime = Ok (after_first_call.1, after_first_call.2).
Proof. vm_compute. reflexivity. Qed.


Lemma invoke_moves_outputs_out_witness :
  call line_runtime = Ok (after_first_call.1, after_first_call.2)
  ∧ deref after_first_call.2 (OutputSlot 3 0) = Some IVNone.
Proof.
  split; [exact first_call_returns |].
  apply (proj1 (invoke_moves_outputs_out out_variant_lib same_storage keep_stack arena_at
                  64 true line_runtime [IVTensor (Some 100%nat)] [] after_first_call.1
                  after_first_call.2 first_call_returns) 0%nat (OutputSlot 3 0)).
  - vm_compute_decide.
  - vm_compute. reflexivity.
Defined.

Lemma invoke_runs_nodes_in_order_witness :
  call line_runtime = Ok (after_first_call.1, after_first_call.2)
  ∧ ∃ before after,
      trace after_first_call.2
      = trace line_runtime ++ before
        ++ map RunNode (seq 0 (length (nodes_ line_runtime))) ++ after
      ∧ before = allocation_events (planner_ line_runtime)
      ∧ after = leak_check_events true (static_module_ line_runtime)
      ∧ ∀ idx, RunNode idx ∉ before ++ after.
Proof.
  split; [exact first_call_returns |].
  exact (invoke_runs_nodes_in_order out_variant_lib same_storage keep_stack arena_at 64 true
           line_runtime [IVTensor (Some 100%nat)] [] after_first_call.1 after_first_call.2
           first_call_returns).
Defined.

Lemma deallocate_releases_witness :
  deallocate 64 apart_settled.1.2 apart_placed.1.2 apart_placed.1.1
  = Ok (apart_resettled.1.1, apart_resettled.1.2, apart_resettled.2)
  ∧ buffer_ apart_resettled.1.1 = None
  ∧ released apart_resettled.2 0.
Proof.
  assert (H : deallocate 64 apart_settled.1.2 apart_placed.1.2 apart_placed.1.1
              = Ok (apart_resettled.1.1, apart_resettled.1.2, apart_resettled.2))
    by (vm_compute; reflexivity).
  split; [exact H |].
  destruct (deallocate_releases 64 _ _ _ _ _ _ H) as (Hb & _ & _ & Hrel & _).
  split; [exact Hb |]. apply Hrel.
  exists (64%Z, [(0, 0)%nat]), (0, 0)%nat.
  split; [vm_compute_decide |]. split; [vm_compute_decide |]. vm_compute. reflexivity.
Defined.

Lemma MemoryPlanner_new_partition_witness :
  MemoryPlanner_new out_variant_lib after_first_call.2
    (value_to_same_storage_values_ line_module) (external_values_ line_module) true true
  = Ok replanned
  ∧ (in_clusters (managed_tensors_ replanned) (2, 0)%nat
     ↔ ∃ v, slot_value (nodes_ after_first_call.2) 2 0 v
            ∧ managed_value true (graph_ (static_module_ after_first_call.2))
                (nodes_ after_first_call.2) (external_values_ line_module) v
            ∧ v ∉ graph_outputs (graph_ (static_module_ after_first_call.2))).
Proof.
  assert (H : MemoryPlanner_new out_variant_lib after_first_call.2
                (value_to_same_storage_values_ line_module) (external_values_ line_module)
                true true = Ok replanned)
    by (vm_compute; reflexivity).
  split; [exact H |].
  exact (proj1 (MemoryPlanner_new_partition out_variant_lib _ _ _ _ _ _ H) (2, 0)%nat).
Defined.

Lemma allocate_layout_witness :
  managed_bytes_ apart_settled.1.1 ≠ 0%Z
  ∧ allocate arena_at true apart_settled.1.2 apart_settled.2 apart_settled.1.1
    = Ok (apart_placed.1.1, apart_placed.1.2, apart_placed.2)
  ∧ separate_clusters apart_settled.1.2 (managed_tensors_ apart_settled.1.1)
  ∧ buffer_ apart_placed.1.1 = Some 4096%Z
  ∧ placed_at (4096 + 64) 128 apart_placed.1.2 1.
Proof.
  assert (Hnz : managed_bytes_ apart_settled.1.1 ≠ 0%Z) by (vm_compute; discriminate).
  assert (H : allocate arena_at true apart_settled.1.2 apart_settled.2 apart_settled.1.1
              = Ok (apart_placed.1.1, apart_placed.1.2, apart_placed.2))
    by (vm_compute; reflexivity).
  split; [exact Hnz |]. split; [exact H |]. split; [exact apart_separate |].
  destruct (allocate_layout arena_at true _ _ _ _ _ _ Hnz H) as (Hb & _ & _ & _ & _ & Hlay & _).
  split; [exact Hb |].
  apply (Hlay apart_separate 1%nat (128%Z, [(1, 0)%nat]) (1, 0)%nat 1%nat).
  - vm_compute. reflexivity.
  - discriminate.
  - vm_compute_decide.
  - vm_compute. reflexivity.
Defined.

Lemma handle_schema_self_witness :
  handle_schema method_graph (Some a_module)
  = Ok (eraseInput0 method_graph,
        Some {| arguments := ["x"]%string; is_mutable := false |}, false)
  ∧ ∃ self rest,
      graph_inputs method_graph = self :: rest
      ∧ nodes (eraseInput0 method_graph) = nodes method_graph
      ∧ graph_outputs (eraseInput0 method_graph) = graph_outputs method_graph
      ∧ value_type (eraseInput0 method_graph) = value_type method_graph
      ∧ (false = true ↔ value_type method_graph self = ModuleType
                        ∧ hasUses method_graph self = true)
      ∧ (false = true →
         eraseInput0 method_graph = method_graph
         ∧ Some {| arguments := ["x"]%string; is_mutable := false |}
           = Some (forward_schema a_module))
      ∧ (false = false →
         graph_inputs (eraseInput0 method_graph)
         = (if decide (value_type method_graph self = ModuleType) then rest
            else self :: rest)
         ∧ ∃ args, arguments (forward_schema a_module) = "self"%string :: args
                   ∧ Some {| arguments := ["x"]%string; is_mutable := false |}
                     = Some {| arguments := args;
                               is_mutable := is_mutable (forward_schema a_module) |}).
Proof.
  assert (H : handle_schema method_graph (Some a_module)
              = Ok (eraseInput0 method_graph,
                    Some {| arguments := ["x"]%string; is_mutable := false |}, false))
    by reflexivity.
  split; [exact H |]. exact (handle_schema_self _ _ _ _ _ H).
Defined.

Lemma line_module_constructed :
  StaticModule_new out_variant_lib no_analysis (line_graph, None) all_on = Ok line_module.
Proof. vm_compute. reflexivity. Qed.

Lemma StaticRuntime_new_wired_witness :
  StaticModule_new out_variant_lib no_analysis (line_graph, None) all_on = Ok line_module
  ∧ ∃ rt,
      StaticRuntime_new line_module = Ok rt
      ∧ inputs_ rt = replicate (num_inputs line_module) IVNone
      ∧ length (outputs_ rt) = num_outputs line_module
      ∧ planner_ rt = None
      ∧ map node_ (nodes_ rt)
        = List.filter (fun n => negb (is_constant n)) (nodes (graph_ line_module))
      ∧ ∀ idx pn,
          nodes_ rt !! idx = Some pn →
          one_handler pn
          ∧ p_outputs_ pn = replicate (length (outputs (node_ pn))) IVNone
          ∧ length (p_inputs_ pn) = length (inputs (node_ pn))
          ∧ Forall (fun p => ∃ ptr, p = Some ptr ∧ valid_ptr rt idx ptr
                                    ∧ is_Some (deref rt ptr))
              (p_inputs_ pn).
Proof.
  split; [exact line_module_constructed |].
  exact (StaticRuntime_new_wired out_variant_lib no_analysis _ _ _ line_module_constructed).
Defined.

Lemma read_inputs_defined_witness :
  StaticModule_new out_variant_lib no_analysis (line_graph, None) all_on = Ok line_module
  ∧ StaticRuntime_new line_module = Ok line_runtime
  ∧ same_slots line_runtime after_first_call.2
  ∧ nodes_ after_first_call.2 !! 1%nat = Some second_node
  ∧ Forall (fun p => ∃ ptr, p = Some ptr ∧ valid_ptr after_first_call.2 1 ptr)
      (p_inputs_ second_node)
  ∧ ∃ ins, read_inputs after_first_call.2 second_node = Ok ins
           ∧ length ins = length (inputs (node_ second_node)).
Proof.
  assert (Hrt : StaticRuntime_new line_module = Ok line_runtime) by (vm_compute; reflexivity).
  assert (Hs : same_slots line_runtime after_first_call.2).
  { split; [vm_compute; reflexivity |]. split; vm_compute; reflexivity. }
  assert (Hn : nodes_ after_first_call.2 !! 1%nat = Some second_node)
    by (vm_compute; reflexivity).
  split; [exact line_module_constructed |]. split; [exact Hrt |]. split; [exact Hs |].
  split; [exact Hn |].
  exact (read_inputs_defined out_variant_lib no_analysis _ _ _ _ _ _ _
           line_module_constructed Hrt Hs Hn).
Defined.

Lemma set_inputs_writes_prefix_witness :
  set_inputs keep_stack true line_runtime [IVTensor (Some 100%nat)] [] = Ok with_inputs
  ∧ ∃ stack,
      with_inputs = set_inputs_ (stack ++ drop (length stack) (inputs_ line_runtime))
                      line_runtime
      ∧ (length stack ≤ length (inputs_ line_runtime))%nat
      ∧ (true = true → length stack = length (inputs_ line_runtime))
      ∧ (first_input_is_self_ (static_module_ line_runtime) = true →
         is_Some (module_ (static_module_ line_runtime)))
      ∧ stack = self_argument (static_module_ line_runtime) ++ [IVTensor (Some 100%nat)].
Proof.
  assert (H : set_inputs keep_stack true line_runtime [IVTensor (Some 100%nat)] []
              = Ok with_inputs) by (vm_compute; reflexivity).
  split; [exact H |]. exact (set_inputs_writes_prefix keep_stack true _ _ _ _ H).
Defined.

Lemma invoke_keeps_plan_witness :
  planner_ after_first_call.2 = Some first_plan
  ∧ call after_first_call.2 = Ok (after_second_call.1, after_second_call.2)
  ∧ ∃ pl',
      planner_ after_second_call.2 = Some pl'
      ∧ unmanaged_ivalues_ pl' = unmanaged_ivalues_ first_plan
      ∧ Forall2 (fun n o : Z * list (nat * nat) => n.2 = o.2 ∧ (o.1 ≤ n.1)%Z)
          (managed_tensors_ pl') (managed_tensors_ first_plan)
      ∧ (cleanup_activations (opts_ (static_module_ after_first_call.2)) = true →
         buffer_ pl' = None)
      ∧ (cleanup_activations (opts_ (static_module_ after_first_call.2)) = false →
         managed_tensors_ pl' = managed_tensors_ first_plan
         ∧ managed_bytes_ pl' = managed_bytes_ first_plan).
Proof.
  assert (Hpl : planner_ after_first_call.2 = Some first_plan) by (vm_compute; reflexivity).
  assert (H : call after_first_call.2 = Ok (after_second_call.1, after_second_call.2))
    by (vm_compute; reflexivity).
  split; [exact Hpl |]. split; [exact H |].
  exact (invoke_keeps_plan out_variant_lib same_storage keep_stack arena_at 64 true
           after_first_call.2 [IVTensor (Some 100%nat)] [] after_second_call.1
           after_second_call.2 first_plan Hpl H).
Defined.

End RuntimeWitnesses.
